(** * AgentKit local runtime: workspace tools, agent loop, runner, MCP read loop

    A shallow embedding of the Go packages [platforms/local] (tools.go,
    agent.go, runner.go, config.go) and [mcp] (server.go, protocol.go), with the
    properties of the embedded runtime stated and proved over it.

    Conventions.
    - A Go [string] is a [string] (a sequence of bytes).
    - A Go [error] is represented by its message ([err.Error()]); a Go
      result pair [(T, error)] is a value of [result T].
    - Go [int] and [int64] values are in [Z].
    - Everything outside the process (file system, child processes, the
      injected LLM client) acts on an abstract world state that is threaded
      through the calls. *)

From Stdlib Require Import ZArith Lia Ascii.
From stdpp Require Import base option list strings pretty gmap.

Local Open Scope string_scope.
Local Open Scope list_scope.

(** ** Errors and results *)

Definition error := string.

Inductive result (A : Type) : Type :=
| Ok (a : A)
| Err (e : error).
Arguments Ok {A} a.
Arguments Err {A} e.

Definition is_ok {A} (r : result A) : bool :=
  match r with Ok _ => true | Err _ => false end.

Definition is_err {A} (r : result A) : bool := negb (is_ok r).

(** ** Go's [strings] package, as far as the runtime uses it *)

Module Strings.

(** [strings.HasPrefix(s, prefix)]. *)
Fixpoint HasPrefix (s prefix : string) {struct prefix} : bool :=
  match prefix with
  | EmptyString => true
  | String p prefix' =>
      match s with
      | EmptyString => false
      | String c s' => if Ascii.eqb c p then HasPrefix s' prefix' else false
      end
  end.

(** [strings.HasSuffix(s, suffix)]. *)
Definition HasSuffix (s suffix : string) : bool :=
  HasPrefix (String.rev s) (String.rev suffix).

(** [strings.Contains(s, substr)], as a proposition. *)
Definition Contains (s substr : string) : Prop :=
  exists pre post, s = pre +:+ substr +:+ post.

(** [strings.Split(s, sep)] for a one-byte separator: the elements between
    the separators, empty ones included; never the empty list. *)
Fixpoint Split (s : string) (sep : Ascii.ascii) : list string :=
  match s with
  | EmptyString => [EmptyString]
  | String c s' =>
      if Ascii.eqb c sep then EmptyString :: Split s' sep
      else match Split s' sep with
           | [] => [String c EmptyString]
           | e :: es => String c e :: es
           end
  end.

(** [strings.Join(elems, sep)]. *)
Fixpoint Join (elems : list string) (sep : string) : string :=
  match elems with
  | [] => EmptyString
  | [e] => e
  | e :: es => e +:+ sep +:+ Join es sep
  end.

End Strings.

(** ** Go's [path/filepath] on Unix

    [validatePath] calls [filepath.IsAbs], [Join], [Abs] and [Rel]. They are
    library code; the model below follows their Unix implementation element
    by element: a path is cut at the separators, [Clean] runs over the
    elements with the output kept as a stack of elements, and [Rel] compares
    two cleaned paths element by element. *)

Module Filepath.

Definition Separator : Ascii.ascii := "/"%char.

(** [filepath.IsAbs]: on Unix, the path starts with a slash. *)
Definition IsAbs (path : string) : bool := Strings.HasPrefix path "/".

(** One step of the loop of [Clean] on the element [e]; [out] is the
    output so far, last element first.
    - an empty element and [.] are dropped;
    - [..] removes the last element when the output can backtrack (it holds
      an element that is not itself a leading [..]); when it cannot, the
      [..] is kept in a path that is not rooted and dropped in a rooted one;
    - any other element is appended. *)
Definition cleanStep (rooted : bool) (out : list string) (e : string)
  : list string :=
  if decide (e = "") then out
  else if decide (e = ".") then out
  else if decide (e = "..") then
    match out with
    | top :: out' =>
        if decide (top = "..") then (if rooted then out else e :: out)
        else out'
    | [] => if rooted then out else [e]
    end
  else e :: out.

(** The elements of the cleaned path, in order. *)
Definition cleanElems (rooted : bool) (elems : list string) : list string :=
  rev (fold_left (cleanStep rooted) elems []).

(** [filepath.Clean]: the shortest path equivalent to [path] by purely
    lexical processing. The empty path becomes [.]; a rooted path keeps its
    leading slash; the result ends in a slash only if it is the root. *)
Definition Clean (path : string) : string :=
  let rooted := IsAbs path in
  let body := Strings.Join (cleanElems rooted (Strings.Split path Separator)) "/" in
  if rooted then "/" +:+ body
  else if decide (body = "") then "." else body.

(** [filepath.Join]: the non-empty elements from the first non-empty one on,
    separated by slashes, and cleaned; the empty string when every element
    is empty. *)
Fixpoint Join (elem : list string) : string :=
  match elem with
  | [] => ""
  | e :: rest =>
      if decide (e = "") then Join rest
      else Clean (Strings.Join elem "/")
  end.

(** [filepath.Abs]: an absolute path is cleaned; a relative one is joined
    onto the working directory of the process, [getwd] being what
    [os.Getwd] returns. *)
Definition Abs (getwd : result string) (path : string) : result string :=
  if IsAbs path then Ok (Clean path)
  else match getwd with
       | Ok wd => Ok (Join [wd; path])
       | Err err => Err err
       end.

(** The elements of a cleaned path after its leading slash, for [Rel]; the
    cleaned path [.] and the root have none. *)
Definition relElems (cleaned : string) : list string :=
  let body := if IsAbs cleaned then
                match cleaned with String _ s => s | EmptyString => "" end
              else if decide (cleaned = ".") then "" else cleaned in
  if decide (body = "") then [] else Strings.Split body Separator.

(** Both paths positioned at their first differing elements. *)
Fixpoint dropCommon (base targ : list string) : list string * list string :=
  match base, targ with
  | b :: base', t :: targ' =>
      if decide (b = t) then dropCommon base' targ' else (base, targ)
  | _, _ => (base, targ)
  end.

Definition relError (basepath targpath : string) : error :=
  "Rel: can't make " +:+ targpath +:+ " relative to " +:+ basepath.

(** [filepath.Rel(basepath, targpath)]: a relative path that is lexically
    equivalent to [targpath] when joined to [basepath]. It fails when one
    path is rooted and the other is not, and when [basepath] has a [..]
    element at the point where the two paths part. *)
Definition Rel (basepath targpath : string) : result string :=
  let base := Clean basepath in
  let targ := Clean targpath in
  if decide (targ = base) then Ok "."
  else if negb (Bool.eqb (IsAbs base) (IsAbs targ)) then
    Err (relError basepath targpath)
  else
    let '(b, t) := dropCommon (relElems base) (relElems targ) in
    match b with
    | [] => Ok (Strings.Join t "/")
    | b0 :: _ =>
        if decide (b0 = "..") then Err (relError basepath targpath)
        else Ok (Strings.Join (map (fun _ => "..") b ++ t) "/")
    end.

(** The part of [path] that [Dir] keeps before cleaning: everything up to
    and including the last separator, nothing when there is none. *)
Definition dirPart (path : string) : string :=
  match removelast (Strings.Split path Separator) with
  | [] => ""
  | front => Strings.Join front "/" +:+ "/"
  end.

(** [filepath.Dir]: all but the last element of [path], cleaned. *)
Definition Dir (path : string) : string := Clean (dirPart path).

End Filepath.

(** ** The world outside the process

    A computation that may change the world is a state transformer [M A];
    one that only inspects it is a function of the world. *)

Definition M (World A : Type) : Type := World -> A * World.

Definition ret {World A} (a : A) : M World A := fun w => (a, w).

Definition bind {World A B} (m : M World A) (f : A -> M World B) : M World B :=
  fun w => let (a, w') := m w in f a w'.

Notation "x <- m ;; k" := (bind m (fun x => k))
  (at level 100, m at next level, right associativity).

(** A Go pointer that may be nil, and a Go slice that may be nil. *)
Abbreviation ptr A := (option A) (only parsing).
Abbreviation slice A := (option (list A)) (only parsing).

(** [len] of a slice; a nil slice has length 0. *)
Definition len {A} (s : slice A) : nat :=
  match s with Some l => length l | None => 0 end.

(** [os.FileInfo], as far as [ReadFile] looks at it. *)
Record FileInfo := { fi_IsDir : bool; fi_Size : Z }.

(** [exec.Cmd]: the program, its arguments and its working directory. *)
Record Cmd := { cmd_Path : string; cmd_Args : list string; cmd_Dir : string }.

(** The error of [cmd.Run()]: nil, an [*exec.ExitError] carrying the exit
    code of a process that ran, or any other error (the process could not
    be started). *)
Inductive RunError :=
| RunNil
| RunExitError (code : Z)
| RunFailed (e : error).

(** What one [cmd.Run()] leaves behind: the bytes written to the two
    buffers installed as [cmd.Stdout] and [cmd.Stderr], and the error. *)
Record RunOutcome := {
  run_stdout : string;
  run_stderr : string;
  run_err : RunError;
}.

(** [GrepMatch] represents a single grep match. *)
Record GrepMatch := { gm_File : string; gm_Line : Z; gm_Content : string }.

(** [ToolSet] provides filesystem and shell tools scoped to a workspace. *)
Record ToolSet := { workspace : string; maxFileSize : Z }.

(** The runtime's view of its environment.
    - the operating-system calls of [ReadFile] and [RunCommand];
    - [WriteFile], [GlobFiles] and [GrepFiles] of tools.go, which the
      properties below do not look into, as operations of the environment;
    - [ctx_Err]: [ctx.Err()] of the request context, nil until it is done;
    - [sched_pick]: the Go scheduler's choice of the goroutine that runs
      next, as a number that is reduced modulo the number of runnable ones;
    - [map_order]: the order in which a [range] over a map with the given
      keys visits them, which Go leaves unspecified. *)
Class Env (World : Type) := {
  os_Getwd : World -> result string;
  os_Stat : string -> World -> result FileInfo;
  os_ReadFile : string -> World -> result string;
  exec_Run : Cmd -> M World RunOutcome;
  WriteFile : ToolSet -> string -> string -> M World (option error);
  GlobFiles : ToolSet -> string -> World -> result (slice string);
  GrepFiles : ToolSet -> string -> string -> World -> result (slice GrepMatch);
  ctx_Err : M World (option error);
  sched_pick : M World nat;
  map_order : list string -> M World (list string);
  map_order_perm : forall keys w, (map_order keys w).1 ≡ₚ keys;
}.

(** ** tools.go: tools scoped to a workspace *)

(** [NewToolSet]: the default limit is 10 MB. *)
Definition NewToolSet (workspace : string) : ToolSet :=
  {| workspace := workspace; maxFileSize := 10 * 1024 * 1024 |}.

Definition SetMaxFileSize (ts : ToolSet) (size : Z) : ToolSet :=
  {| workspace := workspace ts; maxFileSize := size |}.

(** [CommandResult] holds the result of a command execution. *)
Record CommandResult := {
  cr_Command : string;
  cr_Args : list string;
  cr_Stdout : string;
  cr_Stderr : string;
  cr_ExitCode : Z;
}.

(** [CommandResult.Success]. *)
Definition Success (r : CommandResult) : bool := (cr_ExitCode r =? 0)%Z.

Section Tools.
Context {World : Type} `{Env World}.

(** [ToolSet.validatePath] ensures a path is within the workspace. *)
Definition validatePath (ts : ToolSet) (path : string) (w : World)
  : result string :=
  let path := if negb (Filepath.IsAbs path)
              then Filepath.Join [workspace ts; path] else path in
  match Filepath.Abs (os_Getwd w) path with
  | Err err => Err ("invalid path: " +:+ err)
  | Ok absPath =>
      match Filepath.Rel (workspace ts) absPath with
      | Err err => Err ("path outside workspace: " +:+ err)
      | Ok relPath =>
          if Strings.HasPrefix relPath ".."
          then Err ("path outside workspace: " +:+ path)
          else Ok absPath
      end
  end.

(** [ToolSet.ReadFile] reads the contents of a file within the workspace. *)
Definition ReadFile (ts : ToolSet) (path : string) (w : World)
  : result string :=
  match validatePath ts path w with
  | Err err => Err err
  | Ok absPath =>
      match os_Stat absPath w with
      | Err err => Err ("cannot access file: " +:+ err)
      | Ok info =>
          if fi_IsDir info then Err ("path is a directory: " +:+ path)
          else if (fi_Size info >? maxFileSize ts)%Z then
            Err ("file too large: " +:+ pretty (fi_Size info) +:+ " bytes (max "
                 +:+ pretty (maxFileSize ts) +:+ ")")
          else
            match os_ReadFile absPath w with
            | Err err => Err ("failed to read file: " +:+ err)
            | Ok content => Ok content
            end
      end
  end.

(** The [exec.Cmd] that [RunCommand] builds: [exec.CommandContext] with
    [cmd.Dir] set to the workspace. *)
Definition commandIn (ts : ToolSet) (command : string) (args : list string)
  : Cmd :=
  {| cmd_Path := command; cmd_Args := args; cmd_Dir := workspace ts |}.

(** [ToolSet.RunCommand] executes a command within the workspace. *)
Definition RunCommand (ts : ToolSet) (command : string) (args : list string)
  : M World (result CommandResult) :=
  out <- exec_Run (commandIn ts command args) ;;
  let result := {| cr_Command := command; cr_Args := args;
                   cr_Stdout := run_stdout out; cr_Stderr := run_stderr out;
                   cr_ExitCode := 0 |} in
  match run_err out with
  | RunNil => ret (Ok result)
  | RunExitError code =>
      ret (Ok {| cr_Command := cr_Command result; cr_Args := cr_Args result;
                 cr_Stdout := cr_Stdout result; cr_Stderr := cr_Stderr result;
                 cr_ExitCode := code |})
  | RunFailed err => ret (Err ("command execution failed: " +:+ err))
  end.

(** [ToolSet.RunShell] executes a shell command string with [sh -c]. *)
Definition RunShell (ts : ToolSet) (shellCmd : string)
  : M World (result CommandResult) :=
  RunCommand ts "sh" ["-c"; shellCmd].

End Tools.

(** *** [WriteFile] and [GlobFiles] over the calls they make

    The agent loop and the MCP server reach [WriteFile] and [GlobFiles]
    through the environment. Their bodies in tools.go are the functions of
    the module [Files], over three further calls: [os.MkdirAll] and
    [os.WriteFile] with their permission bits, and [filepath.Glob]. *)

Class FileOps (World : Type) := {
  os_MkdirAll : string -> Z -> M World (option error);
  os_WriteFile : string -> string -> Z -> M World (option error);
  filepath_Glob : string -> World -> result (slice string);
}.

Module Files.
Section Bodies.
Context {World : Type} `{Env World} `{FileOps World}.

(** [ToolSet.WriteFile] writes content to a file within the workspace;
    the permission bits are 0755 for the directories and 0600 for the
    file. *)
Definition WriteFile (ts : ToolSet) (path content : string)
  : M World (option error) :=
  fun w =>
    match validatePath ts path w with
    | Err err => (Some err, w)
    | Ok absPath =>
        (e <- os_MkdirAll (Filepath.Dir absPath) 493 ;;
         match e with
         | Some err => ret (Some ("failed to create directory: " +:+ err))
         | None =>
             e <- os_WriteFile absPath content 384 ;;
             match e with
             | Some err => ret (Some ("failed to write file: " +:+ err))
             | None => ret None
             end
         end) w
    end.

(** The loop of [GlobFiles] over the matches: a match that [Rel] cannot
    relate to the workspace, or whose relative path starts with two dots,
    is skipped; [result] is nil until the first path is appended. *)
Fixpoint globFilter (ts : ToolSet) (matches : list string)
    (result : slice string) : slice string :=
  match matches with
  | [] => result
  | m :: rest =>
      match Filepath.Rel (workspace ts) m with
      | Err _ => globFilter ts rest result
      | Ok relPath =>
          if Strings.HasPrefix relPath ".." then globFilter ts rest result
          else globFilter ts rest (Some (default [] result ++ [relPath]))
      end
  end.

(** [ToolSet.GlobFiles] finds files matching a glob pattern within the
    workspace. *)
Definition GlobFiles (ts : ToolSet) (pattern : string) (w : World)
  : result (slice string) :=
  let pattern := if negb (Filepath.IsAbs pattern)
                 then Filepath.Join [workspace ts; pattern] else pattern in
  match filepath_Glob pattern w with
  | Err err => Err ("invalid glob pattern: " +:+ err)
  | Ok matches => Ok (globFilter ts (default [] matches) None)
  end.

End Bodies.
End Files.

(** ** agent.go: the embedded agent and its loop *)

(** A Go value of type [any]: what an LLM puts into the arguments of a tool
    call, and what a tool returns. *)
#[local] Set Warnings "-register-all".
Inductive any :=
| AnyNil
| AnyBool (b : bool)
| AnyNumber (literal : string)
| AnyString (s : string)
| AnySlice (l : list any)
| AnyObject (fields : list (string * any))
| AnyStrings (l : slice string)
| AnyGrepMatches (l : slice GrepMatch)
| AnyCommandResult (r : CommandResult).

(** The type assertion [v.(string)] on a map entry that may be missing. *)
Definition assertString (v : option any) : option string :=
  match v with
  | Some (AnyString s) => Some s
  | _ => None
  end.

(** [Message] represents a chat message. *)
Record Message := {
  msg_Role : string;
  msg_Content : string;
  msg_Name : string;
  msg_ToolID : string;
}.

(** [ToolDefinition] defines a tool for the LLM. *)
Record ToolDefinition := {
  td_Name : string;
  td_Description : string;
  td_Parameters : list (string * any);
}.

(** [ToolCall] represents an LLM's request to call a tool. *)
Record ToolCall := {
  tc_ID : string;
  tc_Name : string;
  tc_Arguments : gmap string any;
}.

(** [CompletionResponse] holds the LLM response. *)
Record CompletionResponse := {
  resp_Content : string;
  resp_ToolCalls : list ToolCall;
  resp_Done : bool;
}.

(** [AgentResult] holds the result of an agent invocation. *)
Record AgentResult := {
  Agent : string;
  Input : string;
  Output : string;
  ar_Success : bool;
  Error : string;
}.

(** The [Tool] interface: a capability available to agents. *)
Record Tool (World : Type) := {
  tool_Name : string;
  tool_Description : string;
  tool_Execute : gmap string any -> M World (result any);
}.
Arguments tool_Name {World} _.
Arguments tool_Description {World} _.
Arguments tool_Execute {World} _ _.

(** The [LLMClient] interface. *)
Record LLMClient (World : Type) := {
  Complete : list Message -> list ToolDefinition ->
             M World (result CompletionResponse);
}.
Arguments Complete {World} _ _ _.

(** [EmbeddedAgent] is a lightweight agent that runs in-process. *)
Record EmbeddedAgent (World : Type) := {
  name : string;
  description : string;
  instructions : string;
  tools : list (Tool World);
  llm : LLMClient World;
  maxTokens : Z;
}.
Arguments name {World} _.
Arguments description {World} _.
Arguments instructions {World} _.
Arguments tools {World} _.
Arguments llm {World} _.
Arguments maxTokens {World} _.

(** Library functions taken as given: [json.Marshal] of a tool result,
    [strings.TrimSpace], and the [%q] verb of [fmt] ([strconv.Quote]). *)
Class Lib := {
  json_Marshal : any -> string;
  strings_TrimSpace : string -> string;
  strconv_Quote : string -> string;
}.

(** The ceiling of the agent loop: the constant [maxIterations] of
    [Invoke]. *)
Definition maxIterations : nat := 10.

(** What one pass through the body of the agent loop does: it returns from
    [Invoke], or it goes on with a longer message list. *)
Inductive LoopStep :=
| Return (r : result AgentResult)
| Continue (messages : list Message).

Section Agent.
Context {World : Type} `{Env World} `{Lib}.

(** [EmbeddedAgent.getToolParameters]: the parameter schema of a tool. *)
Definition stringProperty (desc : string) : any :=
  AnyObject [("type", AnyString "string"); ("description", AnyString desc)].

Definition getToolParameters (name : string) : list (string * any) :=
  if decide (name = "read") then
    [("type", AnyString "object");
     ("properties", AnyObject [("path", stringProperty "Path to the file to read")]);
     ("required", AnyStrings (Some ["path"]))]
  else if decide (name = "write") then
    [("type", AnyString "object");
     ("properties", AnyObject [("path", stringProperty "Path to the file to write");
                               ("content", stringProperty "Content to write to the file")]);
     ("required", AnyStrings (Some ["path"; "content"]))]
  else if decide (name = "glob") then
    [("type", AnyString "object");
     ("properties", AnyObject [("pattern", stringProperty "Glob pattern to match files")]);
     ("required", AnyStrings (Some ["pattern"]))]
  else if decide (name = "grep") then
    [("type", AnyString "object");
     ("properties", AnyObject [("pattern", stringProperty "Regex pattern to search for");
                               ("file_pattern", stringProperty "Optional file name pattern to filter files")]);
     ("required", AnyStrings (Some ["pattern"]))]
  else if decide (name = "shell") then
    [("type", AnyString "object");
     ("properties", AnyObject [("command", stringProperty "Shell command to execute")]);
     ("required", AnyStrings (Some ["command"]))]
  else [("type", AnyString "object")].

(** [EmbeddedAgent.buildToolDefinitions]. *)
Definition buildToolDefinitions (a : EmbeddedAgent World)
  : list ToolDefinition :=
  map (fun tool => {| td_Name := tool_Name tool;
                      td_Description := tool_Description tool;
                      td_Parameters := getToolParameters (tool_Name tool) |})
      (tools a).

(** [EmbeddedAgent.executeTool]: the first tool of the agent with the
    requested name runs; with none, the call is an error. *)
Fixpoint executeToolIn (ts : list (Tool World)) (tc : ToolCall)
  : M World (result any) :=
  match ts with
  | [] => ret (Err ("unknown tool: " +:+ tc_Name tc))
  | tool :: rest =>
      if decide (tool_Name tool = tc_Name tc)
      then tool_Execute tool (tc_Arguments tc)
      else executeToolIn rest tc
  end.

Definition executeTool (a : EmbeddedAgent World) (tc : ToolCall)
  : M World (result any) :=
  executeToolIn (tools a) tc.

(** The tool-role message that reports the outcome of one tool call. *)
Definition toolMessage (tc : ToolCall) (r : result any) : Message :=
  let resultContent := match r with
                       | Err err => "Error: " +:+ err
                       | Ok result => json_Marshal result
                       end in
  {| msg_Role := "tool"; msg_Content := resultContent;
     msg_Name := tc_Name tc; msg_ToolID := tc_ID tc |}.

(** The inner loop of [Invoke]: the tool calls run in the order given and
    each appends its message. *)
Fixpoint executeToolCalls (a : EmbeddedAgent World) (tcs : list ToolCall)
    (messages : list Message) : M World (list Message) :=
  match tcs with
  | [] => ret messages
  | tc :: rest =>
      r <- executeTool a tc ;;
      executeToolCalls a rest (messages ++ [toolMessage tc r])
  end.

(** The body of the agent loop. *)
Definition iteration (a : EmbeddedAgent World) (input : string)
    (messages : list Message) : M World LoopStep :=
  r <- Complete (llm a) messages (buildToolDefinitions a) ;;
  match r with
  | Err err => ret (Return (Err ("LLM completion failed: " +:+ err)))
  | Ok resp =>
      if (length (resp_ToolCalls resp) =? 0)%nat || resp_Done resp then
        ret (Return (Ok {| Agent := name a; Input := input;
                           Output := resp_Content resp;
                           ar_Success := true; Error := "" |}))
      else
        let messages := messages ++ [{| msg_Role := "assistant";
                                        msg_Content := resp_Content resp;
                                        msg_Name := ""; msg_ToolID := "" |}] in
        messages <- executeToolCalls a (resp_ToolCalls resp) messages ;;
        ret (Continue messages)
  end.

(** The result of [Invoke] when the loop runs out of iterations. *)
Definition maxIterationsResult (a : EmbeddedAgent World) (input : string)
  : AgentResult :=
  {| Agent := name a; Input := input; Output := "Max iterations reached";
     ar_Success := false; Error := "agent loop exceeded maximum iterations" |}.

(** The agent loop with [remaining] iterations to go. Next to the result
    of [Invoke] it gives the number of completions it has requested from
    the LLM client. *)
Fixpoint agentLoop (a : EmbeddedAgent World) (input : string)
    (remaining : nat) (messages : list Message)
  : M World (result AgentResult * nat) :=
  match remaining with
  | O => ret (Ok (maxIterationsResult a input), O)
  | S remaining' =>
      step <- iteration a input messages ;;
      match step with
      | Return r => ret (r, 1%nat)
      | Continue messages' =>
          rn <- agentLoop a input remaining' messages' ;;
          ret (rn.1, S rn.2)
      end
  end.

(** The messages [Invoke] starts from. *)
Definition initialMessages (a : EmbeddedAgent World) (input : string)
  : list Message :=
  [ {| msg_Role := "system"; msg_Content := instructions a;
       msg_Name := ""; msg_ToolID := "" |};
    {| msg_Role := "user"; msg_Content := input;
       msg_Name := ""; msg_ToolID := "" |} ].

(** [EmbeddedAgent.Invoke], with the number of completion rounds. *)
Definition InvokeRounds (a : EmbeddedAgent World) (input : string)
  : M World (result AgentResult * nat) :=
  agentLoop a input maxIterations (initialMessages a input).

(** [EmbeddedAgent.Invoke] runs the agent with the given input and returns
    the result. *)
Definition Invoke (a : EmbeddedAgent World) (input : string)
  : M World (result AgentResult) :=
  rn <- InvokeRounds a input ;; ret rn.1.

(** *** The tools of tools.go behind the [Tool] interface *)

Definition ReadTool (ts : ToolSet) : Tool World :=
  {| tool_Name := "read";
     tool_Description := "Read the contents of a file";
     tool_Execute := fun args =>
       match assertString (args !! "path") with
       | None => ret (Err "path argument required")
       | Some path => fun w =>
           (match ReadFile ts path w with
            | Ok content => Ok (AnyString content)
            | Err err => Err err
            end, w)
       end |}.

Definition WriteTool (ts : ToolSet) : Tool World :=
  {| tool_Name := "write";
     tool_Description := "Write content to a file";
     tool_Execute := fun args =>
       match assertString (args !! "path") with
       | None => ret (Err "path argument required")
       | Some path =>
           match assertString (args !! "content") with
           | None => ret (Err "content argument required")
           | Some content =>
               e <- WriteFile ts path content ;;
               ret (match e with Some err => Err err | None => Ok AnyNil end)
           end
       end |}.

Definition GlobTool (ts : ToolSet) : Tool World :=
  {| tool_Name := "glob";
     tool_Description := "Find files matching a glob pattern";
     tool_Execute := fun args =>
       match assertString (args !! "pattern") with
       | None => ret (Err "pattern argument required")
       | Some pattern => fun w =>
           (match GlobFiles ts pattern w with
            | Ok files => Ok (AnyStrings files)
            | Err err => Err err
            end, w)
       end |}.

Definition GrepTool (ts : ToolSet) : Tool World :=
  {| tool_Name := "grep";
     tool_Description := "Search for a pattern in files";
     tool_Execute := fun args =>
       match assertString (args !! "pattern") with
       | None => ret (Err "pattern argument required")
       | Some pattern => fun w =>
           let filePattern := default "" (assertString (args !! "file_pattern")) in
           (match GrepFiles ts pattern filePattern w with
            | Ok matches => Ok (AnyGrepMatches matches)
            | Err err => Err err
            end, w)
       end |}.

Definition ShellTool (ts : ToolSet) : Tool World :=
  {| tool_Name := "shell";
     tool_Description := "Execute a shell command";
     tool_Execute := fun args =>
       match assertString (args !! "command") with
       | None => ret (Err "command argument required")
       | Some command =>
           r <- RunShell ts command ;;
           ret (match r with
                | Ok res => Ok (AnyCommandResult res)
                | Err err => Err err
                end)
       end |}.

(** [ToolSet.CreateTools] creates [Tool] instances for the tool names. *)
Fixpoint CreateToolsFrom (ts : ToolSet) (names : list string)
    (tools : list (Tool World)) : result (list (Tool World)) :=
  match names with
  | [] => Ok tools
  | name :: rest =>
      if decide (name = "read") then CreateToolsFrom ts rest (tools ++ [ReadTool ts])
      else if decide (name = "write") then CreateToolsFrom ts rest (tools ++ [WriteTool ts])
      else if decide (name = "glob") then CreateToolsFrom ts rest (tools ++ [GlobTool ts])
      else if decide (name = "grep") then CreateToolsFrom ts rest (tools ++ [GrepTool ts])
      else if decide (name = "shell") then CreateToolsFrom ts rest (tools ++ [ShellTool ts])
      else Err ("unknown tool: " +:+ name)
  end.

Definition CreateTools (ts : ToolSet) (names : list string)
  : result (list (Tool World)) :=
  CreateToolsFrom ts names [].

End Agent.

(** ** config.go: the configuration, as far as the runner reads it *)

(** [AgentConfig] defines a single agent. *)
Record AgentConfig := {
  cfg_Name : string;
  cfg_Description : string;
  cfg_Instructions : string;
  cfg_Tools : list string;
  cfg_Model : string;
  cfg_MaxTokens : Z;
}.

(** [MCPConfig] configures the MCP server interface. *)
Record MCPConfig := {
  mcp_Enabled : bool;
  mcp_Transport : string;
  mcp_Port : Z;
  mcp_ServerName : string;
  mcp_ServerVersion : string;
}.

(** [Config]: mode, workspace, agents and MCP settings (the LLM and
    timeout settings are not read by the code below). *)
Record Config := {
  Mode : string;
  Workspace : string;
  Agents : list AgentConfig;
  MCP : MCPConfig;
}.

Section Config.
Context {World : Type} `{Env World} `{Lib}.

Definition validTools : list string := ["read"; "write"; "glob"; "grep"; "shell"].

(** The loop of [Validate] over the agents; [seen] holds the names met so
    far and [i] is the index of the next agent. *)
Fixpoint validateAgents (i : nat) (seen : gset string)
    (agents : list AgentConfig) : option error :=
  match agents with
  | [] => None
  | agent :: rest =>
      if decide (cfg_Name agent = "") then
        Some ("agent " +:+ pretty i +:+ ": name is required")
      else if decide (cfg_Name agent ∈ seen) then
        Some ("duplicate agent name: " +:+ cfg_Name agent)
      else if decide (cfg_Instructions agent = "") then
        Some ("agent " +:+ cfg_Name agent +:+ ": instructions required")
      else
        match list_find (fun tool => tool ∉ validTools) (cfg_Tools agent) with
        | Some (_, tool) =>
            Some ("agent " +:+ cfg_Name agent +:+ ": unknown tool "
                  +:+ strconv_Quote tool)
        | None => validateAgents (S i) ({[cfg_Name agent]} ∪ seen) rest
        end
  end.

(** [Config.Validate] checks the configuration; it also resolves the
    workspace to an absolute path and fills in the HTTP port, so the
    configuration it leaves behind is returned. *)
Definition Validate (c : Config) (w : World) : result Config :=
  if negb (bool_decide (Mode c = "local")) then
    Err ("mode must be 'local', got " +:+ strconv_Quote (Mode c))
  else
    let ws := if decide (Workspace c = "") then "." else Workspace c in
    match Filepath.Abs (os_Getwd w) ws with
    | Err err => Err ("invalid workspace path: " +:+ err)
    | Ok absWorkspace =>
        match os_Stat absWorkspace w with
        | Err err => Err ("workspace does not exist: " +:+ err)
        | Ok info =>
            if negb (fi_IsDir info) then
              Err ("workspace is not a directory: " +:+ absWorkspace)
            else
              match validateAgents 0 ∅ (Agents c) with
              | Some err => Err err
              | None =>
                  let mcp := MCP c in
                  if mcp_Enabled mcp
                     && negb (bool_decide (mcp_Transport mcp = "stdio"))
                     && negb (bool_decide (mcp_Transport mcp = "http")) then
                    Err "mcp.transport must be 'stdio' or 'http'"
                  else
                    let port := if mcp_Enabled mcp
                                   && bool_decide (mcp_Transport mcp = "http")
                                   && (mcp_Port mcp =? 0)%Z
                                then 8080%Z else mcp_Port mcp in
                    Ok {| Mode := Mode c; Workspace := absWorkspace;
                          Agents := Agents c;
                          MCP := {| mcp_Enabled := mcp_Enabled mcp;
                                    mcp_Transport := mcp_Transport mcp;
                                    mcp_Port := port;
                                    mcp_ServerName := mcp_ServerName mcp;
                                    mcp_ServerVersion := mcp_ServerVersion mcp |} |}
              end
        end
    end.

(** [NewEmbeddedAgent] creates a new embedded agent. *)
Definition NewEmbeddedAgent (cfg : AgentConfig) (toolSet : ToolSet)
    (llm : LLMClient World) (w : World) : result (EmbeddedAgent World) :=
  let loaded :=
    if Strings.HasSuffix (cfg_Instructions cfg) ".md" then
      match os_ReadFile (cfg_Instructions cfg) w with
      | Ok content => Ok content
      | Err _ =>
          match os_ReadFile (Filepath.Join [workspace toolSet; cfg_Instructions cfg]) w with
          | Ok content => Ok content
          | Err err => Err ("failed to load instructions: " +:+ err)
          end
      end
    else Ok (cfg_Instructions cfg) in
  match loaded with
  | Err err => Err err
  | Ok instructions =>
      match CreateTools toolSet (cfg_Tools cfg) with
      | Err err => Err ("failed to create tools: " +:+ err)
      | Ok tools =>
          let maxTokens := if (cfg_MaxTokens cfg =? 0)%Z then 4096%Z
                           else cfg_MaxTokens cfg in
          Ok {| name := cfg_Name cfg; description := cfg_Description cfg;
                instructions := instructions; tools := tools; llm := llm;
                maxTokens := maxTokens |}
      end
  end.

End Config.

(** [DefaultConfig] returns a configuration with sensible defaults. *)
Definition DefaultConfig : Config :=
  {| Mode := "local"; Workspace := "."; Agents := [];
     MCP := {| mcp_Enabled := true; mcp_Transport := "stdio"; mcp_Port := 0;
               mcp_ServerName := "agentkit-local";
               mcp_ServerVersion := "1.0.0" |} |}.

(** [Config.GetAgentConfig] returns the configuration of the first agent
    with the given name. *)
Definition GetAgentConfig (c : Config) (name : string) : result AgentConfig :=
  match list_find (fun agent => cfg_Name agent = name) (Agents c) with
  | Some (_, agent) => Ok agent
  | None => Err ("agent not found: " +:+ name)
  end.

(** [Config.ListAgentNames] returns the names of all configured agents. *)
Definition ListAgentNames (c : Config) : list string :=
  map cfg_Name (Agents c).

(** ** runner.go: the runner *)

(** [Runner] orchestrates multiple embedded agents. *)
Record Runner (World : Type) := {
  config : Config;
  agents : gmap string (EmbeddedAgent World);
  toolSet : ToolSet;
  runner_llm : LLMClient World;
}.
Arguments config {World} _.
Arguments agents {World} _.
Arguments toolSet {World} _.
Arguments runner_llm {World} _.

(** [AgentTask] represents a task to be executed by an agent. *)
Record AgentTask := { task_Agent : string; task_Input : string }.

(** A line feed. *)
Definition LF : string := String (Ascii.ascii_of_nat 10) EmptyString.

(** The failed result that a batch records for a task whose invocation
    returned the error [err]. *)
Definition failedResult (t : AgentTask) (err : error) : AgentResult :=
  {| Agent := task_Agent t; Input := task_Input t; Output := "";
     ar_Success := false; Error := err |}.

(** What one pass of the loop of [InvokeSequential] did: the task, the
    input handed to [Invoke], the result appended to the results, and the
    context block before and after. *)
Record SeqStep := {
  step_task : AgentTask;
  step_input : string;
  step_result : AgentResult;
  step_before : string;
  step_after : string;
}.

(** A goroutine of [InvokeParallel] for one task: about to call
    [Runner.Invoke], inside the agent loop, or returned. *)
Inductive Goroutine (World : Type) :=
| GStart
| GLoop (agent : EmbeddedAgent World) (remaining : nat) (messages : list Message)
| GDone.
Arguments GStart {World}.
Arguments GLoop {World} _ _ _.
Arguments GDone {World}.

(** The state that the goroutines of [InvokeParallel] share: the two
    pre-allocated slices, and where each goroutine stands. *)
Record ParState (World : Type) := {
  par_results : list (ptr AgentResult);
  par_errors : list (option error);
  par_pool : list (Goroutine World);
}.
Arguments par_results {World} _.
Arguments par_errors {World} _.
Arguments par_pool {World} _.

Section Runner.
Context {World : Type} `{Env World} `{Lib}.

(** The loop of [NewRunner] that creates and registers the agents. *)
Fixpoint registerAgents (cfgs : list AgentConfig) (toolSet : ToolSet)
    (llm : LLMClient World) (agents : gmap string (EmbeddedAgent World))
    (w : World) : result (gmap string (EmbeddedAgent World)) :=
  match cfgs with
  | [] => Ok agents
  | agentCfg :: rest =>
      match NewEmbeddedAgent agentCfg toolSet llm w with
      | Err err =>
          Err ("failed to create agent " +:+ cfg_Name agentCfg +:+ ": " +:+ err)
      | Ok agent =>
          registerAgents rest toolSet llm (<[cfg_Name agentCfg := agent]> agents) w
      end
  end.

(** [NewRunner] creates a new agent runner. *)
Definition NewRunner (cfg : Config) (llm : LLMClient World) (w : World)
  : result (Runner World) :=
  match Validate cfg w with
  | Err err => Err ("invalid config: " +:+ err)
  | Ok cfg =>
      let toolSet := NewToolSet (Workspace cfg) in
      match registerAgents (Agents cfg) toolSet llm ∅ w with
      | Err err => Err err
      | Ok agents =>
          Ok {| config := cfg; agents := agents; toolSet := toolSet;
                runner_llm := llm |}
      end
  end.

(** What [Runner.Invoke] returns once [agent.Invoke] has returned [res]. *)
Definition invoked (res : result AgentResult) : result AgentResult :=
  match res with
  | Err err => Err ("agent invocation failed: " +:+ err)
  | Ok result => Ok result
  end.

(** [Runner.Invoke] runs a single agent synchronously. *)
Definition Runner_Invoke (r : Runner World) (agentName input : string)
  : M World (result AgentResult) :=
  match agents r !! agentName with
  | None => ret (Err ("agent not found: " +:+ agentName))
  | Some agent =>
      res <- Invoke agent input ;;
      ret (invoked res)
  end.

(** *** [InvokeSequential] *)

(** The input of a task that comes with a context block. *)
Definition withContext (accumulated input : string) : string :=
  "Previous context:" +:+ LF +:+ accumulated +:+ LF +:+ LF
    +:+ "Current task:" +:+ LF +:+ input.


(** The input that [InvokeSequential] hands to task number [i]. *)
Definition sequentialInput (contextBuilder : string) (i : nat)
    (task : AgentTask) : string :=
  if negb (bool_decide (contextBuilder = "")) && (0 <? i)%nat then
    withContext contextBuilder (task_Input task)
  else task_Input task.

(** The text that a successful result adds to the context block. *)
Definition contextEntry (task : AgentTask) (result : AgentResult) : string :=
  LF +:+ "[" +:+ task_Agent task +:+ "]: " +:+ Output result +:+ LF.

(** The context block that a run of passes builds up from the empty one:
    the entries of the successful passes, in order. *)
Fixpoint contextOf (steps : list SeqStep) : string :=
  match steps with
  | [] => ""
  | s :: rest =>
      (if ar_Success (step_result s)
       then contextEntry (step_task s) (step_result s) else "")
      +:+ contextOf rest
  end.

(** The loop of [InvokeSequential], from task number [i] on. *)
Fixpoint sequentialLoop (r : Runner World) (i : nat) (tasks : list AgentTask)
    (contextBuilder : string) : M World (list SeqStep) :=
  match tasks with
  | [] => ret []
  | task :: rest =>
      let input := sequentialInput contextBuilder i task in
      res <- Runner_Invoke r (task_Agent task) input ;;
      let result := match res with
                    | Err err => failedResult task err
                    | Ok result => result
                    end in
      let contextBuilder' :=
        if ar_Success result
        then contextBuilder +:+ contextEntry task result
        else contextBuilder in
      steps <- sequentialLoop r (S i) rest contextBuilder' ;;
      ret ({| step_task := task; step_input := input; step_result := result;
              step_before := contextBuilder;
              step_after := contextBuilder' |} :: steps)
  end.

(** [InvokeSequential] with what each pass of its loop did. *)
Definition sequentialSteps (r : Runner World) (tasks : list AgentTask)
  : M World (list SeqStep) :=
  sequentialLoop r 0 tasks "".

(** [Runner.InvokeSequential] runs multiple agents in sequence, passing
    context between them. *)
Definition InvokeSequential (r : Runner World) (tasks : list AgentTask)
  : M World (slice (ptr AgentResult) * option error) :=
  if (length tasks =? 0)%nat then ret (None, None)
  else
    steps <- sequentialSteps r tasks ;;
    ret (Some (map (fun s => Some (step_result s)) steps), None).

(** *** [InvokeParallel] *)

(** Goroutine [idx] returns from [Runner.Invoke] with [res] and fills its
    slot. *)
Definition finish (idx : nat) (t : AgentTask) (res : result AgentResult)
    (st : ParState World) : ParState World :=
  match res with
  | Err err =>
      {| par_results := <[idx := Some (failedResult t err)]> (par_results st);
         par_errors := <[idx := Some err]> (par_errors st);
         par_pool := <[idx := GDone]> (par_pool st) |}
  | Ok result =>
      {| par_results := <[idx := Some result]> (par_results st);
         par_errors := par_errors st;
         par_pool := <[idx := GDone]> (par_pool st) |}
  end.

(** Goroutine [idx], standing at [g], runs until its next scheduling
    point: the lookup of the agent, or one pass through the agent loop. *)
Definition goStep (r : Runner World) (idx : nat) (t : AgentTask)
    (g : Goroutine World) (st : ParState World) : M World (ParState World) :=
  match g with
  | GStart =>
      match agents r !! task_Agent t with
      | None => ret (finish idx t (Err ("agent not found: " +:+ task_Agent t)) st)
      | Some agent =>
          ret {| par_results := par_results st; par_errors := par_errors st;
                 par_pool := <[idx := GLoop agent maxIterations
                                        (initialMessages agent (task_Input t))]>
                               (par_pool st) |}
      end
  | GLoop agent O _ =>
      ret (finish idx t (invoked (Ok (maxIterationsResult agent (task_Input t)))) st)
  | GLoop agent (S remaining) messages =>
      step <- iteration agent (task_Input t) messages ;;
      match step with
      | Return res => ret (finish idx t (invoked res) st)
      | Continue messages' =>
          ret {| par_results := par_results st; par_errors := par_errors st;
                 par_pool := <[idx := GLoop agent remaining messages']>
                               (par_pool st) |}
      end
  | GDone => ret st
  end.

(** Goroutine [idx] alone, scheduled until it returns. *)
Fixpoint runAlone (r : Runner World) (idx : nat) (t : AgentTask) (fuel : nat)
    (g : Goroutine World) (st : ParState World) : M World (ParState World) :=
  match fuel with
  | O => ret st
  | S fuel' =>
      match g with
      | GDone => ret st
      | _ =>
          st' <- goStep r idx t g st ;;
          match par_pool st' !! idx with
          | Some g' => runAlone r idx t fuel' g' st'
          | None => ret st'
          end
      end
  end.

(** The goroutines that have not returned yet, by index. *)
Fixpoint runnableFrom (idx : nat) (pool : list (Goroutine World)) : list nat :=
  match pool with
  | [] => []
  | GDone :: pool' => runnableFrom (S idx) pool'
  | _ :: pool' => idx :: runnableFrom (S idx) pool'
  end.

Definition runnable (pool : list (Goroutine World)) : list nat :=
  runnableFrom 0 pool.

(** The goroutines run, one scheduling step after the other, until all of
    them have returned and [wg.Wait()] lets [InvokeParallel] go on; the
    scheduler picks the goroutine of each step among the runnable ones.
    [fuel] bounds the number of steps. *)
Fixpoint runGoroutines (r : Runner World) (tasks : list AgentTask)
    (fuel : nat) (st : ParState World) : M World (ParState World) :=
  match fuel with
  | O => ret st
  | S fuel' =>
      match runnable (par_pool st) with
      | [] => ret st
      | (idx0 :: _) as rs =>
          n <- sched_pick ;;
          let idx := nth (n mod length rs) rs idx0 in
          match tasks !! idx, par_pool st !! idx with
          | Some t, Some g =>
              st' <- goStep r idx t g st ;;
              runGoroutines r tasks fuel' st'
          | _, _ => ret st
          end
      end
  end.

(** The steps one goroutine takes at most: the lookup, the passes of the
    agent loop, and the return after the last pass. *)
Definition goroutineSteps : nat := maxIterations + 2.

(** The state in which [InvokeParallel] starts its goroutines: both slices
    allocated with [len(tasks)] nil entries. *)
Definition parInit (tasks : list AgentTask) : ParState World :=
  {| par_results := replicate (length tasks) None;
     par_errors := replicate (length tasks) None;
     par_pool := replicate (length tasks) GStart |}.

(** [InvokeParallel] with the state its goroutines leave behind. *)
Definition parallelState (r : Runner World) (tasks : list AgentTask)
  : M World (ParState World) :=
  runGoroutines r tasks (length tasks * goroutineSteps) (parInit tasks).

(** [Runner.InvokeParallel] runs multiple agents concurrently. *)
Definition InvokeParallel (r : Runner World) (tasks : list AgentTask)
  : M World (slice (ptr AgentResult) * option error) :=
  if (length tasks =? 0)%nat then ret (None, None)
  else
    st <- parallelState r tasks ;;
    ret (Some (par_results st), None).

(** [Runner.ListAgents] returns the names of all registered agents, in
    the order of a [range] over the map. *)
Definition ListAgents (r : Runner World) : M World (list string) :=
  map_order (map fst (map_to_list (agents r))).

(** [AgentInfo] holds basic information about an agent. *)
Record AgentInfo := { info_Name : string; info_Description : string }.

(** [Runner.ListAgentInfo]. *)
Definition ListAgentInfo (r : Runner World) : M World (list AgentInfo) :=
  names <- map_order (map fst (map_to_list (agents r))) ;;
  ret (omap (fun k => match agents r !! k with
                      | Some agent => Some {| info_Name := name agent;
                                              info_Description := description agent |}
                      | None => None
                      end) names).

End Runner.

(** [OrchestratedTask] represents a high-level task that may involve
    multiple agents. *)
Record OrchestratedTask := {
  ot_Name : string;
  ot_Agents : list string;
  ot_Input : string;
  ot_Mode : string;
}.

(** [OrchestratedResult] holds the results of an orchestrated task. *)
Record OrchestratedResult := {
  or_Task : string;
  or_Mode : string;
  or_Results : slice (ptr AgentResult);
}.

(** [truncate] truncates a string to the given length. With a negative
    [maxLen] the slice expression [s[:maxLen]] panics, which is [None]. *)
Definition truncate (s : string) (maxLen : Z) : option string :=
  if (Z.of_nat (String.length s) <=? maxLen)%Z then Some s
  else if (maxLen <? 0)%Z then None
  else Some (String.substring 0 (Z.to_nat maxLen) s +:+ "...").

(** The loop of [AllSuccessful]; it reads [result.Success] through the
    pointer, so that a nil entry is a panic, which is [None]. *)
Fixpoint allSuccessful (results : list (ptr AgentResult)) : option bool :=
  match results with
  | [] => Some true
  | None :: _ => None
  | Some result :: rest =>
      if negb (ar_Success result) then Some false else allSuccessful rest
  end.

(** [OrchestratedResult.AllSuccessful] returns true if all agent results
    were successful. *)
Definition AllSuccessful (r : OrchestratedResult) : option bool :=
  allSuccessful (default [] (or_Results r)).

(** The loop of [Summary], with the summary built so far. *)
Fixpoint summaryLines (results : list (ptr AgentResult)) (summary : string)
  : option string :=
  match results with
  | [] => Some summary
  | None :: _ => None
  | Some result :: rest =>
      let status := if negb (ar_Success result) then "FAILED" else "SUCCESS" in
      output ← truncate (Output result) 200;
      summaryLines rest
        (summary +:+ "[" +:+ Agent result +:+ "] " +:+ status +:+ ": "
           +:+ output +:+ LF)
  end.

(** [OrchestratedResult.Summary] returns a summary of all results. *)
Definition Summary (r : OrchestratedResult) : option string :=
  summaryLines (default [] (or_Results r)) "".

Section Orchestrated.
Context {World : Type} `{Env World} `{Lib}.

(** [Runner.GetAgent] returns an agent by name; the second component of
    the Go pair is whether the option holds an agent. *)
Definition GetAgent (r : Runner World) (name : string)
  : option (EmbeddedAgent World) :=
  agents r !! name.

(** [Runner.GetAgentInfo] returns information about an agent. *)
Definition GetAgentInfo (r : Runner World) (agentName : string)
  : result AgentInfo :=
  match agents r !! agentName with
  | None => Err ("agent not found: " +:+ agentName)
  | Some agent => Ok {| info_Name := name agent;
                        info_Description := description agent |}
  end.

(** [Runner.Workspace] returns the workspace path. *)
Definition Runner_Workspace (r : Runner World) : string :=
  Workspace (config r).

(** What [ExecuteOrchestrated] makes of the pair that a batch returns. *)
Definition aggregate (task : OrchestratedTask)
    (res : slice (ptr AgentResult) * option error)
  : result OrchestratedResult :=
  match res with
  | (_, Some err) => Err err
  | (results, None) =>
      Ok {| or_Task := ot_Name task; or_Mode := ot_Mode task;
            or_Results := results |}
  end.

(** [Runner.ExecuteOrchestrated] runs an orchestrated task involving
    multiple agents. *)
Definition ExecuteOrchestrated (r : Runner World) (task : OrchestratedTask)
  : M World (result OrchestratedResult) :=
  let tasks := map (fun agentName => {| task_Agent := agentName;
                                        task_Input := ot_Input task |})
                   (ot_Agents task) in
  if decide (ot_Mode task = "parallel") then
    res <- InvokeParallel r tasks ;; ret (aggregate task res)
  else if decide (ot_Mode task = "sequential") then
    res <- InvokeSequential r tasks ;; ret (aggregate task res)
  else ret (Err ("unknown mode: " +:+ ot_Mode task)).

End Orchestrated.

(** ** mcp/protocol.go: JSON-RPC 2.0 and MCP types *)

(** A [json.RawMessage]: the text of a JSON value, or nil. *)
Abbreviation RawMessage := (option string) (only parsing).

(** [Request] represents a JSON-RPC 2.0 request. *)
Record Request := {
  req_JSONRPC : string;
  req_ID : RawMessage;
  req_Method : string;
  req_Params : RawMessage;
}.

(** [ErrorResponse] represents a JSON-RPC 2.0 error; [er_Data] is nil or
    the error handed to [errorResponse]. *)
Record ErrorResponse := {
  er_Code : Z;
  er_Message : string;
  er_Data : option error;
}.

(** Standard JSON-RPC error codes. *)
Definition ErrParseError : Z := -32700.
Definition ErrInvalidRequest : Z := -32600.
Definition ErrMethodNotFound : Z := -32601.
Definition ErrInvalidParams : Z := -32602.
Definition ErrInternalError : Z := -32603.

Record ServerInfo := { si_Name : string; si_Version : string }.

Record ToolsCapability := { tools_ListChanged : bool }.
Record ResourcesCapability := { res_Subscribe : bool; res_ListChanged : bool }.
Record PromptsCapability := { prompts_ListChanged : bool }.

Record Capabilities := {
  cap_Tools : ptr ToolsCapability;
  cap_Resources : ptr ResourcesCapability;
  cap_Prompts : ptr PromptsCapability;
}.

Record InitializeResult := {
  init_ProtocolVersion : string;
  init_Capabilities : Capabilities;
  init_ServerInfo : ServerInfo;
}.

(** [Property] represents a JSON Schema property. *)
Record Property := {
  prop_Type : string;
  prop_Description : string;
  prop_Enum : slice string;
}.

(** [InputSchema] represents the JSON Schema for tool input. *)
Record InputSchema := {
  schema_Type : string;
  schema_Properties : gmap string Property;
  schema_Required : slice string;
}.

(** [ToolInfo] represents a tool definition. *)
Record ToolInfo := {
  ti_Name : string;
  ti_Description : string;
  ti_InputSchema : InputSchema;
}.

(** [CallToolParams] represents the tools/call request parameters. *)
Record CallToolParams := {
  params_Name : string;
  params_Arguments : gmap string any;
}.

(** [ContentBlock] represents a content block in a tool result. *)
Record ContentBlock := {
  cb_Type : string;
  cb_Text : string;
  cb_Data : string;
  cb_MimeType : string;
}.

(** [CallToolResult] represents the tools/call response. *)
Record CallToolResult := {
  ctr_Content : list ContentBlock;
  ctr_IsError : bool;
}.

(** The values that the server puts into [Response.Result]. *)
Inductive ResultValue :=
| ResInitialize (r : InitializeResult)
| ResListTools (tools : list ToolInfo)
| ResCallTool (r : CallToolResult)
| ResListResources
| ResListPrompts.

(** [Response] represents a JSON-RPC 2.0 response. *)
Record Response := {
  rsp_JSONRPC : string;
  rsp_ID : RawMessage;
  rsp_Result : option ResultValue;
  rsp_Error : ptr ErrorResponse;
}.

(** [NewTextContent] creates a text content block. *)
Definition NewTextContent (text : string) : ContentBlock :=
  {| cb_Type := "text"; cb_Text := text; cb_Data := ""; cb_MimeType := "" |}.

(** [NewErrorContent] creates an error text content block. *)
Definition NewErrorContent (err : error) : ContentBlock :=
  {| cb_Type := "text"; cb_Text := "Error: " +:+ err;
     cb_Data := ""; cb_MimeType := "" |}.

(** [json.Unmarshal] into a [Request] and into [CallToolParams], taken as
    given. *)
Class Codec := {
  json_UnmarshalRequest : string -> result Request;
  json_UnmarshalParams : RawMessage -> result CallToolParams;
}.

(** ** mcp/server.go: the MCP server *)

Definition ProtocolVersion : string := "2024-11-05".

(** [Server] is an MCP server that exposes agent teams to CLI assistants. *)
Record Server (World : Type) := {
  runner : Runner World;
  serverInfo : ServerInfo;
  initialized : bool;
}.
Arguments runner {World} _.
Arguments serverInfo {World} _.
Arguments initialized {World} _.

(** What [bufio.Scanner] delivers to the read loop: the lines that the
    successive calls of [Scan] yield, and [scanner.Err()] at the end (a
    read error, or the error of a line that exceeds the 10 MB limit of the
    buffer, after which [Scan] yields no more lines). *)
Record Scanner := { scan_lines : list string; scan_Err : option error }.

Section MCP.
Context {World : Type} `{Env World} `{Lib} `{Codec}.

(** [NewServer] creates a new MCP server. *)
Definition NewServer (runner : Runner World) (name version : string)
  : Server World :=
  {| runner := runner;
     serverInfo := {| si_Name := name; si_Version := version |};
     initialized := false |}.

(** [Server.errorResponse]. *)
Definition errorResponse (id : RawMessage) (code : Z) (message : string)
    (data : option error) : Response :=
  {| rsp_JSONRPC := "2.0"; rsp_ID := id; rsp_Result := None;
     rsp_Error := Some {| er_Code := code; er_Message := message;
                          er_Data := data |} |}.

Definition okResponse (id : RawMessage) (result : ResultValue) : Response :=
  {| rsp_JSONRPC := "2.0"; rsp_ID := id; rsp_Result := Some result;
     rsp_Error := None |}.

(** [Server.handleInitialize]. *)
Definition handleInitialize (s : Server World) (req : Request)
  : Server World * Response :=
  ({| runner := runner s; serverInfo := serverInfo s; initialized := true |},
   okResponse (req_ID req)
     (ResInitialize
        {| init_ProtocolVersion := ProtocolVersion;
           init_Capabilities :=
             {| cap_Tools := Some {| tools_ListChanged := false |};
                cap_Resources := None; cap_Prompts := None |};
           init_ServerInfo := serverInfo s |})).

Definition stringProp (desc : string) : Property :=
  {| prop_Type := "string"; prop_Description := desc; prop_Enum := None |}.

(** The catalog of tools/list; [agentNames] is [s.runner.ListAgents()]. *)
Definition toolCatalog (agentNames : list string) : list ToolInfo :=
  [ {| ti_Name := "invoke_agent";
       ti_Description := "Invoke a specific agent with an input prompt";
       ti_InputSchema :=
         {| schema_Type := "object";
            schema_Properties :=
              {[ "agent" := {| prop_Type := "string";
                               prop_Description := "Name of the agent to invoke";
                               prop_Enum := Some agentNames |};
                 "input" := stringProp "Input prompt for the agent" ]};
            schema_Required := Some ["agent"; "input"] |} |};
    {| ti_Name := "invoke_parallel";
       ti_Description := "Invoke multiple agents in parallel with the same input";
       ti_InputSchema :=
         {| schema_Type := "object";
            schema_Properties :=
              {[ "agents" := stringProp "Comma-separated list of agent names";
                 "input" := stringProp "Input prompt for all agents" ]};
            schema_Required := Some ["agents"; "input"] |} |};
    {| ti_Name := "list_agents";
       ti_Description := "List all available agents and their descriptions";
       ti_InputSchema :=
         {| schema_Type := "object"; schema_Properties := ∅;
            schema_Required := None |} |};
    {| ti_Name := "read_file";
       ti_Description := "Read the contents of a file in the workspace";
       ti_InputSchema :=
         {| schema_Type := "object";
            schema_Properties :=
              {[ "path" := stringProp "Path to the file (relative to workspace)" ]};
            schema_Required := Some ["path"] |} |};
    {| ti_Name := "glob_files";
       ti_Description := "Find files matching a glob pattern";
       ti_InputSchema :=
         {| schema_Type := "object";
            schema_Properties :=
              {[ "pattern" := stringProp "Glob pattern (e.g., '**/*.go')" ]};
            schema_Required := Some ["pattern"] |} |};
    {| ti_Name := "grep_files";
       ti_Description := "Search for a pattern in files";
       ti_InputSchema :=
         {| schema_Type := "object";
            schema_Properties :=
              {[ "pattern" := stringProp "Regex pattern to search for";
                 "file_pattern" := stringProp "Optional file name pattern filter" ]};
            schema_Required := Some ["pattern"] |} |};
    {| ti_Name := "run_command";
       ti_Description := "Execute a shell command in the workspace";
       ti_InputSchema :=
         {| schema_Type := "object";
            schema_Properties :=
              {[ "command" := stringProp "Shell command to execute" ]};
            schema_Required := Some ["command"] |} |} ].

(** [Server.handleToolsList] returns the list of available tools. *)
Definition handleToolsList (s : Server World) (req : Request)
  : M World Response :=
  agentNames <- ListAgents (runner s) ;;
  ret (okResponse (req_ID req) (ResListTools (toolCatalog agentNames))).

(** *** Tool handlers *)

Definition errorResult (err : error) : CallToolResult :=
  {| ctr_Content := [NewErrorContent err]; ctr_IsError := true |}.

Definition stringArg (args : gmap string any) (key : string) : string :=
  default "" (assertString (args !! key)).

Definition callInvokeAgent (s : Server World) (args : gmap string any)
  : M World CallToolResult :=
  let agent := stringArg args "agent" in
  let input := stringArg args "input" in
  if bool_decide (agent = "") || bool_decide (input = "") then
    ret (errorResult "agent and input are required")
  else
    res <- Runner_Invoke (runner s) agent input ;;
    match res with
    | Err err => ret (errorResult err)
    | Ok result =>
        ret {| ctr_Content := [NewTextContent (Output result)];
               ctr_IsError := negb (ar_Success result) |}
    end.

(** The loop of [callInvokeParallel] that formats the results. A nil
    entry, which [InvokeParallel] never leaves, is passed over. *)
Fixpoint formatResults (results : list (ptr AgentResult)) (output : string)
    (hasError : bool) : string * bool :=
  match results with
  | [] => (output, hasError)
  | None :: rest => formatResults rest output hasError
  | Some result :: rest =>
      let status := if ar_Success result then "SUCCESS" else "FAILED" in
      formatResults rest
        (output +:+ "## " +:+ Agent result +:+ " [" +:+ status +:+ "]"
           +:+ LF +:+ LF +:+ Output result +:+ LF +:+ LF)
        (hasError || negb (ar_Success result))
  end.

Definition callInvokeParallel (s : Server World) (args : gmap string any)
  : M World CallToolResult :=
  let agentsStr := stringArg args "agents" in
  let input := stringArg args "input" in
  if bool_decide (agentsStr = "") || bool_decide (input = "") then
    ret (errorResult "agents and input are required")
  else
    let agentNames := Strings.Split agentsStr ","%char in
    let tasks := map (fun name => {| task_Agent := strings_TrimSpace name;
                                     task_Input := input |}) agentNames in
    res <- InvokeParallel (runner s) tasks ;;
    match res with
    | (_, Some err) => ret (errorResult err)
    | (results, None) =>
        let '(output, hasError) := formatResults (default [] results) "" false in
        ret {| ctr_Content := [NewTextContent output]; ctr_IsError := hasError |}
    end.

Definition callListAgents (s : Server World) : M World CallToolResult :=
  infos <- ListAgentInfo (runner s) ;;
  let output :=
    fold_left (fun out info => out +:+ "## " +:+ info_Name info +:+ LF
                                   +:+ info_Description info +:+ LF +:+ LF)
              infos ("# Available Agents" +:+ LF +:+ LF) in
  ret {| ctr_Content := [NewTextContent output]; ctr_IsError := false |}.

Definition callReadFile (s : Server World) (args : gmap string any)
  : M World CallToolResult :=
  let path := stringArg args "path" in
  if bool_decide (path = "") then ret (errorResult "path is required")
  else fun w =>
    (match ReadFile (toolSet (runner s)) path w with
     | Err err => errorResult err
     | Ok content =>
         {| ctr_Content := [NewTextContent content]; ctr_IsError := false |}
     end, w).

Definition callGlobFiles (s : Server World) (args : gmap string any)
  : M World CallToolResult :=
  let pattern := stringArg args "pattern" in
  if bool_decide (pattern = "") then ret (errorResult "pattern is required")
  else fun w =>
    (match GlobFiles (toolSet (runner s)) pattern w with
     | Err err => errorResult err
     | Ok files =>
         let output := Strings.Join (default [] files) LF in
         let output := if decide (output = "") then "No files found" else output in
         {| ctr_Content := [NewTextContent output]; ctr_IsError := false |}
     end, w).

Definition callGrepFiles (s : Server World) (args : gmap string any)
  : M World CallToolResult :=
  let pattern := stringArg args "pattern" in
  let filePattern := stringArg args "file_pattern" in
  if bool_decide (pattern = "") then ret (errorResult "pattern is required")
  else fun w =>
    (match GrepFiles (toolSet (runner s)) pattern filePattern w with
     | Err err => errorResult err
     | Ok matches =>
         let output :=
           fold_left (fun out m => out +:+ gm_File m +:+ ":" +:+ pretty (gm_Line m)
                                       +:+ ": " +:+ gm_Content m +:+ LF)
                     (default [] matches) "" in
         let output := if decide (output = "") then "No matches found" else output in
         {| ctr_Content := [NewTextContent output]; ctr_IsError := false |}
     end, w).

Definition callRunCommand (s : Server World) (args : gmap string any)
  : M World CallToolResult :=
  let command := stringArg args "command" in
  if bool_decide (command = "") then ret (errorResult "command is required")
  else
    res <- RunShell (toolSet (runner s)) command ;;
    match res with
    | Err err => ret (errorResult err)
    | Ok result =>
        let output := cr_Stdout result in
        let output :=
          if decide (cr_Stderr result = "") then output
          else (if decide (output = "") then output else output +:+ LF)
                 +:+ "STDERR:" +:+ LF +:+ cr_Stderr result in
        ret {| ctr_Content := [NewTextContent output];
               ctr_IsError := negb (Success result) |}
    end.

(** [Server.handleToolsCall] handles a tool invocation. *)
Definition handleToolsCall (s : Server World) (req : Request)
  : M World Response :=
  match json_UnmarshalParams (req_Params req) with
  | Err err =>
      ret (errorResponse (req_ID req) ErrInvalidParams "Invalid params" (Some err))
  | Ok params =>
      let args := params_Arguments params in
      let name := params_Name params in
      let respond (call : M World CallToolResult) : M World Response :=
        result <- call ;; ret (okResponse (req_ID req) (ResCallTool result)) in
      if decide (name = "invoke_agent") then respond (callInvokeAgent s args)
      else if decide (name = "invoke_parallel") then respond (callInvokeParallel s args)
      else if decide (name = "list_agents") then respond (callListAgents s)
      else if decide (name = "read_file") then respond (callReadFile s args)
      else if decide (name = "glob_files") then respond (callGlobFiles s args)
      else if decide (name = "grep_files") then respond (callGrepFiles s args)
      else if decide (name = "run_command") then respond (callRunCommand s args)
      else ret (errorResponse (req_ID req) ErrMethodNotFound "Unknown tool" None)
  end.

(** [Server.handleRequest] processes a single MCP request; the response is
    nil for a notification. *)
Definition handleRequest (s : Server World) (req : Request)
  : M World (Server World * ptr Response) :=
  let method := req_Method req in
  let respond (m : M World Response) : M World (Server World * ptr Response) :=
    resp <- m ;; ret (s, Some resp) in
  if decide (method = "initialize") then
    let '(s', resp) := handleInitialize s req in ret (s', Some resp)
  else if decide (method = "initialized") then ret (s, None)
  else if decide (method = "tools/list") then respond (handleToolsList s req)
  else if decide (method = "tools/call") then respond (handleToolsCall s req)
  else if decide (method = "resources/list") then
    ret (s, Some (okResponse (req_ID req) ResListResources))
  else if decide (method = "resources/read") then
    ret (s, Some (errorResponse (req_ID req) ErrMethodNotFound
                    "Resources not supported" None))
  else if decide (method = "prompts/list") then
    ret (s, Some (okResponse (req_ID req) ResListPrompts))
  else if decide (method = "prompts/get") then
    ret (s, Some (errorResponse (req_ID req) ErrMethodNotFound
                    "Prompts not supported" None))
  else
    ret (s, Some (errorResponse (req_ID req) ErrMethodNotFound
                    "Method not found" None)).

(** What [serve] has done when it returns: the server it leaves behind,
    the responses it has written, in order, and the error it returns. *)
Record Served := {
  served_server : Server World;
  served_out : list Response;
  served_err : option error;
}.

(** The read loop of [Server.serve] over the lines still to come; [out]
    holds the responses written so far. Each pass first polls the request
    context, then skips an empty line, answers a line that does not
    unmarshal with a parse error under a nil id, and otherwise writes the
    response of [handleRequest], if there is one. *)
Fixpoint serveLoop (s : Server World) (lines : list string)
    (scanErr : option error) (out : list Response) : M World Served :=
  match lines with
  | [] => ret {| served_server := s; served_out := out; served_err := scanErr |}
  | line :: rest =>
      cancelled <- ctx_Err ;;
      match cancelled with
      | Some err =>
          ret {| served_server := s; served_out := out; served_err := Some err |}
      | None =>
          if decide (line = "") then serveLoop s rest scanErr out
          else
            match json_UnmarshalRequest line with
            | Err err =>
                serveLoop s rest scanErr
                  (out ++ [errorResponse None ErrParseError "Parse error" (Some err)])
            | Ok req =>
                sr <- handleRequest s req ;;
                match sr.2 with
                | Some resp => serveLoop sr.1 rest scanErr (out ++ [resp])
                | None => serveLoop sr.1 rest scanErr out
                end
            end
      end
  end.

(** [Server.serve] handles the MCP protocol over the given reader and
    writer. *)
Definition serve (s : Server World) (input : Scanner) : M World Served :=
  serveLoop s (scan_lines input) (scan_Err input) [].

End MCP.

(** *** What [writeResponse] writes

    [json.Marshal] writes a struct as an object with one member per field,
    in the order of the fields, under the name in the field's tag; a field
    tagged [omitempty] is left out when it is empty: a [json.RawMessage] of
    length 0, a nil interface, a nil pointer. How the values inside are
    written is taken as given: a string, a raw message that is not empty
    (checked and compacted, which fails on text that is not JSON), a
    result, and the error value that [writeError] passes as [Data]. *)
Class Encoder := {
  json_MarshalString : string -> string;
  json_MarshalRaw : string -> result string;
  json_MarshalResult : ResultValue -> result string;
  json_MarshalData : error -> result string;
}.

Section Wire.
Context `{Encoder}.

(** A double quote. *)
Definition quoteMark : string := String (Ascii.ascii_of_nat 34) EmptyString.

(** A member of an object, and an object, as [json.Marshal] writes them:
    no space anywhere. *)
Definition member (kv : string * string) : string :=
  quoteMark +:+ kv.1 +:+ quoteMark +:+ ":" +:+ kv.2.

Definition object (members : list (string * string)) : string :=
  "{" +:+ Strings.Join (map member members) "," +:+ "}".

(** The members of an [ErrorResponse]: [code], [message], and [data]
    ([omitempty]) unless it is nil. *)
Definition errorMembers (e : ErrorResponse)
  : result (list (string * string)) :=
  let fixed := [("code", pretty (er_Code e));
                ("message", json_MarshalString (er_Message e))] in
  match er_Data e with
  | None => Ok fixed
  | Some data =>
      match json_MarshalData data with
      | Err err => Err err
      | Ok text => Ok (fixed ++ [("data", text)])
      end
  end.

(** The member [id] ([omitempty]) of a [Response]. *)
Definition idMember (id : RawMessage) : result (list (string * string)) :=
  match id with
  | None => Ok []
  | Some raw =>
      if decide (raw = "") then Ok []
      else match json_MarshalRaw raw with
           | Err err => Err err
           | Ok text => Ok [("id", text)]
           end
  end.

(** The member [result] ([omitempty]) of a [Response]. *)
Definition resultMember (r : option ResultValue)
  : result (list (string * string)) :=
  match r with
  | None => Ok []
  | Some v =>
      match json_MarshalResult v with
      | Err err => Err err
      | Ok text => Ok [("result", text)]
      end
  end.

(** The member [error] ([omitempty]) of a [Response]. *)
Definition errorMember (e : ptr ErrorResponse)
  : result (list (string * string)) :=
  match e with
  | None => Ok []
  | Some e =>
      match errorMembers e with
      | Err err => Err err
      | Ok members => Ok [("error", object members)]
      end
  end.

(** The members of a [Response], in the order of the fields of the
    struct: [jsonrpc], [id], [result], [error]. *)
Definition responseMembers (resp : Response)
  : result (list (string * string)) :=
  match idMember (rsp_ID resp) with
  | Err err => Err err
  | Ok id =>
      match resultMember (rsp_Result resp) with
      | Err err => Err err
      | Ok res =>
          match errorMember (rsp_Error resp) with
          | Err err => Err err
          | Ok er =>
              Ok ([("jsonrpc", json_MarshalString (rsp_JSONRPC resp))]
                  ++ id ++ res ++ er)
          end
      end
  end.

(** [json.Marshal] of a [Response]. *)
Definition json_MarshalResponse (resp : Response) : result string :=
  match responseMembers resp with
  | Err err => Err err
  | Ok members => Ok (object members)
  end.

(** [Server.writeResponse]: the marshalled response goes to the writer as
    one line; [written] holds the lines written so far. A response that
    does not marshal writes nothing and gives the error. *)
Definition writeResponse (written : list string) (resp : Response)
  : list string * option error :=
  match json_MarshalResponse resp with
  | Err err => (written, Some err)
  | Ok data => (written ++ [data], None)
  end.

(** [Server.writeError]: the error of [writeResponse] is dropped. *)
Definition writeError (written : list string) (id : RawMessage) (code : Z)
    (message : string) (data : option error) : list string :=
  (writeResponse written (errorResponse id code message data)).1.

End Wire.

(** ** A small world to run the definitions in

    A file system of directories and regular files under absolute paths,
    a few commands with known outcomes, a script of scheduler choices, and
    a count of the completions that the LLM clients below have served. *)

Module Example.

Inductive Node :=
| Dir
| File (content : string).

Record World := {
  files : gmap string Node;
  picks : list nat;
  completions : nat;
}.

(** A double quote. *)
Definition DQ : string := String (Ascii.ascii_of_nat 34) EmptyString.

Definition stat (p : string) (w : World) : result FileInfo :=
  match files w !! p with
  | Some Dir => Ok {| fi_IsDir := true; fi_Size := 4096 |}
  | Some (File content) =>
      Ok {| fi_IsDir := false; fi_Size := Z.of_nat (String.length content) |}
  | None => Err ("stat " +:+ p +:+ ": no such file or directory")
  end.

Definition readFile (p : string) (w : World) : result string :=
  match files w !! p with
  | Some (File content) => Ok content
  | Some Dir => Err ("read " +:+ p +:+ ": is a directory")
  | None => Err ("open " +:+ p +:+ ": no such file or directory")
  end.

(** [sh -c "exit 3"] exits with status 3, [sh -c "echo hi"] prints a line,
    any other [sh] command succeeds silently, and no other program
    exists. *)
Definition run (cmd : Cmd) : RunOutcome :=
  if decide (cmd_Path cmd = "sh") then
    if decide (cmd_Args cmd = ["-c"; "exit 3"]) then
      {| run_stdout := ""; run_stderr := ""; run_err := RunExitError 3 |}
    else if decide (cmd_Args cmd = ["-c"; "echo hi"]) then
      {| run_stdout := "hi" +:+ LF; run_stderr := ""; run_err := RunNil |}
    else {| run_stdout := ""; run_stderr := ""; run_err := RunNil |}
  else {| run_stdout := ""; run_stderr := "";
          run_err := RunFailed ("exec: " +:+ DQ +:+ cmd_Path cmd +:+ DQ
                                +:+ ": executable file not found in $PATH") |}.

Definition pick (w : World) : nat * World :=
  match picks w with
  | [] => (0, w)
  | n :: rest =>
      (n, {| files := files w; picks := rest; completions := completions w |})
  end.

(** The environment: the working directory is [/home/user], nothing can
    be written or found by pattern, the request context is never done, the
    scheduler follows the script of picks, and a [range] over a map visits
    the keys in the order given. *)
#[global] Instance env : Env World := {|
  os_Getwd := fun _ => Ok "/home/user";
  os_Stat := stat;
  os_ReadFile := readFile;
  exec_Run := fun cmd w => (run cmd, w);
  WriteFile := fun _ _ _ w => (Some "read-only file system", w);
  GlobFiles := fun _ _ _ => Ok None;
  GrepFiles := fun _ _ _ _ => Ok None;
  ctx_Err := fun w => (None, w);
  sched_pick := pick;
  map_order := fun keys w => (keys, w);
  map_order_perm := fun keys _ => reflexivity keys;
|}.

(** A library that marshals a string by putting it between quotes and
    anything else but nil as an empty object, and that trims nothing. *)
#[global] Instance lib : Lib := {|
  json_Marshal := fun v =>
    match v with
    | AnyNil => "null"
    | AnyString s => DQ +:+ s +:+ DQ
    | _ => "{}"
    end;
  strings_TrimSpace := fun s => s;
  strconv_Quote := fun s => DQ +:+ s +:+ DQ;
|}.

Definition served (w : World) : World :=
  {| files := files w; picks := picks w; completions := S (completions w) |}.

(** A client that asks for the tool [lookup] in every completion. *)
Definition loopingLLM : LLMClient World :=
  {| Complete := fun _ _ w =>
       (Ok {| resp_Content := "let me look that up";
              resp_ToolCalls := [ {| tc_ID := "call-" +:+ pretty (completions w);
                                     tc_Name := "lookup";
                                     tc_Arguments := ∅ |} ];
              resp_Done := false |}, served w) |}.

(** A client whose completions fail. *)
Definition brokenLLM : LLMClient World :=
  {| Complete := fun _ _ w => (Err "connection refused", served w) |}.

(** A client that answers at once. *)
Definition answeringLLM : LLMClient World :=
  {| Complete := fun _ _ w =>
       (Ok {| resp_Content := "the answer is 42"; resp_ToolCalls := [];
              resp_Done := true |}, served w) |}.

(** A client that marks its answer done and still asks for a tool. *)
Definition hastyLLM : LLMClient World :=
  {| Complete := fun _ _ w =>
       (Ok {| resp_Content := "nothing to do";
              resp_ToolCalls := [ {| tc_ID := "call-0"; tc_Name := "read";
                                     tc_Arguments := {[ "path" := AnyString "a.txt" ]} |} ];
              resp_Done := true |}, served w) |}.

Definition agentWith (n : string) (client : LLMClient World)
  : EmbeddedAgent World :=
  {| name := n; description := "an agent"; instructions := "You are helpful.";
     tools := [ReadTool (NewToolSet "/ws")]; llm := client; maxTokens := 4096 |}.

Definition world : World :=
  {| files := {[ "/ws" := Dir; "/ws/a.txt" := File "hello";
                 "/ws/docs" := Dir ]};
     picks := [3; 1; 4; 1; 5; 9; 2; 6];
     completions := 0 |}.

Definition agentConfig (n : string) : AgentConfig :=
  {| cfg_Name := n; cfg_Description := "an agent";
     cfg_Instructions := "You are helpful."; cfg_Tools := ["read"; "shell"];
     cfg_Model := ""; cfg_MaxTokens := 0 |}.

Definition configOf (names : list string) : Config :=
  {| Mode := "local"; Workspace := "/ws"; Agents := map agentConfig names;
     MCP := {| mcp_Enabled := true; mcp_Transport := "stdio"; mcp_Port := 0;
               mcp_ServerName := "agentkit-local";
               mcp_ServerVersion := "1.0.0" |} |}.

(** A runner whose agents are named after and driven by the given
    clients. *)
Definition runnerOf (clients : list (string * LLMClient World)) : Runner World :=
  {| config := configOf (map fst clients);
     agents := list_to_map (map (fun '(n, c) => (n, agentWith n c)) clients);
     toolSet := NewToolSet "/ws";
     runner_llm := answeringLLM |}.

(** The runner that [NewRunner] makes of two agents [a] and [b]. *)
Definition builtRunner : Runner World :=
  match NewRunner (configOf ["a"; "b"]) loopingLLM world with
  | Ok r => r
  | Err _ => runnerOf []
  end.

(** Two request lines as a client would send them. *)
Definition toolsListLine : string :=
  "{" +:+ DQ +:+ "jsonrpc" +:+ DQ +:+ ":" +:+ DQ +:+ "2.0" +:+ DQ +:+ ","
      +:+ DQ +:+ "id" +:+ DQ +:+ ":1,"
      +:+ DQ +:+ "method" +:+ DQ +:+ ":" +:+ DQ +:+ "tools/list" +:+ DQ +:+ "}".

Definition initializedLine : string :=
  "{" +:+ DQ +:+ "jsonrpc" +:+ DQ +:+ ":" +:+ DQ +:+ "2.0" +:+ DQ +:+ ","
      +:+ DQ +:+ "method" +:+ DQ +:+ ":" +:+ DQ +:+ "initialized" +:+ DQ +:+ "}".

(** A decoder that knows these two lines and rejects everything else the
    way [json.Unmarshal] rejects text that is not JSON. *)
#[global] Instance codec : Codec := {|
  json_UnmarshalRequest := fun line =>
    if decide (line = toolsListLine) then
      Ok {| req_JSONRPC := "2.0"; req_ID := Some "1";
            req_Method := "tools/list"; req_Params := None |}
    else if decide (line = initializedLine) then
      Ok {| req_JSONRPC := "2.0"; req_ID := None;
            req_Method := "initialized"; req_Params := None |}
    else if decide (line = "") then Err "unexpected end of JSON input"
    else Err "invalid character looking for beginning of value";
  json_UnmarshalParams := fun _ => Err "unexpected end of JSON input";
|}.

(** The file calls of [Files]: [MkdirAll] makes the directory itself unless
    a regular file is in the way, [WriteFile] replaces or creates a regular
    file unless the path is a directory, and [Glob] knows the literal
    pattern and the pattern that ends in one star. *)
Definition mkdirAll (p : string) (w : World) : option error * World :=
  match files w !! p with
  | Some (File _) => (Some ("mkdir " +:+ p +:+ ": not a directory"), w)
  | _ => (None, {| files := <[p := Dir]> (files w); picks := picks w;
                   completions := completions w |})
  end.

Definition writeFile (p content : string) (w : World) : option error * World :=
  match files w !! p with
  | Some Dir => (Some ("open " +:+ p +:+ ": is a directory"), w)
  | _ => (None, {| files := <[p := File content]> (files w); picks := picks w;
                   completions := completions w |})
  end.

Definition glob (pattern : string) (w : World) : result (slice string) :=
  let paths := map fst (map_to_list (files w)) in
  let found :=
    if Strings.HasSuffix pattern "*" then
      let stem := String.substring 0 (String.length pattern - 1) pattern in
      List.filter (fun p => Strings.HasPrefix p stem) paths
    else List.filter (fun p => bool_decide (p = pattern)) paths in
  Ok (match found with [] => None | _ => Some found end).

#[global] Instance fileOps : FileOps World := {|
  os_MkdirAll := fun p _ => mkdirAll p;
  os_WriteFile := fun p content _ => writeFile p content;
  filepath_Glob := glob;
|}.

(** The parameters of two tools/call requests, and a second decoder that
    knows them: [read_file] on [a.txt], and a tool [fly] that the server
    does not have. *)
Definition readFileParams : string :=
  "{" +:+ DQ +:+ "name" +:+ DQ +:+ ":" +:+ DQ +:+ "read_file" +:+ DQ +:+ ","
      +:+ DQ +:+ "arguments" +:+ DQ +:+ ":{" +:+ DQ +:+ "path" +:+ DQ +:+ ":"
      +:+ DQ +:+ "a.txt" +:+ DQ +:+ "}}".

Definition flyParams : string :=
  "{" +:+ DQ +:+ "name" +:+ DQ +:+ ":" +:+ DQ +:+ "fly" +:+ DQ +:+ "}".

Definition callCodec : Codec := {|
  json_UnmarshalRequest := json_UnmarshalRequest;
  json_UnmarshalParams := fun raw =>
    if decide (raw = Some readFileParams) then
      Ok {| params_Name := "read_file";
            params_Arguments := {[ "path" := AnyString "a.txt" ]} |}
    else if decide (raw = Some flyParams) then
      Ok {| params_Name := "fly"; params_Arguments := ∅ |}
    else Err "unexpected end of JSON input";
|}.

(** An encoder in the manner of [lib]: a string between quotes, a raw
    message as it is, a result as an empty object, and the error value of
    a failed [json.Unmarshal] as an object with its offset. *)
#[global] Instance encoder : Encoder := {|
  json_MarshalString := fun s => DQ +:+ s +:+ DQ;
  json_MarshalRaw := fun raw => Ok raw;
  json_MarshalResult := fun _ => Ok "{}";
  json_MarshalData := fun _ => Ok ("{" +:+ DQ +:+ "Offset" +:+ DQ +:+ ":1}");
|}.

(** The world with one more file in the workspace root, [..foo]. *)
Definition dottedWorld : World :=
  {| files := <["/ws/..foo" := File "settings"]> (files world);
     picks := picks world; completions := completions world |}.

(** The same environment with a request context that is done. *)
Definition doneEnv : Env World := {|
  os_Getwd := fun _ => Ok "/home/user";
  os_Stat := stat;
  os_ReadFile := readFile;
  exec_Run := fun cmd w => (run cmd, w);
  WriteFile := fun _ _ _ w => (Some "read-only file system", w);
  GlobFiles := fun _ _ _ => Ok None;
  GrepFiles := fun _ _ _ _ => Ok None;
  ctx_Err := fun w => (Some "context canceled", w);
  sched_pick := pick;
  map_order := fun keys w => (keys, w);
  map_order_perm := fun keys _ => reflexivity keys;
|}.

End Example.

(** ** Vocabulary of the properties *)

Section Vocabulary.
Context {World : Type}.

(** A client that keeps asking for tools: every completion succeeds,
    carries at least one tool call and is not marked done. *)
Definition keepsCallingTools (client : LLMClient World) : Prop :=
  forall messages defs w, exists resp,
    (Complete client messages defs w).1 = Ok resp
    /\ resp_ToolCalls resp <> []
    /\ resp_Done resp = false.

(** No tool of the agent has the name that the call asks for. *)
Definition unknownTool (a : EmbeddedAgent World) (tc : ToolCall) : Prop :=
  forall tool, tool ∈ tools a -> tool_Name tool <> tc_Name tc.

(** The message that answers a call to a tool the agent does not have. *)
Definition unknownToolMessage (tc : ToolCall) : Message :=
  {| msg_Role := "tool";
     msg_Content := "Error: " +:+ "unknown tool: " +:+ tc_Name tc;
     msg_Name := tc_Name tc; msg_ToolID := tc_ID tc |}.

(** Every agent is registered under its own name. *)
Definition wfRunner (r : Runner World) : Prop :=
  forall k a, agents r !! k = Some a -> name a = k.

(** The scheduling steps that a goroutine still takes at most. *)
Definition stepsLeft (g : Goroutine World) : nat :=
  match g with
  | GStart => goroutineSteps
  | GLoop _ remaining _ => S remaining
  | GDone => 0
  end.

Definition workLeft (pool : list (Goroutine World)) : nat :=
  sum_list (stepsLeft <$> pool).

(** Slot [i] holds the result of task [t]: a result under the name of the
    task's agent; the failed result of the task when its invocation
    returned an error, which is then in the error slot; and the error of
    the lookup when the runner has no such agent. *)
Definition slotFilled (r : Runner World) (st : ParState World) (i : nat)
    (t : AgentTask) : Prop :=
  exists res,
    par_results st !! i = Some (Some res)
    /\ Agent res = task_Agent t
    /\ (forall err, par_errors st !! i = Some (Some err) ->
          res = failedResult t err /\ err <> "")
    /\ (agents r !! task_Agent t = None ->
          par_errors st !! i
          = Some (Some ("agent not found: " +:+ task_Agent t : error))).

(** What holds of slot [i] while its goroutine stands at [g]: the error
    slot is nil until the goroutine returns, and the agent of the loop is
    the one registered under the name in the task. *)
Definition slotOk (r : Runner World) (st : ParState World) (i : nat)
    (t : AgentTask) (g : Goroutine World) : Prop :=
  match g with
  | GStart => par_errors st !! i = Some None
  | GLoop agent remaining _ =>
      agents r !! task_Agent t = Some agent
      /\ remaining <= maxIterations
      /\ par_errors st !! i = Some None
  | GDone => slotFilled r st i t
  end.

(** The invariant of the goroutines of [InvokeParallel]: the slices keep
    their length, and every slot is as its goroutine requires. *)
Record ParInv (r : Runner World) (tasks : list AgentTask)
    (st : ParState World) : Prop := {
  inv_results : length (par_results st) = length tasks;
  inv_errors : length (par_errors st) = length tasks;
  inv_pool : length (par_pool st) = length tasks;
  inv_slots : forall i t g, tasks !! i = Some t -> par_pool st !! i = Some g ->
                            slotOk r st i t g;
}.

(** An element of a path: no separator inside. *)
Fixpoint noSeparator (e : string) : Prop :=
  match e with
  | EmptyString => True
  | String c e' => c <> Filepath.Separator /\ noSeparator e'
  end.

(** An element that [Clean] keeps in a rooted path. *)
Definition properElem (e : string) : Prop :=
  e <> "" /\ e <> "." /\ e <> ".." /\ noSeparator e.

(** The response to a line that does not unmarshal. *)
Definition parseErrorResponse (err : error) : Response :=
  {| rsp_JSONRPC := "2.0"; rsp_ID := None; rsp_Result := None;
     rsp_Error := Some {| er_Code := -32700; er_Message := "Parse error";
                          er_Data := Some err |} |}.

End Vocabulary.

Section ToolVocabulary.
Context {World : Type} `{Env World} `{Lib} `{Codec}.

(** The elements of the cleaned workspace root. *)
Definition workspaceElems (ts : ToolSet) : list string :=
  Filepath.cleanElems true (Strings.Split (workspace ts) Filepath.Separator).

(** The rooted path with the given elements. *)
Definition rootedPath (elems : list string) : string :=
  "/" +:+ Strings.Join elems "/".

(** The argument that a tool of tools.go tests first. *)
Definition requiredArg (toolName : string) : string :=
  if decide (toolName = "read") then "path"
  else if decide (toolName = "write") then "path"
  else if decide (toolName = "glob") then "pattern"
  else if decide (toolName = "grep") then "pattern"
  else "command".

(** The tool that [CreateTools] makes for a name, if it knows the name. *)
Definition toolNamed (ts : ToolSet) (toolName : string) : option (Tool World) :=
  if decide (toolName = "read") then Some (ReadTool ts)
  else if decide (toolName = "write") then Some (WriteTool ts)
  else if decide (toolName = "glob") then Some (GlobTool ts)
  else if decide (toolName = "grep") then Some (GrepTool ts)
  else if decide (toolName = "shell") then Some (ShellTool ts)
  else None.

(** The information that a configured agent is listed with. *)
Definition infoOf (cfg : AgentConfig) : AgentInfo :=
  {| info_Name := cfg_Name cfg; info_Description := cfg_Description cfg |}.

(** The section that [callInvokeParallel] writes for one result. *)
Definition resultSection (result : AgentResult) : string :=
  "## " +:+ Agent result +:+ " ["
    +:+ (if ar_Success result then "SUCCESS" else "FAILED") +:+ "]"
    +:+ LF +:+ LF +:+ Output result +:+ LF +:+ LF.

(** An output as [Summary] shows it: cut after 200 bytes, with three dots
    in place of the rest. *)
Definition shortened (output : string) : string :=
  if (Z.of_nat (String.length output) <=? 200)%Z then output
  else String.substring 0 200 output +:+ "...".

(** The line that [Summary] writes for one result. *)
Definition summaryLine (result : AgentResult) : string :=
  "[" +:+ Agent result +:+ "] "
    +:+ (if ar_Success result then "SUCCESS" else "FAILED") +:+ ": "
    +:+ shortened (Output result) +:+ LF.

(** Strings one after the other. *)
Definition concatStrings (parts : list string) : string :=
  foldr String.append "" parts.

(** The id under which the read loop answers a line: none for an empty
    line and for the [initialized] notification, the nil id for a line
    that does not unmarshal, and the id of the request otherwise. *)
Definition replyTo (line : string) : option RawMessage :=
  if decide (line = "") then None
  else match json_UnmarshalRequest line with
       | Err _ => Some None
       | Ok req =>
           if decide (req_Method req = "initialized") then None
           else Some (req_ID req)
       end.

(** A response carries either a result or an error, never both. *)
Definition wellFormed (resp : Response) : Prop :=
  rsp_JSONRPC resp = "2.0"
  /\ (is_Some (rsp_Result resp) <-> rsp_Error resp = None).

End ToolVocabulary.

Section RunVocabulary.
Context {World : Type} `{Lib}.

(** A client under count: next to the world stands a counter that every
    completion requested from the client moves up by one. The tools of the
    agent run beside the counter and leave it alone, so that the counter
    tells how many completions an invocation has requested. *)
Definition countingLLM (client : LLMClient World) : LLMClient (World * nat) :=
  {| Complete := fun messages defs wn =>
       let (r, w') := Complete client messages defs wn.1 in
       (r, (w', S wn.2)) |}.

Definition besideCounter (tool : Tool World) : Tool (World * nat) :=
  {| tool_Name := tool_Name tool;
     tool_Description := tool_Description tool;
     tool_Execute := fun args wn =>
       let (r, w') := tool_Execute tool args wn.1 in (r, (w', wn.2)) |}.

Definition counted (a : EmbeddedAgent World) : EmbeddedAgent (World * nat) :=
  {| name := name a; description := description a;
     instructions := instructions a;
     tools := map besideCounter (tools a);
     llm := countingLLM (llm a);
     maxTokens := maxTokens a |}.

(** The assistant message that carries the content of a response. *)
Definition assistantMessage (resp : CompletionResponse) : Message :=
  {| msg_Role := "assistant"; msg_Content := resp_Content resp;
     msg_Name := ""; msg_ToolID := "" |}.

(** A round after which the loop goes on: a completion that succeeds, asks
    for tools and is not marked done, followed by its tool calls in order.
    It gives the messages and the world it leaves, and nothing when the
    completion fails or ends the loop. *)
Definition toolRound (a : EmbeddedAgent World) (messages : list Message)
    (w : World) : option (list Message * World) :=
  match Complete (llm a) messages (buildToolDefinitions a) w with
  | (Ok resp, w1) =>
      match resp_ToolCalls resp, resp_Done resp with
      | _ :: _, false =>
          Some (executeToolCalls a (resp_ToolCalls resp)
                  (messages ++ [assistantMessage resp]) w1)
      | _, _ => None
      end
  | (Err _, _) => None
  end.

(** [n] such rounds, one after the other. *)
Fixpoint toolRounds (a : EmbeddedAgent World) (n : nat)
    (messages : list Message) (w : World) : option (list Message * World) :=
  match n with
  | O => Some (messages, w)
  | S n' =>
      match toolRound a messages w with
      | Some (messages', w') => toolRounds a n' messages' w'
      | None => None
      end
  end.

(** What the agent loop returns when other goroutines run between its
    passes: with [remaining] passes to go on [messages], each pass runs in
    the world it finds, and the loop returns [res]. *)
Inductive loopReturns (a : EmbeddedAgent World) (input : string)
  : nat -> list Message -> result AgentResult -> Prop :=
| loop_exhausted (messages : list Message) :
    loopReturns a input 0 messages (Ok (maxIterationsResult a input))
| loop_return (remaining : nat) (messages : list Message) (w w' : World)
    (res : result AgentResult) :
    iteration a input messages w = (Return res, w') ->
    loopReturns a input (S remaining) messages res
| loop_continue (remaining : nat) (messages messages' : list Message)
    (w w' : World) (res : result AgentResult) :
    iteration a input messages w = (Continue messages', w') ->
    loopReturns a input remaining messages' res ->
    loopReturns a input (S remaining) messages res.

(** What [Runner.Invoke] returns for a task in such a run: the error of
    the lookup, or what the loop of the agent returns, wrapped. *)
Definition invokeReturns (r : Runner World) (t : AgentTask)
    (outcome : result AgentResult) : Prop :=
  match agents r !! task_Agent t with
  | None => outcome = Err ("agent not found: " +:+ task_Agent t)
  | Some agent =>
      exists res,
        loopReturns agent (task_Input t) maxIterations
          (initialMessages agent (task_Input t)) res
        /\ outcome = invoked res
  end.

(** What a goroutine of [InvokeParallel] leaves in the two slots of its
    task when [Runner.Invoke] has returned [outcome]. *)
Definition recorded (t : AgentTask) (outcome : result AgentResult)
  : AgentResult :=
  match outcome with
  | Ok result => result
  | Err err => failedResult t err
  end.

Definition errorOf (outcome : result AgentResult) : option error :=
  match outcome with
  | Ok _ => None
  | Err err => Some err
  end.

(** What holds of the slots of task [i] while its goroutine stands at [g]:
    both are nil until the goroutine returns; inside the loop, the agent is
    the one registered under the name in the task, and whatever the rest
    of the loop returns is something the whole invocation returns; after
    the return, the slots hold what the invocation returned. *)
Definition slotTraced (r : Runner World) (st : ParState World) (i : nat)
    (t : AgentTask) (g : Goroutine World) : Prop :=
  match g with
  | GStart =>
      par_results st !! i = Some None /\ par_errors st !! i = Some None
  | GLoop agent remaining messages =>
      agents r !! task_Agent t = Some agent
      /\ par_results st !! i = Some None
      /\ par_errors st !! i = Some None
      /\ (forall res,
            loopReturns agent (task_Input t) remaining messages res ->
            loopReturns agent (task_Input t) maxIterations
              (initialMessages agent (task_Input t)) res)
  | GDone =>
      exists outcome,
        invokeReturns r t outcome
        /\ par_results st !! i = Some (Some (recorded t outcome))
        /\ par_errors st !! i = Some (errorOf outcome)
  end.

Definition ParTraced (r : Runner World) (tasks : list AgentTask)
    (st : ParState World) : Prop :=
  forall i t g, tasks !! i = Some t -> par_pool st !! i = Some g ->
                slotTraced r st i t g.

End RunVocabulary.

(** * Properties *)

(** ** The workspace tools *)

Section ToolFacts.
Context {World : Type} `{Env World}.

Lemma Success_spec (r : CommandResult) :
  Success r = true <-> cr_ExitCode r = 0%Z.
Proof. unfold Success. apply Z.eqb_eq. Qed.

(** C7. [RunCommand] runs the command with the workspace as its working
    directory and with stdout and stderr captured in two separate buffers.
    An exit status, zero or not, comes back as [ExitCode] of a
    [CommandResult] next to a nil error; only an error of [cmd.Run] that is
    not an exit status is returned as an error. [RunShell] is [RunCommand]
    on [sh -c], and [Success] holds exactly for exit code 0. *)
Theorem RunCommand_exit_status_is_data (ts : ToolSet) (command : string)
    (args : list string) (w : World) :
  let cmd := {| cmd_Path := command; cmd_Args := args;
                cmd_Dir := workspace ts |} in
  let out := (exec_Run cmd w).1 in
  let w' := (exec_Run cmd w).2 in
  let result code := {| cr_Command := command; cr_Args := args;
                        cr_Stdout := run_stdout out;
                        cr_Stderr := run_stderr out;
                        cr_ExitCode := code |} in
  RunCommand ts command args w =
    match run_err out with
    | RunNil => (Ok (result 0%Z), w')
    | RunExitError code => (Ok (result code), w')
    | RunFailed err => (Err ("command execution failed: " +:+ err), w')
    end
  /\ (forall shellCmd,
        RunShell ts shellCmd w = RunCommand ts "sh" ["-c"; shellCmd] w)
  /\ (forall r : CommandResult, Success r = true <-> cr_ExitCode r = 0%Z).
Proof.
  cbv zeta. split; [| split].
  - unfold RunCommand, bind, commandIn.
    destruct (exec_Run _ w) as [out w'] eqn:Hrun. cbn [fst snd].
    destruct (run_err out); reflexivity.
  - reflexivity.
  - apply Success_spec.
Qed.

(** [ReadFile] on a path that [validatePath] accepts, with the target
    found: it fails on a directory, fails with the file-too-large error and
    no content when the size exceeds the limit, and otherwise returns
    exactly what reading the file gives; the limit of a new tool set is
    10 MiB. *)
Theorem ReadFile_directory_and_size_limit (ts : ToolSet)
    (path absPath : string) (info : FileInfo) (w : World)
    (Hpath : validatePath ts path w = Ok absPath)
    (Hstat : os_Stat absPath w = Ok info) :
  (fi_IsDir info = true ->
     ReadFile ts path w = Err ("path is a directory: " +:+ path))
  /\ (fi_IsDir info = false -> (fi_Size info > maxFileSize ts)%Z ->
        ReadFile ts path w =
          Err ("file too large: " +:+ pretty (fi_Size info) +:+ " bytes (max "
               +:+ pretty (maxFileSize ts) +:+ ")"))
  /\ (fi_IsDir info = false -> (fi_Size info <= maxFileSize ts)%Z ->
        forall content, os_ReadFile absPath w = Ok content ->
                        ReadFile ts path w = Ok content)
  /\ (forall ws, maxFileSize (NewToolSet ws) = (10 * 2 ^ 20)%Z).
Proof.
  unfold ReadFile. rewrite Hpath, Hstat. repeat split.
  - intros ->. reflexivity.
  - intros -> Hbig. apply Z.gtb_gt in Hbig. rewrite Hbig. reflexivity.
  - intros -> Hfits content ->.
    destruct (fi_Size info >? maxFileSize ts)%Z eqn:Hcmp; [| reflexivity].
    apply Z.gtb_gt in Hcmp. lia.
Qed.

End ToolFacts.

Example RunShell_exit_status :
  (RunShell (NewToolSet "/ws") "exit 3" Example.world).1
  = Ok {| cr_Command := "sh"; cr_Args := ["-c"; "exit 3"]; cr_Stdout := "";
          cr_Stderr := ""; cr_ExitCode := 3 |}
  /\ is_err (RunCommand (NewToolSet "/ws") "no-such-program" [] Example.world).1
     = true.
Proof. split; vm_compute; reflexivity. Qed.

Example ReadFile_too_large :
  ReadFile (SetMaxFileSize (NewToolSet "/ws") 3) "a.txt" Example.world
  = Err "file too large: 5 bytes (max 3)".
Proof. vm_compute. reflexivity. Qed.

Lemma ReadFile_directory_and_size_limit_witness :
  ReadFile (NewToolSet "/ws") "a.txt" Example.world = Ok "hello"
  /\ ReadFile (NewToolSet "/ws") "docs" Example.world
     = Err "path is a directory: docs".
Proof.
  split.
  - refine (proj1 (proj2 (proj2
      (ReadFile_directory_and_size_limit (NewToolSet "/ws") "a.txt" "/ws/a.txt"
         {| fi_IsDir := false; fi_Size := 5 |} Example.world _ _))) _ _ "hello" _);
      vm_compute; congruence.
  - refine (proj1
      (ReadFile_directory_and_size_limit (NewToolSet "/ws") "docs" "/ws/docs"
         {| fi_IsDir := true; fi_Size := 4096 |} Example.world _ _) _);
      vm_compute; congruence.
Defined.

(** ** The agent loop *)

Section AgentFacts.
Context {World : Type} `{Env World} `{Lib}.

Lemma more_tool_calls (resp : CompletionResponse) :
  resp_ToolCalls resp <> [] -> resp_Done resp = false ->
  (length (resp_ToolCalls resp) =? 0)%nat || resp_Done resp = false.
Proof.
  intros Hcalls ->. destruct (resp_ToolCalls resp); [congruence | reflexivity].
Qed.

Lemma iteration_llm_error (a : EmbeddedAgent World) input messages w err w1 :
  Complete (llm a) messages (buildToolDefinitions a) w = (Err err, w1) ->
  iteration a input messages w
  = (Return (Err ("LLM completion failed: " +:+ err)), w1).
Proof. intros Hc. unfold iteration, bind. rewrite Hc. reflexivity. Qed.

Lemma iteration_tool_calls (a : EmbeddedAgent World) input messages w resp w1 :
  Complete (llm a) messages (buildToolDefinitions a) w = (Ok resp, w1) ->
  resp_ToolCalls resp <> [] -> resp_Done resp = false ->
  iteration a input messages w
  = (let (messages', w2) :=
       executeToolCalls a (resp_ToolCalls resp)
         (messages ++ [{| msg_Role := "assistant";
                          msg_Content := resp_Content resp;
                          msg_Name := ""; msg_ToolID := "" |}]) w1 in
     (Continue messages', w2)).
Proof.
  intros Hc Hcalls Hdone. unfold iteration, bind. rewrite Hc.
  rewrite (more_tool_calls _ Hcalls Hdone). unfold ret.
  destruct (executeToolCalls _ _ _ w1). reflexivity.
Qed.

Lemma iteration_keepsCallingTools (a : EmbeddedAgent World) input messages w :
  keepsCallingTools (llm a) ->
  exists messages' w', iteration a input messages w = (Continue messages', w').
Proof.
  intros Hllm.
  destruct (Hllm messages (buildToolDefinitions a) w) as (resp & Hc & Hcalls & Hdone).
  destruct (Complete (llm a) messages (buildToolDefinitions a) w) as [r w1] eqn:E.
  cbn in Hc. subst r.
  rewrite (iteration_tool_calls _ _ _ _ _ _ E Hcalls Hdone).
  destruct (executeToolCalls _ _ _ w1) as [messages' w2]. eauto.
Qed.

Lemma agentLoop_keepsCallingTools (a : EmbeddedAgent World) input :
  keepsCallingTools (llm a) ->
  forall remaining messages w, exists w',
    agentLoop a input remaining messages w
    = ((Ok (maxIterationsResult a input), remaining), w').
Proof.
  intros Hllm. induction remaining as [| remaining IH]; intros messages w.
  - eexists. reflexivity.
  - destruct (iteration_keepsCallingTools a input messages w Hllm)
      as (messages' & w1 & Hit).
    destruct (IH messages' w1) as (w' & Hloop).
    exists w'. cbn [agentLoop]. unfold bind. rewrite Hit, Hloop. reflexivity.
Qed.

(** The agent under count does what the agent does, and the counter moves
    up by one with every completion. *)
Lemma buildToolDefinitions_counted (a : EmbeddedAgent World) :
  buildToolDefinitions (counted a) = buildToolDefinitions a.
Proof.
  unfold buildToolDefinitions. cbn [tools counted].
  rewrite map_map. reflexivity.
Qed.

Lemma executeToolIn_counted (ts : list (Tool World)) (tc : ToolCall)
    (w : World) (k : nat) :
  executeToolIn (map besideCounter ts) tc (w, k)
  = (let (r, w') := executeToolIn ts tc w in (r, (w', k))).
Proof.
  induction ts as [| tool ts IH]; cbn [map executeToolIn].
  - reflexivity.
  - cbn [besideCounter tool_Name tool_Execute fst snd].
    destruct (decide (tool_Name tool = tc_Name tc)); [| exact IH].
    change ((w, k).1) with w. change ((w, k).2) with k.
    destruct (tool_Execute tool (tc_Arguments tc) w). reflexivity.
Qed.

Lemma executeToolCalls_counted (a : EmbeddedAgent World) (tcs : list ToolCall) :
  forall messages w k,
    executeToolCalls (counted a) tcs messages (w, k)
    = (let (messages', w') := executeToolCalls a tcs messages w in
       (messages', (w', k))).
Proof.
  induction tcs as [| tc tcs IH]; intros messages w k; cbn [executeToolCalls].
  - reflexivity.
  - unfold bind, executeTool. cbn [tools counted].
    rewrite executeToolIn_counted.
    destruct (executeToolIn (tools a) tc w) as [r w1]. apply IH.
Qed.

Lemma iteration_counted (a : EmbeddedAgent World) input messages w k :
  iteration (counted a) input messages (w, k)
  = (let (step, w') := iteration a input messages w in (step, (w', S k))).
Proof.
  unfold iteration, bind. rewrite buildToolDefinitions_counted.
  cbn [llm counted countingLLM Complete fst snd name].
  destruct (Complete (llm a) messages (buildToolDefinitions a) w)
    as [[resp | err] w1]; [| reflexivity].
  destruct ((length (resp_ToolCalls resp) =? 0)%nat || resp_Done resp);
    [reflexivity |].
  rewrite executeToolCalls_counted.
  destruct (executeToolCalls a _ _ w1). reflexivity.
Qed.

Lemma agentLoop_counted (a : EmbeddedAgent World) input :
  forall remaining messages w k,
    agentLoop (counted a) input remaining messages (w, k)
    = (let '(r, rounds, w') := agentLoop a input remaining messages w in
       ((r, rounds), (w', k + rounds))).
Proof.
  induction remaining as [| remaining IH]; intros messages w k;
    cbn [agentLoop].
  - unfold ret. rewrite Nat.add_0_r. reflexivity.
  - unfold bind. rewrite iteration_counted.
    destruct (iteration a input messages w) as [[r | messages'] w1].
    + unfold ret. now rewrite Nat.add_1_r.
    + rewrite IH.
      destruct (agentLoop a input remaining messages' w1) as [[r rounds] w2].
      unfold ret. cbn [fst snd]. now rewrite Nat.add_succ_comm.
Qed.

Lemma Invoke_counted (a : EmbeddedAgent World) input w k :
  Invoke (counted a) input (w, k)
  = (let '(r, rounds, w') := InvokeRounds a input w in (r, (w', k + rounds))).
Proof.
  unfold Invoke, InvokeRounds, bind, ret.
  change (initialMessages (counted a) input) with (initialMessages a input).
  rewrite agentLoop_counted.
  destruct (agentLoop a input maxIterations (initialMessages a input) w)
    as [[r rounds] w']. reflexivity.
Qed.

(** A round after which the loop goes on is a pass that ends in
    [Continue]. *)
Lemma toolRound_iteration (a : EmbeddedAgent World) input messages w
    messages' w' :
  toolRound a messages w = Some (messages', w') <->
  iteration a input messages w = (Continue messages', w').
Proof.
  unfold toolRound, iteration, bind, ret, assistantMessage.
  destruct (Complete (llm a) messages (buildToolDefinitions a) w)
    as [[resp | err] w1]; [| split; discriminate].
  destruct (resp_ToolCalls resp) as [| tc tcs] eqn:Hcalls; cbn [length Nat.eqb orb].
  - split; discriminate.
  - destruct (resp_Done resp); [split; discriminate |].
    destruct (executeToolCalls a (tc :: tcs) _ w1) as [m w2].
    split; intros Heq; injection Heq as <- <-; reflexivity.
Qed.

Lemma agentLoop_after_rounds (a : EmbeddedAgent World) input :
  forall k remaining messages w messages' w',
    toolRounds a k messages w = Some (messages', w') ->
    agentLoop a input (k + remaining) messages w
    = (let '(r, rounds, w2) := agentLoop a input remaining messages' w' in
       ((r, k + rounds), w2)).
Proof.
  induction k as [| k IH]; intros remaining messages w messages' w' Hrounds;
    cbn [toolRounds] in Hrounds.
  - injection Hrounds as <- <-. cbn [Nat.add].
    destruct (agentLoop a input remaining messages w) as [[r rounds] w2].
    reflexivity.
  - destruct (toolRound a messages w) as [[m1 w1] |] eqn:Hround;
      [| discriminate].
    apply (toolRound_iteration a input) in Hround.
    cbn [Nat.add agentLoop]. unfold bind. rewrite Hround.
    rewrite (IH remaining m1 w1 messages' w' Hrounds).
    destruct (agentLoop a input remaining messages' w') as [[r rounds] w2].
    reflexivity.
Qed.

Lemma toolRounds_keepsCallingTools (a : EmbeddedAgent World) :
  keepsCallingTools (llm a) ->
  forall n messages w, exists messages' w',
    toolRounds a n messages w = Some (messages', w').
Proof.
  intros Hllm. induction n as [| n IH]; intros messages w; cbn [toolRounds].
  - eauto.
  - destruct (iteration_keepsCallingTools a "" messages w Hllm)
      as (m1 & w1 & Hit).
    apply toolRound_iteration in Hit. rewrite Hit. apply IH.
Qed.

(** C2. With a client that keeps asking for tools, [Invoke] returns after
    exactly [maxIterations] = 10 completion rounds, each a completion
    followed by its tool calls: the world it leaves is the one after these
    ten rounds, a counter kept beside the client has moved up by exactly
    ten, and the result has [Success] false and the error text of the
    exhausted loop. *)
Theorem Invoke_stops_at_iteration_ceiling (a : EmbeddedAgent World)
    (input : string) (w : World) (Hllm : keepsCallingTools (llm a)) :
  exists res messages w',
    toolRounds a 10 (initialMessages a input) w = Some (messages, w')
    /\ Invoke a input w = (Ok res, w')
    /\ (forall k, Invoke (counted a) input (w, k) = (Ok res, (w', k + 10)))
    /\ InvokeRounds a input w = ((Ok res, maxIterations), w')
    /\ maxIterations = 10
    /\ ar_Success res = false
    /\ Error res = "agent loop exceeded maximum iterations"
    /\ Error res <> "".
Proof.
  destruct (toolRounds_keepsCallingTools a Hllm 10 (initialMessages a input) w)
    as (messages & w' & Hrounds).
  assert (Hloop : InvokeRounds a input w
                  = ((Ok (maxIterationsResult a input), maxIterations), w')).
  { unfold InvokeRounds. change maxIterations with (10 + 0).
    rewrite (agentLoop_after_rounds a input _ _ _ _ _ _ Hrounds).
    reflexivity. }
  exists (maxIterationsResult a input), messages, w'.
  split; [exact Hrounds |]. split.
  { unfold Invoke, bind. rewrite Hloop. reflexivity. }
  split.
  { intros k. rewrite Invoke_counted, Hloop. reflexivity. }
  split; [exact Hloop |].
  repeat split; cbn; congruence.
Qed.

Lemma executeToolIn_unknown (ts : list (Tool World)) (tc : ToolCall) (w : World) :
  (forall tool, tool ∈ ts -> tool_Name tool <> tc_Name tc) ->
  executeToolIn ts tc w = (Err ("unknown tool: " +:+ tc_Name tc), w).
Proof.
  induction ts as [| tool ts IH]; intros Hnone; cbn.
  - reflexivity.
  - destruct (decide (tool_Name tool = tc_Name tc)) as [Heq | _].
    + exfalso. apply (Hnone tool); [left | exact Heq].
    + apply IH. intros t Ht. apply Hnone. right. exact Ht.
Qed.

Lemma executeToolCalls_appends (a : EmbeddedAgent World) (tcs : list ToolCall) :
  forall messages w, exists added w',
    executeToolCalls a tcs messages w = (messages ++ added, w')
    /\ length added = length tcs
    /\ (forall i tc, tcs !! i = Some tc ->
          exists m, added !! i = Some m
                    /\ msg_Role m = "tool" /\ msg_ToolID m = tc_ID tc
                    /\ msg_Name m = tc_Name tc
                    /\ (unknownTool a tc -> m = unknownToolMessage tc)).
Proof.
  induction tcs as [| tc tcs IH]; intros messages w.
  - exists [], w. cbn. rewrite app_nil_r. repeat split. intros i tc Hi.
    rewrite lookup_nil in Hi. discriminate.
  - cbn [executeToolCalls]. unfold bind.
    destruct (executeTool a tc w) as [r w1] eqn:Hexec.
    destruct (IH (messages ++ [toolMessage tc r]) w1) as (added & w' & Hrun & Hlen & Hat).
    exists (toolMessage tc r :: added), w'. split; [| split].
    + rewrite Hrun, <- app_assoc. reflexivity.
    + cbn. rewrite Hlen. reflexivity.
    + intros [| i] tc' Hi; cbn in Hi.
      * injection Hi as <-. exists (toolMessage tc r). repeat split.
        intros Hunknown. unfold executeTool in Hexec.
        rewrite (executeToolIn_unknown _ _ _ Hunknown) in Hexec.
        injection Hexec as <- _. reflexivity.
      * apply (Hat i tc' Hi).
Qed.

(** C6. A pass of the loop in which the completion asks for tools ends in
    [Continue]: the loop goes on with the messages so far, the assistant
    message and one tool-role message per call, in the order of the calls,
    each carrying the id of its call. The message for a call that names
    none of the agent's tools has the text of the unknown-tool error as its
    content, and the remaining iterations run on these messages. *)
Theorem unknown_tool_becomes_tool_message (a : EmbeddedAgent World)
    (input : string) (messages : list Message) (w w1 : World)
    (resp : CompletionResponse)
    (Hcomplete : Complete (llm a) messages (buildToolDefinitions a) w
                 = (Ok resp, w1))
    (Hcalls : resp_ToolCalls resp <> [])
    (Hdone : resp_Done resp = false) :
  exists added w2,
    let messages' := messages
                     ++ [{| msg_Role := "assistant";
                            msg_Content := resp_Content resp;
                            msg_Name := ""; msg_ToolID := "" |}]
                     ++ added in
    iteration a input messages w = (Continue messages', w2)
    /\ length added = length (resp_ToolCalls resp)
    /\ (forall i tc, resp_ToolCalls resp !! i = Some tc ->
          exists m, added !! i = Some m
                    /\ msg_Role m = "tool" /\ msg_ToolID m = tc_ID tc
                    /\ (unknownTool a tc ->
                          m = {| msg_Role := "tool";
                                 msg_Content := "Error: unknown tool: " +:+ tc_Name tc;
                                 msg_Name := tc_Name tc;
                                 msg_ToolID := tc_ID tc |}))
    /\ (forall remaining,
          agentLoop a input (S remaining) messages w
          = (let '(r, rounds, w3) := agentLoop a input remaining messages' w2 in
             (r, S rounds, w3))).
Proof.
  pose proof (iteration_tool_calls a input messages w resp w1 Hcomplete Hcalls Hdone)
    as Hit.
  destruct (executeToolCalls_appends a (resp_ToolCalls resp)
              (messages ++ [{| msg_Role := "assistant";
                               msg_Content := resp_Content resp;
                               msg_Name := ""; msg_ToolID := "" |}]) w1)
    as (added & w2 & Hrun & Hlen & Hat).
  rewrite Hrun in Hit. rewrite <- app_assoc in Hit.
  exists added, w2. cbv zeta. split; [exact Hit |]. split; [exact Hlen |]. split.
  - intros i tc Hi. destruct (Hat i tc Hi) as (m & Hm & Hrole & Hid & _ & Hunk).
    exists m. repeat split; try assumption.
  - intros remaining. cbn [agentLoop]. unfold bind. rewrite Hit.
    destruct (agentLoop a input remaining _ w2) as [[r rounds] w3]. reflexivity.
Qed.

End AgentFacts.

Section LLMFailure.
Context {World : Type} `{Env World} `{Lib}.

Lemma agentLoop_llm_error (a : EmbeddedAgent World) input remaining messages
    w w1 err :
  Complete (llm a) messages (buildToolDefinitions a) w = (Err err, w1) ->
  agentLoop a input (S remaining) messages w
  = ((Err ("LLM completion failed: " +:+ err), 1), w1).
Proof.
  intros Hc. cbn [agentLoop]. unfold bind.
  rewrite (iteration_llm_error _ _ _ _ _ _ Hc). reflexivity.
Qed.

(** Every error that [Invoke] returns is a failed completion. *)
Lemma agentLoop_error_is_llm_failure (a : EmbeddedAgent World) input :
  forall remaining messages w e rounds w',
    agentLoop a input remaining messages w = ((Err e, rounds), w') ->
    exists err, e = "LLM completion failed: " +:+ err.
Proof.
  induction remaining as [| remaining IH]; intros messages w e rounds w' Hloop.
  - discriminate.
  - cbn [agentLoop] in Hloop. unfold bind in Hloop.
    destruct (iteration a input messages w) as [step w1] eqn:Hit.
    destruct step as [r | messages'].
    + injection Hloop as -> _ _.
      unfold iteration, bind in Hit.
      destruct (Complete _ _ _ w) as [[resp | err] w2].
      * destruct (_ || _); [discriminate |].
        destruct (executeToolCalls _ _ _ w2). discriminate.
      * injection Hit as <- _. eauto.
    + destruct (agentLoop a input remaining messages' w1) as [[r k] w2] eqn:Hrest.
      cbn in Hloop. injection Hloop as -> _ _. eapply IH. exact Hrest.
Qed.

(** A pass returns an error exactly when its completion has failed. *)
Lemma iteration_error (a : EmbeddedAgent World) input messages w e w' :
  iteration a input messages w = (Return (Err e), w') ->
  exists err,
    Complete (llm a) messages (buildToolDefinitions a) w = (Err err, w')
    /\ e = "LLM completion failed: " +:+ err.
Proof.
  unfold iteration, bind, ret.
  destruct (Complete (llm a) messages (buildToolDefinitions a) w)
    as [[resp | err] w1].
  - destruct (_ || _); [discriminate |].
    destruct (executeToolCalls _ _ _ w1). discriminate.
  - intros Hit. injection Hit as <- <-. now exists err.
Qed.

(** An error of the loop comes from a completion that failed after some
    rounds that went on. *)
Lemma agentLoop_error_round (a : EmbeddedAgent World) input :
  forall remaining messages w e rounds w',
    agentLoop a input remaining messages w = ((Err e, rounds), w') ->
    exists k messages' wk err,
      k < remaining
      /\ toolRounds a k messages w = Some (messages', wk)
      /\ Complete (llm a) messages' (buildToolDefinitions a) wk = (Err err, w')
      /\ e = "LLM completion failed: " +:+ err.
Proof.
  induction remaining as [| remaining IH]; intros messages w e rounds w' Hloop.
  - discriminate.
  - cbn [agentLoop] in Hloop. unfold bind in Hloop.
    destruct (iteration a input messages w) as [step w1] eqn:Hit.
    destruct step as [r | messages1].
    + injection Hloop as -> _ <-.
      destruct (iteration_error _ _ _ _ _ _ Hit) as (err & Hc & ->).
      exists 0, messages, w, err. split_and!; [lia | reflexivity | exact Hc | reflexivity].
    + destruct (agentLoop a input remaining messages1 w1) as [[r n] w2] eqn:Hrest.
      cbn in Hloop. injection Hloop as -> _ <-.
      destruct (IH _ _ _ _ _ Hrest) as (k & messages' & wk & err & Hk & Hrounds & Hc & ->).
      exists (S k), messages', wk, err. split_and!; [lia | | exact Hc | reflexivity].
      cbn [toolRounds]. apply toolRound_iteration in Hit. now rewrite Hit.
Qed.

(** A completion that fails after [k] rounds makes the loop return its
    error. *)
Lemma agentLoop_fails_after_rounds (a : EmbeddedAgent World) input k remaining
    messages w messages' wk w1 err :
  toolRounds a k messages w = Some (messages', wk) ->
  Complete (llm a) messages' (buildToolDefinitions a) wk = (Err err, w1) ->
  agentLoop a input (k + S remaining) messages w
  = ((Err ("LLM completion failed: " +:+ err), k + 1), w1).
Proof.
  intros Hrounds Hfail.
  rewrite (agentLoop_after_rounds a input _ _ _ _ _ _ Hrounds).
  now rewrite (agentLoop_llm_error _ _ _ _ _ _ _ Hfail).
Qed.

(** When every completion of the client fails with [err], the loop
    returns this failure wherever its passes run. *)
Lemma loopReturns_failing (a : EmbeddedAgent World) input remaining messages
    res (err : error) :
  (forall msgs defs w, (Complete (llm a) msgs defs w).1 = Err err) ->
  loopReturns a input (S remaining) messages res ->
  res = Err ("LLM completion failed: " +:+ err).
Proof.
  intros Hllm Hloop.
  assert (Hit : forall w, (iteration a input messages w).1
                          = Return (Err ("LLM completion failed: " +:+ err))).
  { intros w. unfold iteration, bind, ret.
    pose proof (Hllm messages (buildToolDefinitions a) w) as Hc.
    destruct (Complete (llm a) messages (buildToolDefinitions a) w) as [r w1].
    cbn in Hc. subst r. reflexivity. }
  inversion Hloop as [| ? ? w w' ? Hstep | ? ? ? w w' ? Hstep _]; subst;
    specialize (Hit w); rewrite Hstep in Hit; cbn in Hit; congruence.
Qed.

(** An error that the loop returns, wherever its passes run, is a failed
    completion. *)
Lemma loopReturns_error (a : EmbeddedAgent World) input remaining messages e :
  loopReturns a input remaining messages (Err e) ->
  exists err, e = "LLM completion failed: " +:+ err.
Proof.
  intros Hloop. remember (Err e) as res eqn:Hres.
  induction Hloop as [messages | remaining messages w w' res Hit
                      | remaining messages messages' w w' res Hit _ IH].
  - discriminate.
  - subst res. destruct (iteration_error _ _ _ _ _ _ Hit) as (err & _ & ->).
    now exists err.
  - apply IH, Hres.
Qed.

End LLMFailure.

Lemma Invoke_stops_at_iteration_ceiling_witness :
  exists res w',
    Invoke (counted (Example.agentWith "a" Example.loopingLLM)) "hi"
      (Example.world, 0)
    = (Ok res, (w', 10))
    /\ Example.completions w' = 10
    /\ ar_Success res = false.
Proof.
  destruct (Invoke_stops_at_iteration_ceiling
              (Example.agentWith "a" Example.loopingLLM) "hi" Example.world)
    as (res & messages & w' & Hrounds & _ & Hcount & _ & _ & Hfailed & _).
  - intros messages defs w. eexists.
    split; [reflexivity | split; [cbn; discriminate | reflexivity]].
  - exists res, w'. split; [exact (Hcount 0) |]. split; [| exact Hfailed].
    vm_compute in Hrounds. injection Hrounds as _ <-. reflexivity.
Defined.

Lemma unknown_tool_becomes_tool_message_witness :
  exists added w2,
    iteration (Example.agentWith "a" Example.loopingLLM) "hi"
      (initialMessages (Example.agentWith "a" Example.loopingLLM) "hi")
      Example.world
    = (Continue (initialMessages (Example.agentWith "a" Example.loopingLLM) "hi"
                 ++ [{| msg_Role := "assistant";
                        msg_Content := "let me look that up";
                        msg_Name := ""; msg_ToolID := "" |}]
                 ++ added), w2)
    /\ added !! 0 = Some {| msg_Role := "tool";
                            msg_Content := "Error: unknown tool: lookup";
                            msg_Name := "lookup"; msg_ToolID := "call-0" |}.
Proof.
  destruct (unknown_tool_becomes_tool_message
              (Example.agentWith "a" Example.loopingLLM) "hi"
              (initialMessages (Example.agentWith "a" Example.loopingLLM) "hi")
              Example.world (Example.served Example.world)
              {| resp_Content := "let me look that up";
                 resp_ToolCalls := [ {| tc_ID := "call-0"; tc_Name := "lookup";
                                        tc_Arguments := ∅ |} ];
                 resp_Done := false |})
    as (added & w2 & Hit & _ & Hat & _).
  - reflexivity.
  - cbn. congruence.
  - reflexivity.
  - exists added, w2. split; [exact Hit |].
    destruct (Hat 0 {| tc_ID := "call-0"; tc_Name := "lookup"; tc_Arguments := ∅ |}
                eq_refl) as (m & Hm & _ & _ & Hunknown).
    rewrite Hm. f_equal. apply Hunknown.
    intros tool Htool. cbn in Htool. apply list_elem_of_singleton in Htool.
    subst tool. cbn. congruence.
Defined.

(** C5 as the claim has it fails: with a client whose completion fails,
    [Invoke] and [Runner.Invoke] return an error and no [AgentResult]. *)
Lemma llm_error_not_folded_counterexample :
  let a := Example.agentWith "a" Example.brokenLLM in
  let r := Example.runnerOf [("a", Example.brokenLLM)] in
  (Complete (llm a) (initialMessages a "hi") (buildToolDefinitions a)
     Example.world).1 = Err "connection refused"
  /\ (Invoke a "hi" Example.world).1
     = Err "LLM completion failed: connection refused"
  /\ (Runner_Invoke r "a" "hi" Example.world).1
     = Err "agent invocation failed: LLM completion failed: connection refused"
  /\ ~ (exists res, (Invoke a "hi" Example.world).1 = Ok res
                    /\ ar_Success res = false /\ Error res <> "").
Proof.
  cbv zeta. repeat split; try (vm_compute; reflexivity).
  intros (res & Hres & _). vm_compute in Hres. discriminate.
Qed.

(** ** The runner: batches *)

Section StringFacts.

Lemma append_assoc (s1 s2 s3 : string) :
  (s1 +:+ s2) +:+ s3 = s1 +:+ (s2 +:+ s3).
Proof.
  induction s1 as [| c s1 IH]; [reflexivity |].
  change (String c ((s1 +:+ s2) +:+ s3) = String c (s1 +:+ (s2 +:+ s3))).
  f_equal. exact IH.
Qed.

Lemma append_nil_r (s : string) : s +:+ "" = s.
Proof.
  induction s as [| c s IH]; [reflexivity |].
  change (String c (s +:+ "") = String c s). f_equal. exact IH.
Qed.

Lemma append_nonempty_r (s : string) (c : Ascii.ascii) (t : string) :
  s +:+ String c t <> "".
Proof. destruct s; discriminate. Qed.

Lemma Contains_append_l (pre s sub : string) :
  Strings.Contains s sub -> Strings.Contains (pre +:+ s) sub.
Proof.
  intros (p & q & ->). exists (pre +:+ p), q. now rewrite append_assoc.
Qed.

Lemma Contains_append_r (s post sub : string) :
  Strings.Contains s sub -> Strings.Contains (s +:+ post) sub.
Proof.
  intros (p & q & ->). exists p, (q +:+ post). now rewrite !append_assoc.
Qed.

Lemma Contains_refl (s : string) : Strings.Contains s s.
Proof. exists "", "". cbn. now rewrite append_nil_r. Qed.

End StringFacts.

Section SequentialFacts.
Context {World : Type} `{Env World} `{Lib}.

(** C10. With no tasks, [InvokeParallel] and [InvokeSequential] return a
    nil slice and a nil error, and leave the world alone. *)
Theorem empty_batch_returns_nil (r : Runner World) (w : World) :
  InvokeParallel r [] w = ((None, None), w)
  /\ InvokeSequential r [] w = ((None, None), w).
Proof. split; reflexivity. Qed.

Lemma contextEntry_contains_output (t : AgentTask) (res : AgentResult) :
  Strings.Contains (contextEntry t res) (Output res).
Proof.
  unfold contextEntry.
  exists (LF +:+ "[" +:+ task_Agent t +:+ "]: "), LF.
  now rewrite !append_assoc.
Qed.

Lemma contextEntry_nonempty (t : AgentTask) (res : AgentResult) :
  contextEntry t res <> "".
Proof. discriminate. Qed.

Lemma contextOf_contains (steps : list SeqStep) (i : nat) (s : SeqStep) :
  steps !! i = Some s -> ar_Success (step_result s) = true ->
  contextOf steps <> ""
  /\ Strings.Contains (contextOf steps) (Output (step_result s)).
Proof.
  revert i. induction steps as [| s0 steps IH]; intros i Hi Hok.
  - rewrite lookup_nil in Hi. discriminate.
  - destruct i as [| i]; cbn in Hi.
    + injection Hi as ->. cbn [contextOf]. rewrite Hok. split.
      * discriminate.
      * apply Contains_append_r, contextEntry_contains_output.
    + destruct (IH i Hi Hok) as [Hne Hin]. cbn [contextOf]. split.
      * destruct (ar_Success (step_result s0)); [discriminate | exact Hne].
      * apply Contains_append_l, Hin.
Qed.

Lemma sequentialLoop_steps (r : Runner World) :
  forall tasks i ctx w,
    let steps := (sequentialLoop r i tasks ctx w).1 in
    length steps = length tasks
    /\ forall k sk, steps !! k = Some sk ->
         tasks !! k = Some (step_task sk)
         /\ step_before sk = ctx +:+ contextOf (take k steps)
         /\ step_input sk = sequentialInput (step_before sk) (i + k) (step_task sk)
         /\ step_after sk
            = (if ar_Success (step_result sk)
               then step_before sk +:+ contextEntry (step_task sk) (step_result sk)
               else step_before sk)
         /\ exists wk,
              step_result sk
              = match (Runner_Invoke r (task_Agent (step_task sk))
                         (step_input sk) wk).1 with
                | Ok res => res
                | Err err => failedResult (step_task sk) err
                end.
Proof.
  induction tasks as [| task rest IH]; intros i ctx w; cbv zeta.
  - cbn. split; [reflexivity |]. intros k sk Hk. rewrite lookup_nil in Hk.
    discriminate.
  - cbn [sequentialLoop]. unfold bind.
    destruct (Runner_Invoke r (task_Agent task) (sequentialInput ctx i task) w)
      as [res w1] eqn:Hinv.
    set (result := match res with
                   | Err err => failedResult task err
                   | Ok result => result
                   end).
    set (ctx' := if ar_Success result then ctx +:+ contextEntry task result
                 else ctx).
    specialize (IH (S i) ctx' w1). cbv zeta in IH.
    destruct (sequentialLoop r (S i) rest ctx' w1) as [steps w2].
    cbn [fst ret] in *. destruct IH as [Hlen Hsteps]. split.
    + cbn. now rewrite Hlen.
    + intros [| k] sk Hk; cbn in Hk.
      * injection Hk as <-. cbn. rewrite append_nil_r, Nat.add_0_r.
        repeat split. exists w. rewrite Hinv. reflexivity.
      * destruct (Hsteps k sk Hk) as (Ht & Hb & Hi & Ha & Hw).
        repeat split; try assumption.
        -- rewrite Hb. cbn [take contextOf step_result step_task].
           unfold ctx'. destruct (ar_Success result).
           ++ now rewrite append_assoc.
           ++ reflexivity.
        -- rewrite Hi. f_equal. lia.
Qed.

(** C4, as amended. [InvokeSequential] runs every task and records one
    result per task, in order; the result of a task whose invocation
    returned an error is the failed result with that error. The context
    block at a task consists of the entries of the successful tasks before
    it, and a failed task leaves it as it was. After a successful task,
    every later task gets an input of the form
    [Previous context: ... Current task: ...] whose context block contains
    the output of that task. *)
Theorem InvokeSequential_chains_context (r : Runner World)
    (tasks : list AgentTask) (w : World) :
  let steps := (sequentialSteps r tasks w).1 in
  (tasks <> [] ->
     (InvokeSequential r tasks w).1
     = (Some (map (fun s => Some (step_result s)) steps), None))
  /\ length steps = length tasks
  /\ forall i si, steps !! i = Some si ->
       tasks !! i = Some (step_task si)
       /\ step_before si = contextOf (take i steps)
       /\ step_input si = sequentialInput (step_before si) i (step_task si)
       /\ (exists wi,
             step_result si
             = match (Runner_Invoke r (task_Agent (step_task si))
                        (step_input si) wi).1 with
               | Ok res => res
               | Err err => failedResult (step_task si) err
               end)
       /\ (ar_Success (step_result si) = false ->
             step_after si = step_before si
             /\ contextOf (take (S i) steps) = contextOf (take i steps))
       /\ (ar_Success (step_result si) = true ->
             forall j sj, i < j -> steps !! j = Some sj ->
               step_input sj
               = withContext (step_before sj) (task_Input (step_task sj))
               /\ Strings.Contains (step_before sj) (Output (step_result si))).
Proof.
  cbv zeta. unfold InvokeSequential, sequentialSteps.
  pose proof (sequentialLoop_steps r tasks 0 "" w) as Hspec. cbv zeta in Hspec.
  destruct Hspec as [Hlen Hsteps]. split; [| split; [exact Hlen |]].
  - intros Hne. destruct tasks as [| t tasks]; [congruence |].
    cbn [length Nat.eqb]. unfold bind.
    destruct (sequentialLoop r 0 (t :: tasks) "" w). reflexivity.
  - set (steps := (sequentialLoop r 0 tasks "" w).1) in *.
    intros i si Hi. destruct (Hsteps i si Hi) as (Ht & Hb & Hin & Ha & Hw).
    cbn in Hb, Hin.
    assert (Happ : forall l1 l2, contextOf (l1 ++ l2)
                                 = contextOf l1 +:+ contextOf l2).
    { induction l1 as [| s l1 IHl]; intros l2; cbn [app contextOf];
        [reflexivity |]. now rewrite IHl, append_assoc. }
    split_and!; try assumption.
    + intros Hfail. split.
      * rewrite Ha, Hfail. reflexivity.
      * rewrite (take_S_r _ _ _ Hi), Happ. cbn [contextOf]. rewrite Hfail.
        cbn. now rewrite append_nil_r.
    + intros Hok j sj Hij Hj.
      destruct (Hsteps j sj Hj) as (_ & Hbj & Hinj & _). cbn in Hbj, Hinj.
      assert (Hi' : take j steps !! i = Some si)
        by (rewrite lookup_take_lt by lia; exact Hi).
      destruct (contextOf_contains _ _ _ Hi' Hok) as [Hne Hsub].
      split.
      * rewrite Hinj. unfold sequentialInput.
        rewrite bool_decide_eq_false_2 by (rewrite Hbj; exact Hne).
        destruct j; [lia | reflexivity].
      * rewrite Hbj. exact Hsub.
Qed.

End SequentialFacts.

Lemma InvokeSequential_chains_context_witness :
  let r := Example.runnerOf [("a", Example.answeringLLM)] in
  let tasks := [ {| task_Agent := "a"; task_Input := "survey the code" |};
                 {| task_Agent := "a"; task_Input := "write the report" |} ] in
  exists s0 s1,
    (sequentialSteps r tasks Example.world).1 = [s0; s1]
    /\ step_input s1 = withContext (step_before s1) "write the report"
    /\ Strings.Contains (step_before s1) "the answer is 42".
Proof.
  cbv zeta.
  pose proof (InvokeSequential_chains_context
                (Example.runnerOf [("a", Example.answeringLLM)])
                [ {| task_Agent := "a"; task_Input := "survey the code" |};
                  {| task_Agent := "a"; task_Input := "write the report" |} ]
                Example.world) as Hthm.
  cbv zeta in Hthm. destruct Hthm as (_ & _ & Hsteps).
  destruct (Hsteps 0 _ eq_refl) as (_ & _ & _ & _ & _ & Hok).
  destruct (Hok eq_refl 1 _ (le_n 1) eq_refl) as [Hin Hsub].
  eexists. eexists. split; [vm_compute; reflexivity |].
  split; [exact Hin | exact Hsub].
Defined.

(** C4 as the claim has it fails: the output of a failed task can occur
    in the input of a later task, because the later task brings the text
    itself, or because the failed task has no output at all. *)
Lemma failed_output_in_later_input_counterexample :
  let r := Example.runnerOf [("a", Example.loopingLLM)] in
  (exists s0 s1,
     (sequentialSteps r
        [ {| task_Agent := "a"; task_Input := "survey the code" |};
          {| task_Agent := "a"; task_Input := "Max iterations reached" |} ]
        Example.world).1 = [s0; s1]
     /\ ar_Success (step_result s0) = false
     /\ Output (step_result s0) = "Max iterations reached"
     /\ Strings.Contains (step_input s1) (Output (step_result s0)))
  /\ (exists s0 s1,
        (sequentialSteps r
           [ {| task_Agent := "nobody"; task_Input := "survey the code" |};
             {| task_Agent := "a"; task_Input := "write the report" |} ]
           Example.world).1 = [s0; s1]
        /\ ar_Success (step_result s0) = false
        /\ Error (step_result s0) = "agent not found: nobody"
        /\ Strings.Contains (step_input s1) (Output (step_result s0))).
Proof.
  cbv zeta. split.
  - eexists. eexists. split; [vm_compute; reflexivity |].
    split; [reflexivity |]. split; [reflexivity |]. apply Contains_refl.
  - eexists. eexists. split; [vm_compute; reflexivity |].
    split; [reflexivity |]. split; [reflexivity |].
    exists "", "write the report". reflexivity.
Qed.

Section ParallelFacts.
Context {World : Type} `{Env World} `{Lib}.

Lemma NewEmbeddedAgent_name cfg ts client w (a : EmbeddedAgent World) :
  NewEmbeddedAgent cfg ts client w = Ok a -> name a = cfg_Name cfg.
Proof.
  unfold NewEmbeddedAgent. intros Hnew.
  destruct (if Strings.HasSuffix _ _ then _ else _); [| discriminate].
  destruct (CreateTools ts (cfg_Tools cfg)); [| discriminate].
  injection Hnew as <-. reflexivity.
Qed.

Lemma registerAgents_names cfgs ts client :
  forall (m m' : gmap string (EmbeddedAgent World)) w,
    (forall k a, m !! k = Some a -> name a = k) ->
    registerAgents cfgs ts client m w = Ok m' ->
    forall k a, m' !! k = Some a -> name a = k.
Proof.
  induction cfgs as [| cfg cfgs IH]; intros m m' w Hm Hreg; cbn in Hreg.
  - injection Hreg as <-. exact Hm.
  - destruct (NewEmbeddedAgent cfg ts client w) as [agent | err] eqn:Hnew;
      [| discriminate].
    eapply IH; [| exact Hreg].
    intros k a Hk. destruct (decide (cfg_Name cfg = k)) as [<- | Hne].
    + rewrite lookup_insert_eq in Hk. injection Hk as <-.
      apply (NewEmbeddedAgent_name _ _ _ _ _ Hnew).
    + rewrite lookup_insert_ne in Hk by exact Hne. apply (Hm _ _ Hk).
Qed.

Lemma NewRunner_wf cfg client w (r : Runner World) :
  NewRunner cfg client w = Ok r -> wfRunner r.
Proof.
  unfold NewRunner. intros Hnew.
  destruct (Validate cfg w) as [cfg' | err]; [| discriminate].
  destruct (registerAgents _ _ _ ∅ w) as [m | err] eqn:Hreg; [| discriminate].
  injection Hnew as <-. unfold wfRunner. cbn.
  eapply registerAgents_names; [| exact Hreg].
  intros k a Hk. rewrite lookup_empty in Hk. discriminate.
Qed.

Lemma iteration_result_agent (a : EmbeddedAgent World) input messages w res w' :
  iteration a input messages w = (Return (Ok res), w') -> Agent res = name a.
Proof.
  unfold iteration, bind. destruct (Complete _ _ _ w) as [[resp | err] w1].
  - destruct (_ || _).
    + intros Hit. injection Hit as <- _. reflexivity.
    + destruct (executeToolCalls _ _ _ w1). discriminate.
  - discriminate.
Qed.

Lemma workLeft_insert (pool : list (Goroutine World)) idx g g' :
  pool !! idx = Some g ->
  workLeft (<[idx := g']> pool) + stepsLeft g = workLeft pool + stepsLeft g'.
Proof.
  revert idx. induction pool as [| g0 pool IH]; intros idx Hidx.
  - rewrite lookup_nil in Hidx. discriminate.
  - destruct idx as [| idx]; cbn in Hidx.
    + injection Hidx as ->. unfold workLeft. cbn. lia.
    + specialize (IH idx Hidx). unfold workLeft in *. cbn in *.
      apply (f_equal (Nat.add (stepsLeft g0))) in IH.
      rewrite !Nat.add_assoc in IH. exact IH.
Qed.

Lemma runnableFrom_spec (pool : list (Goroutine World)) :
  forall base idx,
    idx ∈ runnableFrom base pool ->
    exists g, pool !! (idx - base) = Some g /\ g <> GDone /\ base <= idx.
Proof.
  induction pool as [| g0 pool IH]; intros base idx Hin; cbn in Hin.
  - apply elem_of_nil in Hin. contradiction.
  - assert (Htail : idx ∈ runnableFrom (S base) pool ->
                    exists g, (g0 :: pool) !! (idx - base) = Some g
                              /\ g <> GDone /\ base <= idx).
    { intros Ht. destruct (IH _ _ Ht) as (g & Hg & Hne & Hle).
      exists g. replace (idx - base) with (S (idx - S base)) by lia.
      cbn. split; [exact Hg | split; [exact Hne | lia]]. }
    destruct g0 as [| agent remaining messages |].
    + apply elem_of_cons in Hin as [-> | Hin]; [| exact (Htail Hin)].
      exists GStart. rewrite Nat.sub_diag.
      split; [reflexivity | split; [discriminate | lia]].
    + apply elem_of_cons in Hin as [-> | Hin]; [| exact (Htail Hin)].
      exists (GLoop agent remaining messages). rewrite Nat.sub_diag.
      split; [reflexivity | split; [discriminate | lia]].
    + exact (Htail Hin).
Qed.

Lemma runnableFrom_nil_workLeft (pool : list (Goroutine World)) :
  workLeft pool = 0 -> forall base, runnableFrom base pool = [].
Proof.
  induction pool as [| g pool IH]; intros Hwork base; [reflexivity |].
  unfold workLeft in *. cbn in Hwork.
  destruct g; cbn in Hwork; try discriminate.
  cbn. apply IH. exact Hwork.
Qed.

Lemma runnableFrom_nil_done (pool : list (Goroutine World)) :
  forall base, runnableFrom base pool = [] ->
               forall i g, pool !! i = Some g -> g = GDone.
Proof.
  induction pool as [| g0 pool IH]; intros base Hnil i g Hi.
  - rewrite lookup_nil in Hi. discriminate.
  - cbn in Hnil. destruct g0; try discriminate.
    destruct i as [| i]; cbn in Hi.
    + injection Hi as <-. reflexivity.
    + exact (IH _ Hnil i g Hi).
Qed.

Lemma slotOk_frame (r : Runner World) (st st' : ParState World) i t g :
  par_results st' !! i = par_results st !! i ->
  par_errors st' !! i = par_errors st !! i ->
  slotOk r st i t g -> slotOk r st' i t g.
Proof.
  intros Hres Herr. destruct g; cbn.
  - now rewrite Herr.
  - now rewrite Herr.
  - intros (res & Hslot & Hagent & Hfailed & Hmissing).
    exists res. rewrite Hres. split_and!.
    + exact Hslot.
    + exact Hagent.
    + intros err Herr'. apply Hfailed. rewrite <- Herr. exact Herr'.
    + intros Hnone. etrans; [exact Herr | exact (Hmissing Hnone)].
Qed.

(** A step of goroutine [idx] that touches only its own slot and takes it
    from [g] to a [g'] with fewer steps left keeps the invariant and uses
    up work. *)
Lemma step_keeps_invariant (r : Runner World) (tasks : list AgentTask)
    (st st' : ParState World) idx t g g' :
  ParInv r tasks st ->
  tasks !! idx = Some t ->
  par_pool st !! idx = Some g ->
  par_pool st' = <[idx := g']> (par_pool st) ->
  length (par_results st') = length (par_results st) ->
  length (par_errors st') = length (par_errors st) ->
  (forall j, j <> idx -> par_results st' !! j = par_results st !! j
                         /\ par_errors st' !! j = par_errors st !! j) ->
  slotOk r st' idx t g' ->
  stepsLeft g' < stepsLeft g ->
  ParInv r tasks st' /\ workLeft (par_pool st') < workLeft (par_pool st).
Proof.
  intros [Hr He Hp Hslots] Ht Hg Hpool Hlr Hle Hframe Hnew Hless. split.
  - constructor.
    + now rewrite Hlr.
    + now rewrite Hle.
    + now rewrite Hpool, length_insert.
    + intros i t0 g0 Ht0 Hg0. rewrite Hpool in Hg0.
      destruct (decide (i = idx)) as [-> | Hne].
      * rewrite list_lookup_insert_eq in Hg0
          by (apply lookup_lt_Some in Hg; exact Hg).
        injection Hg0 as <-. rewrite Ht in Ht0. injection Ht0 as <-. exact Hnew.
      * rewrite list_lookup_insert_ne in Hg0 by congruence.
        destruct (Hframe i Hne) as [Hres Herr].
        eapply slotOk_frame; [exact Hres | exact Herr |].
        apply (Hslots i t0 g0 Ht0 Hg0).
  - rewrite Hpool. pose proof (workLeft_insert _ _ _ g' Hg). lia.
Qed.

End ParallelFacts.

Section ParallelRun.
Context {World : Type} `{Env World} `{Lib}.
Variable r : Runner World.
Variable tasks : list AgentTask.
Hypothesis Hwf : wfRunner r.

Lemma stepsLeft_running (g : Goroutine World) : g <> GDone -> 0 < stepsLeft g.
Proof. destruct g; cbn; unfold goroutineSteps; intros; [lia | lia | congruence]. Qed.

Lemma finish_err_keeps idx t g (err : error) (st : ParState World) :
  ParInv r tasks st -> tasks !! idx = Some t ->
  par_pool st !! idx = Some g -> g <> GDone ->
  err <> "" ->
  (agents r !! task_Agent t = None ->
   err = ("agent not found: " +:+ task_Agent t : error)) ->
  ParInv r tasks (finish idx t (Err err) st)
  /\ workLeft (par_pool (finish idx t (Err err) st)) < workLeft (par_pool st).
Proof.
  intros Hinv Ht Hg Hrun Herr Hmissing.
  pose proof (lookup_lt_Some _ _ _ Ht) as Hidx.
  destruct Hinv as [Hr He Hp Hslots].
  apply (step_keeps_invariant r tasks st _ idx t g GDone);
    try assumption; cbn [finish par_pool par_results par_errors].
  - constructor; assumption.
  - reflexivity.
  - apply length_insert.
  - apply length_insert.
  - intros j Hj. split; apply list_lookup_insert_ne; congruence.
  - cbn. exists (failedResult t err). cbn [par_results par_errors].
    rewrite !list_lookup_insert_eq by lia. split_and!.
    + reflexivity.
    + reflexivity.
    + intros err0 Heq. injection Heq as <-. split; [reflexivity | exact Herr].
    + intros Hnone. rewrite (Hmissing Hnone). reflexivity.
  - apply stepsLeft_running, Hrun.
Qed.

Lemma finish_ok_keeps idx t g res (st : ParState World) :
  ParInv r tasks st -> tasks !! idx = Some t ->
  par_pool st !! idx = Some g -> g <> GDone ->
  Agent res = task_Agent t ->
  is_Some (agents r !! task_Agent t) ->
  ParInv r tasks (finish idx t (Ok res) st)
  /\ workLeft (par_pool (finish idx t (Ok res) st)) < workLeft (par_pool st).
Proof.
  intros Hinv Ht Hg Hrun Hagent Hknown.
  pose proof (lookup_lt_Some _ _ _ Ht) as Hidx.
  pose proof (inv_slots _ _ _ Hinv idx t g Ht Hg) as Hslot.
  assert (Hnil : par_errors st !! idx = Some None).
  { destruct g; cbn in Hslot; [exact Hslot | apply Hslot | congruence]. }
  destruct Hinv as [Hr He Hp Hslots].
  apply (step_keeps_invariant r tasks st _ idx t g GDone);
    try assumption; cbn [finish par_pool par_results par_errors].
  - constructor; assumption.
  - reflexivity.
  - apply length_insert.
  - reflexivity.
  - intros j Hj. split; [apply list_lookup_insert_ne; congruence | reflexivity].
  - cbn. exists res. cbn [par_results par_errors].
    rewrite list_lookup_insert_eq by lia. split_and!.
    + reflexivity.
    + exact Hagent.
    + intros err Heq. rewrite Hnil in Heq. discriminate.
    + intros Hnone. rewrite Hnone in Hknown. destruct Hknown; discriminate.
  - apply stepsLeft_running, Hrun.
Qed.

Lemma continue_keeps idx t g g' (st : ParState World) :
  ParInv r tasks st -> tasks !! idx = Some t ->
  par_pool st !! idx = Some g ->
  (par_errors st !! idx = Some None ->
   slotOk r {| par_results := par_results st; par_errors := par_errors st;
               par_pool := <[idx := g']> (par_pool st) |} idx t g') ->
  g <> GDone ->
  stepsLeft g' < stepsLeft g ->
  let st' := {| par_results := par_results st; par_errors := par_errors st;
                par_pool := <[idx := g']> (par_pool st) |} in
  ParInv r tasks st' /\ workLeft (par_pool st') < workLeft (par_pool st).
Proof.
  intros Hinv Ht Hg Hnew Hrun Hless. cbv zeta.
  pose proof (inv_slots _ _ _ Hinv idx t g Ht Hg) as Hslot.
  assert (Hnil : par_errors st !! idx = Some None).
  { destruct g; cbn in Hslot; [exact Hslot | apply Hslot | congruence]. }
  apply (step_keeps_invariant r tasks st _ idx t g g'); try assumption;
    try reflexivity.
  - intros j _. split; reflexivity.
  - apply Hnew, Hnil.
Qed.

Lemma goStep_keeps idx t g (st : ParState World) w :
  ParInv r tasks st -> tasks !! idx = Some t ->
  par_pool st !! idx = Some g -> g <> GDone ->
  ParInv r tasks (goStep r idx t g st w).1
  /\ workLeft (par_pool (goStep r idx t g st w).1) < workLeft (par_pool st).
Proof.
  intros Hinv Ht Hg Hrun.
  pose proof (inv_slots _ _ _ Hinv idx t g Ht Hg) as Hslot.
  destruct g as [| agent remaining messages |]; [| | congruence].
  - cbn [goStep]. destruct (agents r !! task_Agent t) as [agent |] eqn:Hagent.
    + cbn [ret fst].
      apply (continue_keeps idx t GStart
               (GLoop agent maxIterations (initialMessages agent (task_Input t))) st);
        try assumption.
      * intros Hnil. cbn. split_and!; [exact Hagent | lia | exact Hnil].
      * unfold stepsLeft, goroutineSteps, maxIterations. lia.
    + cbn [ret fst]. apply (finish_err_keeps idx t GStart); try assumption.
      * discriminate.
      * reflexivity.
  - cbn in Hslot. destruct Hslot as (Hagent & Hle & Hnil).
    pose proof (Hwf _ _ Hagent) as Hname.
    destruct remaining as [| remaining]; cbn [goStep].
    + cbn [ret fst invoked].
      apply (finish_ok_keeps idx t (GLoop agent 0 messages)); try assumption.
      rewrite Hagent. eauto.
    + unfold bind.
      destruct (iteration agent (task_Input t) messages w) as [step w1] eqn:Hit.
      destruct step as [[res | err] | messages']; cbn [ret fst invoked].
      * apply (finish_ok_keeps idx t (GLoop agent (S remaining) messages));
          try assumption.
        -- rewrite (iteration_result_agent _ _ _ _ _ _ Hit). exact Hname.
        -- rewrite Hagent. eauto.
      * apply (finish_err_keeps idx t (GLoop agent (S remaining) messages));
          try assumption.
        -- discriminate.
        -- rewrite Hagent. discriminate.
      * apply (continue_keeps idx t (GLoop agent (S remaining) messages)
                 (GLoop agent remaining messages') st); try assumption.
        -- intros _. cbn. split_and!; [exact Hagent | lia | exact Hnil].
        -- cbn. lia.
Qed.

Lemma nth_pick_elem (rs : list nat) (n d : nat) :
  rs <> [] -> nth (n mod length rs) rs d ∈ rs.
Proof.
  intros Hne. apply list_elem_of_In, nth_In, Nat.mod_upper_bound.
  destruct rs; [congruence | cbn; lia].
Qed.

(** With fuel for all the work that is left, the goroutines run until
    none is runnable, and the invariant holds of the state they leave. *)
Lemma runGoroutines_keeps :
  forall fuel (st : ParState World) w,
    ParInv r tasks st -> workLeft (par_pool st) <= fuel ->
    ParInv r tasks (runGoroutines r tasks fuel st w).1
    /\ runnable (par_pool (runGoroutines r tasks fuel st w).1) = [].
Proof.
  induction fuel as [| fuel IH]; intros st w Hinv Hwork.
  - cbn. split; [exact Hinv |].
    apply runnableFrom_nil_workLeft. lia.
  - cbn [runGoroutines].
    destruct (runnable (par_pool st)) as [| idx0 rs] eqn:Hrun.
    + cbn. split; [exact Hinv | exact Hrun].
    + unfold bind. destruct (sched_pick w) as [n w1]. cbv zeta.
      set (idx := nth (n mod length (idx0 :: rs)) (idx0 :: rs) idx0).
      assert (Hin : idx ∈ runnable (par_pool st)).
      { rewrite Hrun. apply nth_pick_elem. discriminate. }
      destruct (runnableFrom_spec _ _ _ Hin) as (g & Hg & Hnot & _).
      rewrite Nat.sub_0_r in Hg.
      assert (Hlt : idx < length tasks).
      { rewrite <- (inv_pool _ _ _ Hinv). apply (lookup_lt_Some _ _ _ Hg). }
      destruct (lookup_lt_is_Some_2 _ _ Hlt) as [t Ht].
      rewrite Ht, Hg.
      pose proof (goStep_keeps idx t g st w1 Hinv Ht Hg Hnot) as [Hinv' Hless].
      destruct (goStep r idx t g st w1) as [st' w2]. cbn [fst] in *.
      apply IH; [exact Hinv' | lia].
Qed.

Lemma parInit_inv : ParInv r tasks (parInit tasks).
Proof.
  unfold parInit. constructor; cbn; rewrite ?length_replicate; try reflexivity.
  intros i t g Ht Hg. apply lookup_replicate in Hg as [-> Hlt].
  cbn. apply lookup_replicate_2. exact Hlt.
Qed.

Lemma parInit_work :
  workLeft (par_pool (parInit tasks : ParState World))
  = length tasks * goroutineSteps.
Proof.
  unfold parInit, workLeft. cbn [par_pool].
  induction (length tasks) as [| n IH]; [reflexivity |].
  cbn [replicate fmap list_fmap sum_list stepsLeft]. cbn in IH |- *.
  rewrite IH. reflexivity.
Qed.

End ParallelRun.

Section GoroutineIsInvoke.
Context {World : Type} `{Env World} `{Lib}.
Variable r : Runner World.

Lemma finish_after_step idx t res (st : ParState World) g :
  finish idx t res
    {| par_results := par_results st; par_errors := par_errors st;
       par_pool := <[idx := g]> (par_pool st) |}
  = finish idx t res st.
Proof.
  destruct res; unfold finish; cbn [par_results par_errors par_pool];
    now rewrite list_insert_insert_eq.
Qed.

Lemma finish_pool_done idx t res (st : ParState World) :
  idx < length (par_pool st) ->
  par_pool (finish idx t res st) !! idx = Some GDone.
Proof.
  intros Hlt. destruct res; cbn; now apply list_lookup_insert_eq.
Qed.

Lemma runAlone_done idx t fuel (st : ParState World) w :
  runAlone r idx t fuel GDone st w = (st, w).
Proof. destruct fuel; reflexivity. Qed.

Lemma runAlone_step idx t fuel g (st : ParState World) w :
  g <> GDone ->
  runAlone r idx t (S fuel) g st w
  = (let (st', w') := goStep r idx t g st w in
     match par_pool st' !! idx with
     | Some g' => runAlone r idx t fuel g' st' w'
     | None => (st', w')
     end).
Proof.
  intros Hrun. destruct g; [| | congruence]; cbn [runAlone]; unfold bind;
    destruct (goStep _ _ _ _ _ w) as [st' w']; destruct (par_pool st' !! idx);
    reflexivity.
Qed.

(** Inside the agent loop, a goroutine that is scheduled until it returns
    leaves in its slot what the rest of [Invoke] returns, wrapped as
    [Runner.Invoke] wraps it, and the world that [Invoke] leaves. *)
Lemma runAlone_loop idx t agent :
  forall remaining extra messages (st : ParState World) w,
    idx < length (par_pool st) ->
    runAlone r idx t (S (remaining + extra)) (GLoop agent remaining messages) st w
    = (let '(res, _, w') := agentLoop agent (task_Input t) remaining messages w in
       (finish idx t (invoked res) st, w')).
Proof.
  induction remaining as [| remaining IH]; intros extra messages st w Hlt;
    rewrite runAlone_step by discriminate.
  - cbn [goStep agentLoop ret].
    rewrite finish_pool_done by exact Hlt. apply runAlone_done.
  - cbn [goStep agentLoop]. unfold bind.
    destruct (iteration agent (task_Input t) messages w) as [step w1].
    destruct step as [res | messages']; unfold ret at 1.
    + rewrite finish_pool_done by exact Hlt. apply runAlone_done.
    + cbn [par_pool]. rewrite list_lookup_insert_eq by exact Hlt.
      change (S remaining + extra) with (S (remaining + extra)).
      rewrite IH by (cbn; now rewrite length_insert).
      destruct (agentLoop agent (task_Input t) remaining messages' w1)
        as [[res rounds] w2].
      cbn. now rewrite finish_after_step.
Qed.

(** A goroutine of [InvokeParallel] that is scheduled until it returns
    does what [Runner.Invoke] does for its task, and fills its slot with
    the result. *)
Lemma runAlone_is_Runner_Invoke idx t (st : ParState World) w :
  idx < length (par_pool st) ->
  runAlone r idx t goroutineSteps GStart st w
  = (let (res, w') := Runner_Invoke r (task_Agent t) (task_Input t) w in
     (finish idx t res st, w')).
Proof.
  intros Hlt. unfold goroutineSteps, Runner_Invoke.
  change (maxIterations + 2) with (S (S (maxIterations + 0))).
  rewrite runAlone_step by discriminate. cbn [goStep].
  destruct (agents r !! task_Agent t) as [agent |]; unfold ret at 1.
  - cbn [par_pool]. rewrite list_lookup_insert_eq by exact Hlt.
    rewrite runAlone_loop by (cbn; now rewrite length_insert).
    unfold Invoke, InvokeRounds, bind, ret.
    destruct (agentLoop agent (task_Input t) maxIterations
                (initialMessages agent (task_Input t)) w) as [[res rounds] w'].
    cbn. now rewrite finish_after_step.
  - rewrite finish_pool_done by exact Hlt. apply runAlone_done.
Qed.

End GoroutineIsInvoke.

Section ParallelTrace.
Context {World : Type} `{Env World} `{Lib}.
Variable r : Runner World.
Variable tasks : list AgentTask.

Lemma slotTraced_frame (st st' : ParState World) i t g :
  par_results st' !! i = par_results st !! i ->
  par_errors st' !! i = par_errors st !! i ->
  slotTraced r st i t g -> slotTraced r st' i t g.
Proof. intros Hres Herr. destruct g; cbn; rewrite Hres, Herr; auto. Qed.

(** The loop returns what [agentLoop] returns, and [Runner.Invoke]
    returns what [invokeReturns] allows. *)
Lemma agentLoop_loopReturns (a : EmbeddedAgent World) input :
  forall remaining messages w,
    loopReturns a input remaining messages
      (agentLoop a input remaining messages w).1.1.
Proof.
  induction remaining as [| remaining IH]; intros messages w; cbn [agentLoop].
  - constructor.
  - unfold bind.
    destruct (iteration a input messages w) as [[res | messages'] w1] eqn:Hit.
    + cbn. eapply loop_return. exact Hit.
    + specialize (IH messages' w1).
      destruct (agentLoop a input remaining messages' w1) as [[res n] w2].
      cbn in *. eapply loop_continue; eassumption.
Qed.

Lemma Runner_Invoke_invokeReturns (t : AgentTask) (w : World) :
  invokeReturns r t (Runner_Invoke r (task_Agent t) (task_Input t) w).1.
Proof.
  unfold invokeReturns, Runner_Invoke.
  destruct (agents r !! task_Agent t) as [agent |]; [| reflexivity].
  unfold Invoke, InvokeRounds, bind, ret.
  pose proof (agentLoop_loopReturns agent (task_Input t) maxIterations
                (initialMessages agent (task_Input t)) w) as Hloop.
  destruct (agentLoop agent (task_Input t) maxIterations _ w) as [[res n] w'].
  exists res. split; [exact Hloop | reflexivity].
Qed.

Lemma loopReturns_agent (a : EmbeddedAgent World) input remaining messages res :
  loopReturns a input remaining messages (Ok res) ->
  Agent res = name a /\ Input res = input.
Proof.
  intros Hloop. remember (Ok res) as out eqn:Hout.
  induction Hloop as [messages | remaining messages w w' out Hit
                      | remaining messages messages' w w' out Hit _ IH].
  - injection Hout as <-. split; reflexivity.
  - subst out. unfold iteration, bind, ret in Hit.
    destruct (Complete (llm a) messages (buildToolDefinitions a) w)
      as [[resp | err] w1]; [| discriminate].
    destruct (_ || _).
    + injection Hit as <- _. split; reflexivity.
    + destruct (executeToolCalls _ _ _ w1). discriminate.
  - apply IH, Hout.
Qed.

(** A goroutine that returns with what the invocation of its task
    returned leaves the slots of the others alone and fills its own. *)
Lemma finish_traced idx t outcome (st : ParState World) :
  ParTraced r tasks st -> tasks !! idx = Some t ->
  par_results st !! idx = Some None -> par_errors st !! idx = Some None ->
  idx < length (par_pool st) ->
  invokeReturns r t outcome ->
  ParTraced r tasks (finish idx t outcome st).
Proof.
  intros Hinv Ht Hres Herr Hlt Hout i t0 g Ht0 Hg.
  pose proof (lookup_lt_Some _ _ _ Hres) as Hlr.
  pose proof (lookup_lt_Some _ _ _ Herr) as Hle.
  destruct (decide (i = idx)) as [-> | Hne].
  - rewrite Ht in Ht0. injection Ht0 as <-.
    rewrite finish_pool_done in Hg by exact Hlt. injection Hg as <-.
    exists outcome. split; [exact Hout |].
    destruct outcome as [res | err]; cbn [finish par_results par_errors recorded errorOf].
    + rewrite list_lookup_insert_eq by exact Hlr. split; [reflexivity | exact Herr].
    + rewrite !list_lookup_insert_eq by assumption. split; reflexivity.
  - assert (Hpool : par_pool (finish idx t outcome st) !! i = par_pool st !! i).
    { destruct outcome; cbn; apply list_lookup_insert_ne; congruence. }
    rewrite Hpool in Hg.
    apply (slotTraced_frame st); [| | exact (Hinv i t0 g Ht0 Hg)].
    + destruct outcome; cbn; apply list_lookup_insert_ne; congruence.
    + destruct outcome; cbn; [reflexivity |].
      apply list_lookup_insert_ne; congruence.
Qed.

(** A goroutine that goes on leaves all slots alone. *)
Lemma continue_traced idx t g' (st : ParState World) :
  ParTraced r tasks st -> tasks !! idx = Some t ->
  idx < length (par_pool st) ->
  slotTraced r st idx t g' ->
  ParTraced r tasks
    {| par_results := par_results st; par_errors := par_errors st;
       par_pool := <[idx := g']> (par_pool st) |}.
Proof.
  intros Hinv Ht Hlt Hnew i t0 g Ht0 Hg. cbn [par_pool] in Hg.
  apply (slotTraced_frame st); [reflexivity | reflexivity |].
  destruct (decide (i = idx)) as [-> | Hne].
  - rewrite list_lookup_insert_eq in Hg by exact Hlt. injection Hg as <-.
    rewrite Ht in Ht0. injection Ht0 as <-. exact Hnew.
  - rewrite list_lookup_insert_ne in Hg by congruence. exact (Hinv i t0 g Ht0 Hg).
Qed.

Lemma goStep_traced idx t g (st : ParState World) w :
  ParTraced r tasks st -> tasks !! idx = Some t ->
  par_pool st !! idx = Some g -> g <> GDone ->
  ParTraced r tasks (goStep r idx t g st w).1.
Proof.
  intros Hinv Ht Hg Hrun.
  pose proof (Hinv idx t g Ht Hg) as Hslot.
  pose proof (lookup_lt_Some _ _ _ Hg) as Hlt.
  destruct g as [| agent remaining messages |]; [| | congruence].
  - destruct Hslot as [Hres Herr]. cbn [goStep].
    destruct (agents r !! task_Agent t) as [agent |] eqn:Hagent; cbn [ret fst].
    + apply (continue_traced idx t); try assumption.
      cbn. split_and!; [exact Hagent | exact Hres | exact Herr | auto].
    + apply finish_traced; try assumption.
      unfold invokeReturns. now rewrite Hagent.
  - destruct Hslot as (Hagent & Hres & Herr & Hreach).
    destruct remaining as [| remaining]; cbn [goStep].
    + cbn [ret fst]. apply finish_traced; try assumption.
      unfold invokeReturns. rewrite Hagent.
      exists (Ok (maxIterationsResult agent (task_Input t))).
      split; [apply Hreach; constructor | reflexivity].
    + unfold bind.
      destruct (iteration agent (task_Input t) messages w) as [step w1] eqn:Hit.
      destruct step as [res | messages']; cbn [ret fst].
      * apply finish_traced; try assumption.
        unfold invokeReturns. rewrite Hagent. exists res.
        split; [| reflexivity]. apply Hreach. eapply loop_return. exact Hit.
      * apply (continue_traced idx t); try assumption.
        cbn. split_and!; [exact Hagent | exact Hres | exact Herr |].
        intros res Hrest. apply Hreach. eapply loop_continue; eassumption.
Qed.

(** A step of a goroutine that has not returned replaces its entry in the
    pool by one with fewer steps left, and keeps the slices as long as
    they are. *)
Lemma goStep_pool idx t g (st : ParState World) w :
  par_pool st !! idx = Some g -> g <> GDone ->
  let st' := (goStep r idx t g st w).1 in
  length (par_results st') = length (par_results st)
  /\ exists g', par_pool st' = <[idx := g']> (par_pool st)
                /\ stepsLeft g' < stepsLeft g.
Proof.
  intros Hg Hrun. cbv zeta.
  assert (Hfinish : forall res,
            length (par_results (finish idx t res st)) = length (par_results st)
            /\ exists g', par_pool (finish idx t res st) = <[idx := g']> (par_pool st)
                          /\ stepsLeft g' < stepsLeft g).
  { intros res. split.
    - destruct res; cbn; now rewrite length_insert.
    - exists GDone. split; [now destruct res |].
      apply stepsLeft_running, Hrun. }
  destruct g as [| agent remaining messages |]; [| | congruence].
  - cbn [goStep]. destruct (agents r !! task_Agent t) as [agent |]; cbn [ret fst].
    + split; [reflexivity |]. eexists. split; [reflexivity |].
      unfold stepsLeft, goroutineSteps, maxIterations. lia.
    + apply Hfinish.
  - destruct remaining as [| remaining]; cbn [goStep].
    + cbn [ret fst]. apply Hfinish.
    + unfold bind.
      destruct (iteration agent (task_Input t) messages w) as [step w1].
      destruct step as [res | messages']; cbn [ret fst].
      * apply Hfinish.
      * split; [reflexivity |]. eexists. split; [reflexivity |]. cbn. lia.
Qed.

(** With fuel for all the work that is left, the goroutines run until
    none is runnable; the slots then hold what the invocations have
    returned. *)
Lemma runGoroutines_traced :
  forall fuel (st : ParState World) w,
    ParTraced r tasks st ->
    length (par_pool st) = length tasks ->
    workLeft (par_pool st) <= fuel ->
    let st' := (runGoroutines r tasks fuel st w).1 in
    ParTraced r tasks st'
    /\ length (par_results st') = length (par_results st)
    /\ length (par_pool st') = length tasks
    /\ runnable (par_pool st') = [].
Proof.
  induction fuel as [| fuel IH]; intros st w Hinv Hpool Hwork; cbv zeta.
  - cbn. split_and!; [exact Hinv | reflexivity | exact Hpool |].
    apply runnableFrom_nil_workLeft. lia.
  - cbn [runGoroutines].
    destruct (runnable (par_pool st)) as [| idx0 rs] eqn:Hrun.
    + cbn. split_and!; [exact Hinv | reflexivity | exact Hpool | exact Hrun].
    + unfold bind. destruct (sched_pick w) as [n w1]. cbv zeta.
      set (idx := nth (n mod length (idx0 :: rs)) (idx0 :: rs) idx0).
      assert (Hin : idx ∈ runnable (par_pool st)).
      { rewrite Hrun. apply nth_pick_elem. discriminate. }
      destruct (runnableFrom_spec _ _ _ Hin) as (g & Hg & Hnot & _).
      rewrite Nat.sub_0_r in Hg.
      assert (Hlt : idx < length tasks).
      { rewrite <- Hpool. apply (lookup_lt_Some _ _ _ Hg). }
      destruct (lookup_lt_is_Some_2 _ _ Hlt) as [t Ht].
      rewrite Ht, Hg.
      pose proof (goStep_traced idx t g st w1 Hinv Ht Hg Hnot) as Hinv'.
      pose proof (goStep_pool idx t g st w1 Hg Hnot) as Hstep.
      cbv zeta in Hstep. destruct Hstep as (Hlen & g' & Hpool' & Hless).
      destruct (goStep r idx t g st w1) as [st' w2]. cbn [fst] in *.
      pose proof (workLeft_insert _ _ _ g' Hg) as Hsum.
      rewrite <- Hpool' in Hsum.
      destruct (IH st' w2 Hinv') as (Hfin & Hlen' & Hpool'' & Hnone).
      * now rewrite Hpool', length_insert.
      * lia.
      * split_and!; [exact Hfin | now rewrite Hlen', Hlen | exact Hpool'' | exact Hnone].
Qed.

Lemma parInit_traced : ParTraced r tasks (parInit tasks).
Proof.
  intros i t g Ht Hg. unfold parInit in *. cbn [par_pool] in Hg.
  apply lookup_replicate in Hg as [-> Hlt].
  cbn. split; now apply lookup_replicate_2.
Qed.

(** Whatever the scheduler picks, every slot holds in the end what the
    invocation of its task has returned. *)
Lemma parallelState_traced (w : World) :
  let st := (parallelState r tasks w).1 in
  length (par_results st) = length tasks
  /\ forall i t, tasks !! i = Some t ->
       exists outcome,
         invokeReturns r t outcome
         /\ par_results st !! i = Some (Some (recorded t outcome))
         /\ par_errors st !! i = Some (errorOf outcome).
Proof.
  cbv zeta. unfold parallelState.
  destruct (runGoroutines_traced (length tasks * goroutineSteps) (parInit tasks) w
              parInit_traced) as (Hinv & Hlen & Hpool & Hdone).
  { cbn. apply length_replicate. }
  { rewrite parInit_work. lia. }
  set (st := (runGoroutines r tasks _ (parInit tasks) w).1) in *.
  split.
  { rewrite Hlen. cbn. apply length_replicate. }
  intros i t Ht.
  assert (Hlt : i < length (par_pool st)).
  { rewrite Hpool. apply (lookup_lt_Some _ _ _ Ht). }
  destruct (lookup_lt_is_Some_2 _ _ Hlt) as [g Hg].
  pose proof (Hinv i t g Ht Hg) as Hslot.
  rewrite (runnableFrom_nil_done _ 0 Hdone i g Hg) in Hslot. exact Hslot.
Qed.

End ParallelTrace.

Section ParallelTheorem.
Context {World : Type} `{Env World} `{Lib}.

(** The goroutines of [InvokeParallel] all return, whatever the scheduler
    picks, and every slot is then filled. *)
Lemma parallelState_filled (r : Runner World) (tasks : list AgentTask) (w : World) :
  wfRunner r ->
  let st := (parallelState r tasks w).1 in
  length (par_results st) = length tasks
  /\ (forall i g, par_pool st !! i = Some g -> g = GDone)
  /\ (forall i t, tasks !! i = Some t -> slotFilled r st i t).
Proof.
  intros Hwf. cbv zeta. unfold parallelState.
  destruct (runGoroutines_keeps r tasks Hwf (length tasks * goroutineSteps)
              (parInit tasks) w (parInit_inv r tasks)) as [Hinv Hdone].
  { rewrite parInit_work. lia. }
  set (st := (runGoroutines r tasks _ (parInit tasks) w).1) in *.
  split; [apply (inv_results _ _ _ Hinv) |].
  split; [apply (runnableFrom_nil_done _ 0 Hdone) |].
  intros i t Ht.
  assert (Hlt : i < length (par_pool st)).
  { rewrite (inv_pool _ _ _ Hinv). apply (lookup_lt_Some _ _ _ Ht). }
  destruct (lookup_lt_is_Some_2 _ _ Hlt) as [g Hg].
  pose proof (inv_slots _ _ _ Hinv i t g Ht Hg) as Hslot.
  rewrite (runnableFrom_nil_done _ 0 Hdone i g Hg) in Hslot. exact Hslot.
Qed.

(** C3. For a runner made by [NewRunner], [InvokeParallel] returns a nil
    error and one result per task; whatever the scheduler picks, slot [i]
    holds what the invocation of task [i] has returned, with the passes of
    its agent loop run in the worlds that the other goroutines left: the
    result of the agent under the agent name of the task, or, when the
    invocation returned an error, the failed result with that error
    ([Success] false, [Error] the error text), which is so for a task that
    names an agent the runner does not have. What [Runner.Invoke] returns
    in any world is such an outcome, and a goroutine that is scheduled
    without interruption does what [Runner.Invoke] does and fills its
    slot with the result. *)
Theorem InvokeParallel_keeps_task_order (cfg : Config)
    (client : LLMClient World) (w0 : World) (r : Runner World)
    (Hnew : NewRunner cfg client w0 = Ok r)
    (tasks : list AgentTask) (w : World) :
  let st := (parallelState r tasks w).1 in
  let results := (InvokeParallel r tasks w).1.1 in
  (InvokeParallel r tasks w).1.2 = None
  /\ len results = length tasks
  /\ (forall i t, tasks !! i = Some t ->
        exists outcome,
          invokeReturns r t outcome
          /\ default [] results !! i = Some (Some (recorded t outcome))
          /\ par_errors st !! i = Some (errorOf outcome)
          /\ Agent (recorded t outcome) = task_Agent t
          /\ (forall err : error,
                outcome = Err err ->
                recorded t outcome = failedResult t err
                /\ ar_Success (recorded t outcome) = false
                /\ Error (recorded t outcome) = err /\ err <> "")
          /\ (agents r !! task_Agent t = None ->
                outcome = Err ("agent not found: " +:+ task_Agent t)))
  /\ (forall t w1,
        invokeReturns r t (Runner_Invoke r (task_Agent t) (task_Input t) w1).1)
  /\ (forall idx t (st0 : ParState World) w1,
        idx < length (par_pool st0) ->
        runAlone r idx t goroutineSteps GStart st0 w1
        = (let (res, w') := Runner_Invoke r (task_Agent t) (task_Input t) w1 in
           (finish idx t res st0, w'))).
Proof.
  cbv zeta. pose proof (NewRunner_wf _ _ _ _ Hnew) as Hwf.
  destruct (parallelState_traced r tasks w) as (Hlen & Htraced).
  assert (Hslots : forall i t, tasks !! i = Some t ->
            exists outcome,
              invokeReturns r t outcome
              /\ par_results (parallelState r tasks w).1 !! i
                 = Some (Some (recorded t outcome))
              /\ par_errors (parallelState r tasks w).1 !! i
                 = Some (errorOf outcome)
              /\ Agent (recorded t outcome) = task_Agent t
              /\ (forall err : error,
                    outcome = Err err ->
                    recorded t outcome = failedResult t err
                    /\ ar_Success (recorded t outcome) = false
                    /\ Error (recorded t outcome) = err /\ err <> "")
              /\ (agents r !! task_Agent t = None ->
                    outcome = Err ("agent not found: " +:+ task_Agent t))).
  { intros i t Hi. destruct (Htraced i t Hi) as (outcome & Hout & Hres & Herr).
    exists outcome. split_and!; try assumption.
    - unfold invokeReturns in Hout.
      destruct (agents r !! task_Agent t) as [agent |] eqn:Hagent.
      + destruct Hout as (res & Hloop & ->).
        destruct res as [res | e]; [| reflexivity]. cbn.
        destruct (loopReturns_agent _ _ _ _ _ Hloop) as [-> _].
        apply (Hwf _ _ Hagent).
      + subst outcome. reflexivity.
    - intros err ->. cbn. split_and!; try reflexivity.
      unfold invokeReturns in Hout.
      destruct (agents r !! task_Agent t) as [agent |].
      + destruct Hout as ([res | e] & _ & Heq); cbn in Heq; [discriminate |].
        injection Heq as ->. discriminate.
      + injection Hout as ->. discriminate.
    - intros Hnone. unfold invokeReturns in Hout. now rewrite Hnone in Hout. }
  assert (Hrest :
    (forall t w1,
        invokeReturns r t (Runner_Invoke r (task_Agent t) (task_Input t) w1).1)
    /\ (forall idx t (st0 : ParState World) w1,
          idx < length (par_pool st0) ->
          runAlone r idx t goroutineSteps GStart st0 w1
          = (let (res, w') := Runner_Invoke r (task_Agent t) (task_Input t) w1 in
             (finish idx t res st0, w')))).
  { split.
    - intros t w1. apply Runner_Invoke_invokeReturns.
    - intros idx t st0 w1 Hlt. now apply runAlone_is_Runner_Invoke. }
  unfold InvokeParallel.
  destruct tasks as [| t0 tasks'].
  - cbn. split; [reflexivity |]. split; [reflexivity |].
    split; [| exact Hrest].
    intros i t Hi. rewrite lookup_nil in Hi. discriminate.
  - cbn [length Nat.eqb]. unfold bind.
    destruct (parallelState r (t0 :: tasks') w) as [st w'] eqn:Hst.
    cbn [fst snd ret len default] in *.
    split; [reflexivity |]. split; [exact Hlen |].
    split; [exact Hslots | exact Hrest].
Qed.

End ParallelTheorem.

(** A batch of three tasks under the scheduler script of the example
    world: the results come back in the order of the tasks. *)
Example InvokeParallel_runs :
  let r := Example.runnerOf [("a", Example.answeringLLM);
                             ("b", Example.loopingLLM)] in
  let tasks := [ {| task_Agent := "b"; task_Input := "review" |};
                 {| task_Agent := "nobody"; task_Input := "review" |};
                 {| task_Agent := "a"; task_Input := "review" |} ] in
  (InvokeParallel r tasks Example.world).1
  = (Some [ Some {| Agent := "b"; Input := "review";
                    Output := "Max iterations reached"; ar_Success := false;
                    Error := "agent loop exceeded maximum iterations" |};
            Some {| Agent := "nobody"; Input := "review"; Output := "";
                    ar_Success := false;
                    Error := "agent not found: nobody" |};
            Some {| Agent := "a"; Input := "review";
                    Output := "the answer is 42"; ar_Success := true;
                    Error := "" |} ],
     None).
Proof. vm_compute. reflexivity. Qed.

Lemma InvokeParallel_keeps_task_order_witness :
  let tasks := [ {| task_Agent := "b"; task_Input := "review" |};
                 {| task_Agent := "nobody"; task_Input := "review" |};
                 {| task_Agent := "a"; task_Input := "review" |} ] in
  NewRunner (Example.configOf ["a"; "b"]) Example.loopingLLM Example.world
  = Ok Example.builtRunner
  /\ len (InvokeParallel Example.builtRunner tasks Example.world).1.1 = 3
  /\ forall i t, tasks !! i = Some t ->
       exists outcome,
         invokeReturns Example.builtRunner t outcome
         /\ default [] (InvokeParallel Example.builtRunner tasks Example.world).1.1 !! i
            = Some (Some (recorded t outcome))
         /\ Agent (recorded t outcome) = task_Agent t.
Proof.
  cbv zeta.
  assert (Hnew : NewRunner (Example.configOf ["a"; "b"]) Example.loopingLLM
                   Example.world = Ok Example.builtRunner).
  { assert (Hok : is_ok (NewRunner (Example.configOf ["a"; "b"])
                           Example.loopingLLM Example.world) = true)
      by (vm_compute; reflexivity).
    unfold Example.builtRunner.
    destruct (NewRunner _ _ _) as [r | err]; [reflexivity | discriminate Hok]. }
  split; [exact Hnew |].
  destruct (InvokeParallel_keeps_task_order
              (Example.configOf ["a"; "b"]) Example.loopingLLM Example.world
              Example.builtRunner Hnew
              [ {| task_Agent := "b"; task_Input := "review" |};
                {| task_Agent := "nobody"; task_Input := "review" |};
                {| task_Agent := "a"; task_Input := "review" |} ]
              Example.world) as (_ & Hlen & Hslots & _).
  split; [exact Hlen |].
  intros i t Hi.
  destruct (Hslots i t Hi) as (outcome & Hout & Hres & _ & Hagent & _).
  exists outcome. split_and!; [exact Hout | exact Hres | exact Hagent].
Defined.

(** C5, as amended. When a completion that [Invoke] requests fails, in
    the first round or after rounds that went on, [Invoke] returns no
    result and the error [LLM completion failed: ...], and [Runner.Invoke]
    returns no result and that error wrapped in [agent invocation failed:
    ...]: the failure reaches the invoker as an error. A failed completion
    is the only error that [Invoke] returns, so an exhausted loop and an
    unknown tool are not among them. It is a batch that turns the error
    into a failed [AgentResult]: [InvokeSequential] for its task, and
    [InvokeParallel] in the slot of every task whose invocation returned
    an error, which is always so for a client that never completes. *)
Theorem llm_error_is_returned_as_error {World : Type} `{Env World} `{Lib}
    (a : EmbeddedAgent World) (input : string) (k : nat)
    (messages : list Message) (w wk w1 : World) (err : error)
    (Hk : k < maxIterations)
    (Hrounds : toolRounds a k (initialMessages a input) w = Some (messages, wk))
    (Hfail : Complete (llm a) messages (buildToolDefinitions a) wk
             = (Err err, w1)) :
  Invoke a input w = (Err ("LLM completion failed: " +:+ err), w1)
  /\ (forall w0 e w',
        Invoke a input w0 = (Err e, w') ->
        exists k' messages' wk' err',
          k' < maxIterations
          /\ toolRounds a k' (initialMessages a input) w0 = Some (messages', wk')
          /\ Complete (llm a) messages' (buildToolDefinitions a) wk'
             = (Err err', w')
          /\ e = "LLM completion failed: " +:+ err')
  /\ (forall (r : Runner World) agentName,
        agents r !! agentName = Some a ->
        let failure : error :=
          "agent invocation failed: LLM completion failed: " +:+ err in
        let task := {| task_Agent := agentName; task_Input := input |} in
        Runner_Invoke r agentName input w = (Err failure, w1)
        /\ InvokeSequential r [task] w
           = ((Some [Some {| Agent := agentName; Input := input; Output := "";
                             ar_Success := false; Error := failure |}],
               None), w1)
        /\ (forall tasks i w0,
              tasks !! i = Some task ->
              (InvokeParallel r tasks w0).1.2 = None
              /\ exists outcome,
                   invokeReturns r task outcome
                   /\ default [] (InvokeParallel r tasks w0).1.1 !! i
                      = Some (Some (recorded task outcome))
                   /\ (forall e, outcome = Err e ->
                         recorded task outcome
                         = {| Agent := agentName; Input := input; Output := "";
                              ar_Success := false; Error := e |}
                         /\ exists err',
                              e = "agent invocation failed: LLM completion failed: "
                                  +:+ err')
                   /\ ((forall msgs defs w2,
                          (Complete (llm a) msgs defs w2).1 = Err err) ->
                       outcome = Err failure))).
Proof.
  assert (Hinv : Invoke a input w = (Err ("LLM completion failed: " +:+ err), w1)).
  { unfold Invoke, InvokeRounds, bind.
    replace maxIterations with (k + S (maxIterations - S k)) by lia.
    rewrite (agentLoop_fails_after_rounds _ _ _ _ _ _ _ _ _ _ Hrounds Hfail).
    reflexivity. }
  split; [exact Hinv |]. split.
  { intros w0 e w' Herr. unfold Invoke, InvokeRounds, bind in Herr.
    destruct (agentLoop a input maxIterations (initialMessages a input) w0)
      as [[res rounds] w2] eqn:Hloop.
    cbn in Herr. injection Herr as -> <-.
    apply (agentLoop_error_round _ _ _ _ _ _ _ _ Hloop). }
  intros r agentName Hagent. cbv zeta.
  assert (Hrun : Runner_Invoke r agentName input w
                 = (Err ("agent invocation failed: LLM completion failed: " +:+ err), w1)).
  { unfold Runner_Invoke. rewrite Hagent. unfold bind. rewrite Hinv. reflexivity. }
  split; [exact Hrun |]. split.
  { unfold InvokeSequential, sequentialSteps. cbn [length Nat.eqb sequentialLoop].
    unfold bind, sequentialInput. cbn [task_Agent task_Input bool_decide negb andb].
    rewrite bool_decide_eq_true_2 by reflexivity. cbn [negb andb].
    rewrite Hrun. reflexivity. }
  intros tasks i w0 Hi.
  destruct (parallelState_traced r tasks w0) as (_ & Htraced).
  destruct (Htraced i _ Hi) as (outcome & Hout & Hres & _).
  assert (Hpar : (InvokeParallel r tasks w0).1.2 = None
                 /\ default [] (InvokeParallel r tasks w0).1.1 !! i
                    = Some (Some (recorded {| task_Agent := agentName;
                                              task_Input := input |} outcome))).
  { unfold InvokeParallel. destruct tasks as [| t0 tasks'].
    - rewrite lookup_nil in Hi. discriminate.
    - cbn [length Nat.eqb]. unfold bind.
      destruct (parallelState r (t0 :: tasks') w0) as [st w']. cbn in *.
      split; [reflexivity | exact Hres]. }
  destruct Hpar as [Hnil Hslot]. split; [exact Hnil |].
  exists outcome. split; [exact Hout |]. split; [exact Hslot |].
  unfold invokeReturns in Hout. cbn [task_Agent task_Input] in Hout.
  rewrite Hagent in Hout. destruct Hout as (res & Hloop & ->). split.
  - intros e He. destruct res as [res | e0]; cbn in He; [discriminate |].
    injection He as <-. split; [reflexivity |].
    destruct (loopReturns_error _ _ _ _ _ Hloop) as (err' & ->).
    exists err'. reflexivity.
  - intros Hnever.
    rewrite (loopReturns_failing a input _ _ _ err Hnever Hloop). reflexivity.
Qed.

Lemma llm_error_is_returned_as_error_witness :
  Invoke (Example.agentWith "a" Example.brokenLLM) "hi" Example.world
  = (Err "LLM completion failed: connection refused",
     Example.served Example.world)
  /\ default []
       (InvokeParallel (Example.runnerOf [("a", Example.brokenLLM)])
          [ {| task_Agent := "a"; task_Input := "hi" |} ] Example.world).1.1 !! 0
     = Some (Some {| Agent := "a"; Input := "hi"; Output := "";
                     ar_Success := false;
                     Error := "agent invocation failed: LLM completion failed: connection refused" |}).
Proof.
  pose proof (llm_error_is_returned_as_error
                (Example.agentWith "a" Example.brokenLLM) "hi" 0
                (initialMessages (Example.agentWith "a" Example.brokenLLM) "hi")
                Example.world Example.world (Example.served Example.world)
                "connection refused" (Nat.lt_0_succ 9) eq_refl eq_refl)
    as (Hinv & _ & Hbatch).
  split; [exact Hinv |].
  destruct (Hbatch (Example.runnerOf [("a", Example.brokenLLM)]) "a" eq_refl)
    as (_ & _ & Hpar).
  destruct (Hpar [ {| task_Agent := "a"; task_Input := "hi" |} ] 0 Example.world
              eq_refl) as (_ & outcome & _ & Hslot & _ & Hnever).
  rewrite Hslot, (Hnever (fun _ _ _ => eq_refl)). reflexivity.
Defined.

(** ** The MCP read loop *)

Section ServeFacts.
Context {World : Type} `{Env World} `{Lib} `{Codec}.

Lemma handleRequest_tools_list (s : Server World) (req : Request) (w : World) :
  req_Method req = "tools/list" ->
  handleRequest s req w
  = (let (names, w') := ListAgents (runner s) w in
     ((s, Some (okResponse (req_ID req) (ResListTools (toolCatalog names)))), w')).
Proof.
  intros Hm. unfold handleRequest. rewrite Hm.
  repeat (case_decide; try discriminate); try congruence.
  unfold handleToolsList, bind, ret.
  destruct (ListAgents (runner s) w). reflexivity.
Qed.

Lemma serveLoop_malformed (s : Server World) (line : string)
    (rest : list string) scanErr out (err : error) (w : World) :
  (ctx_Err w).1 = None -> line <> "" -> json_UnmarshalRequest line = Err err ->
  serveLoop s (line :: rest) scanErr out w
  = serveLoop s rest scanErr (out ++ [parseErrorResponse err]) (ctx_Err w).2.
Proof.
  intros Hctx Hne Hbad. cbn [serveLoop]. unfold bind.
  destruct (ctx_Err w) as [cancelled w1]. cbn in Hctx. subst cancelled.
  rewrite decide_False by exact Hne. rewrite Hbad. reflexivity.
Qed.

Lemma serveLoop_empty_line (s : Server World) (rest : list string) scanErr out
    (w : World) :
  (ctx_Err w).1 = None ->
  serveLoop s ("" :: rest) scanErr out w
  = serveLoop s rest scanErr out (ctx_Err w).2.
Proof.
  intros Hctx. cbn [serveLoop]. unfold bind.
  destruct (ctx_Err w) as [cancelled w1]. cbn in Hctx. subst cancelled.
  reflexivity.
Qed.

(** The read loop after a line it cannot use. While the request context
    is not done, a line that is not empty and does not unmarshal into a
    request makes the read loop hand exactly one response to
    [writeResponse], the error -32700 with a nil id, and go on with the
    lines that follow, the server unchanged; an empty line is passed over
    without a response. One such line followed by a well-formed tools/list
    request yields this parse error and then the tools/list response under
    the id of the request, in that order and nothing else. *)
Theorem serve_survives_malformed_line (s : Server World)
    (Hctx : forall w, (ctx_Err w).1 = None) :
  (forall line rest scanErr out err w,
      line <> "" -> json_UnmarshalRequest line = Err err ->
      serveLoop s (line :: rest) scanErr out w
      = serveLoop s rest scanErr
          (out ++ [ {| rsp_JSONRPC := "2.0"; rsp_ID := None; rsp_Result := None;
                       rsp_Error := Some {| er_Code := -32700;
                                            er_Message := "Parse error";
                                            er_Data := Some err |} |} ])
          (ctx_Err w).2)
  /\ (forall rest scanErr out w,
        serveLoop s ("" :: rest) scanErr out w
        = serveLoop s rest scanErr out (ctx_Err w).2)
  /\ (forall bad good err req scanErr w,
        bad <> "" -> json_UnmarshalRequest bad = Err err ->
        good <> "" -> json_UnmarshalRequest good = Ok req ->
        req_Method req = "tools/list" ->
        exists names,
          names ≡ₚ map fst (map_to_list (agents (runner s)))
          /\ served_out (serve s {| scan_lines := [bad; good];
                                    scan_Err := scanErr |} w).1
             = [ parseErrorResponse err;
                 {| rsp_JSONRPC := "2.0"; rsp_ID := req_ID req;
                    rsp_Result := Some (ResListTools (toolCatalog names));
                    rsp_Error := None |} ]
          /\ map ti_Name (toolCatalog names)
             = ["invoke_agent"; "invoke_parallel"; "list_agents"; "read_file";
                "glob_files"; "grep_files"; "run_command"]
          /\ served_err (serve s {| scan_lines := [bad; good];
                                    scan_Err := scanErr |} w).1 = scanErr).
Proof.
  split; [| split].
  - intros line rest scanErr out err w Hne Hbad.
    apply serveLoop_malformed; [apply Hctx | exact Hne | exact Hbad].
  - intros rest scanErr out w. apply serveLoop_empty_line, Hctx.
  - intros bad good err req scanErr w Hne Hbad Hgood_ne Hgood Hm.
    unfold serve. cbn [scan_lines scan_Err].
    rewrite (serveLoop_malformed _ _ _ _ _ _ _ (Hctx w) Hne Hbad).
    set (w1 := (ctx_Err w).2).
    cbn [serveLoop app]. unfold bind.
    pose proof (Hctx w1) as Hctx1.
    destruct (ctx_Err w1) as [cancelled w2]. cbn in Hctx1. subst cancelled.
    rewrite decide_False by exact Hgood_ne. rewrite Hgood.
    rewrite (handleRequest_tools_list s req w2 Hm).
    unfold ListAgents.
    pose proof (map_order_perm (map fst (map_to_list (agents (runner s)))) w2)
      as Hperm.
    destruct (map_order _ w2) as [names w3]. cbn [fst snd] in *.
    exists names. split; [exact Hperm |].
    split; [reflexivity |]. split; reflexivity.
Qed.

End ServeFacts.

Lemma serve_survives_malformed_line_witness :
  let s := NewServer (Example.runnerOf [("a", Example.answeringLLM)])
             "agentkit-local" "1.0.0" in
  exists names,
    served_out (serve s {| scan_lines := ["{oops"; Example.toolsListLine];
                           scan_Err := None |} Example.world).1
    = [ parseErrorResponse "invalid character looking for beginning of value";
        {| rsp_JSONRPC := "2.0"; rsp_ID := Some "1";
           rsp_Result := Some (ResListTools (toolCatalog names));
           rsp_Error := None |} ].
Proof.
  cbv zeta.
  assert (Hctx : forall w : Example.World, (ctx_Err w).1 = None)
    by (intros w; reflexivity).
  destruct (proj2 (proj2 (serve_survives_malformed_line
                     (NewServer (Example.runnerOf [("a", Example.answeringLLM)])
                        "agentkit-local" "1.0.0") Hctx))
              "{oops" Example.toolsListLine
              "invalid character looking for beginning of value"
              {| req_JSONRPC := "2.0"; req_ID := Some "1";
                 req_Method := "tools/list"; req_Params := None |}
              None Example.world)
    as (names & _ & Hout & _).
  - discriminate.
  - reflexivity.
  - intros Heq. vm_compute in Heq. discriminate.
  - reflexivity.
  - reflexivity.
  - exists names. exact Hout.
Defined.

(** An empty line is not JSON, and the read loop passes over it without
    writing anything. *)
Lemma empty_line_gets_no_response :
  let s := NewServer (Example.runnerOf [("a", Example.answeringLLM)])
             "agentkit-local" "1.0.0" in
  json_UnmarshalRequest "" = Err "unexpected end of JSON input"
  /\ served_out (serve s {| scan_lines := [""]; scan_Err := None |}
                   Example.world).1 = []
  /\ length (served_out (serve s {| scan_lines := [""; Example.toolsListLine];
                                    scan_Err := None |} Example.world).1) = 1.
Proof.
  cbv zeta. split; [reflexivity |]. split; [reflexivity |].
  vm_compute. reflexivity.
Qed.

(** ** The MCP read loop: what reaches the writer *)

Section WireFacts.
Context {World : Type} `{Env World} `{Lib} `{Codec} `{Encoder}.

(** The members that [json.Marshal] writes for an error response with a
    nil id: [jsonrpc] and [error], and no [id]. *)
Lemma responseMembers_nil_id (code : Z) (message : string) (data : option error)
    (members : list (string * string)) :
  responseMembers (errorResponse None code message data) = Ok members ->
  exists er, errorMembers {| er_Code := code; er_Message := message;
                             er_Data := data |} = Ok er
             /\ members = [("jsonrpc", json_MarshalString "2.0");
                           ("error", object er)].
Proof.
  unfold responseMembers, errorResponse.
  cbn [rsp_ID rsp_Result rsp_Error rsp_JSONRPC idMember resultMember errorMember].
  destruct (errorMembers _) as [er | e]; [| discriminate].
  intros Hm. injection Hm as <-. exists er. split; reflexivity.
Qed.

(** C8, at an input where the code departs from it. While the request
    context is not done, a line that is not empty and does not unmarshal
    makes the read loop hand exactly one response to [writeError], the
    error -32700 with a nil id, and go on with the lines that follow.
    [json.Marshal] leaves the [id] of that response out, the field being
    tagged [omitempty]: the line that is written has the members [jsonrpc]
    and [error] and no member [id], where the claim, like JSON-RPC 2.0,
    wants the response keyed to the id null. The id of a request, which is
    not empty, is written. *)
Theorem parse_error_is_written_without_id (s : Server World) (line : string)
    (rest : list string) (scanErr : option error) (out : list Response)
    (err : error) (w : World)
    (Hctx : (ctx_Err w).1 = None) (Hne : line <> "")
    (Hbad : json_UnmarshalRequest line = Err err) :
  let resp := errorResponse None ErrParseError "Parse error" (Some err) in
  serveLoop s (line :: rest) scanErr out w
  = serveLoop s rest scanErr (out ++ [resp]) (ctx_Err w).2
  /\ (forall members,
        responseMembers resp = Ok members ->
        map fst members = ["jsonrpc"; "error"]
        /\ ("id" ∉ map fst members)
        /\ (("id", "null") ∉ members))
  /\ (forall data written,
        json_MarshalData err = Ok data ->
        writeError written None ErrParseError "Parse error" (Some err)
        = written
          ++ [object [("jsonrpc", json_MarshalString "2.0");
                      ("error", object [("code", "-32700");
                                        ("message", json_MarshalString "Parse error");
                                        ("data", data)])]])
  /\ (forall e written,
        json_MarshalData err = Err e ->
        writeError written None ErrParseError "Parse error" (Some err) = written)
  /\ (forall raw text result er,
        raw <> "" -> json_MarshalRaw raw = Ok text ->
        forall members,
          responseMembers {| rsp_JSONRPC := "2.0"; rsp_ID := Some raw;
                             rsp_Result := result; rsp_Error := er |}
          = Ok members ->
          members !! 1 = Some ("id", text)).
Proof.
  cbv zeta. split_and!.
  - apply serveLoop_malformed; assumption.
  - intros members Hm.
    destruct (responseMembers_nil_id _ _ _ _ Hm) as (er & _ & ->).
    cbn [map fst]. split_and!; [reflexivity | |].
    + intros Hin. apply elem_of_cons in Hin as [Heq | Hin]; [discriminate |].
      apply elem_of_cons in Hin as [Heq | Hin]; [discriminate |].
      now apply elem_of_nil in Hin.
    + intros Hin. apply elem_of_cons in Hin as [Heq | Hin]; [discriminate |].
      apply elem_of_cons in Hin as [Heq | Hin]; [discriminate |].
      now apply elem_of_nil in Hin.
  - intros data written Hdata.
    unfold writeError, writeResponse, json_MarshalResponse, responseMembers,
      errorResponse.
    cbn [rsp_ID rsp_Result rsp_Error rsp_JSONRPC idMember resultMember
         errorMember errorMembers er_Data er_Code er_Message].
    rewrite Hdata. reflexivity.
  - intros e written Hdata.
    unfold writeError, writeResponse, json_MarshalResponse, responseMembers,
      errorResponse.
    cbn [rsp_ID rsp_Result rsp_Error rsp_JSONRPC idMember resultMember
         errorMember errorMembers er_Data er_Code er_Message].
    rewrite Hdata. reflexivity.
  - intros raw text result er Hraw Htext members.
    unfold responseMembers. cbn [rsp_ID rsp_Result rsp_Error rsp_JSONRPC idMember].
    rewrite decide_False by exact Hraw. rewrite Htext.
    destruct (resultMember result) as [res | e]; [| discriminate].
    destruct (errorMember er) as [erm | e]; [| discriminate].
    intros Hm. injection Hm as <-. reflexivity.
Qed.

End WireFacts.

Lemma parse_error_is_written_without_id_witness :
  let s := NewServer (Example.runnerOf [("a", Example.answeringLLM)])
             "agentkit-local" "1.0.0" in
  let q := Example.DQ in
  served_out (serve s {| scan_lines := ["{oops"]; scan_Err := None |}
                Example.world).1
  = [errorResponse None ErrParseError "Parse error"
       (Some "invalid character looking for beginning of value")]
  /\ writeError [] None ErrParseError "Parse error"
       (Some "invalid character looking for beginning of value")
     = [ "{" +:+ q +:+ "jsonrpc" +:+ q +:+ ":" +:+ q +:+ "2.0" +:+ q +:+ ","
         +:+ q +:+ "error" +:+ q +:+ ":{" +:+ q +:+ "code" +:+ q +:+ ":-32700,"
         +:+ q +:+ "message" +:+ q +:+ ":" +:+ q +:+ "Parse error" +:+ q +:+ ","
         +:+ q +:+ "data" +:+ q +:+ ":{" +:+ q +:+ "Offset" +:+ q +:+ ":1}}}" ].
Proof.
  cbv zeta.
  destruct (parse_error_is_written_without_id
              (NewServer (Example.runnerOf [("a", Example.answeringLLM)])
                 "agentkit-local" "1.0.0")
              "{oops" [] None []
              "invalid character looking for beginning of value"
              Example.world)
    as (Hloop & _ & Hwritten & _).
  - reflexivity.
  - discriminate.
  - reflexivity.
  - split.
    + unfold serve. cbn [scan_lines scan_Err]. rewrite Hloop. reflexivity.
    + etrans; [exact (Hwritten _ [] eq_refl) | vm_compute; reflexivity].
Defined.

(** ** Path containment *)

Section PathLemmas.

(** The model of [filepath.Clean] and [filepath.Rel] on cases from the
    tables of Go's own tests for the two functions. *)
Example Clean_cases :
  map Filepath.Clean
    ["abc"; "abc/def"; "."; ".."; "../.."; "../../abc"; "/abc"; "/"; "";
     "abc/"; "./"; "../"; "/abc/"; "abc//def//ghi"; "abc//"; "abc/./def";
     "/./abc/def"; "abc/."; "abc/def/ghi/../jkl"; "abc/def/../ghi/../jkl";
     "abc/def/.."; "abc/def/../.."; "/abc/def/../.."; "abc/def/../../..";
     "/abc/def/../../.."; "abc/def/../../../ghi/jkl/../../../mno";
     "/../abc"; "abc/./../def"; "abc//./../def"; "abc/../../././../def"]
  = ["abc"; "abc/def"; "."; ".."; "../.."; "../../abc"; "/abc"; "/"; ".";
     "abc"; "."; ".."; "/abc"; "abc/def/ghi"; "abc"; "abc/def";
     "/abc/def"; "abc"; "abc/def/jkl"; "abc/jkl";
     "abc"; "."; "/"; "..";
     "/"; "../../mno";
     "/abc"; "def"; "def"; "../../def"].
Proof. vm_compute. reflexivity. Qed.

Example Rel_cases :
  map (fun bt => Filepath.Rel bt.1 bt.2)
    [("a/b", "a/b"); ("a/b/.", "a/b"); ("a/b", "a/b/c"); ("a/b", "a/c");
     ("a/b", "c/d"); ("a/b/c/d", "a/b"); ("../../a/b", "../../a/b/c/d");
     ("/a/b", "/a/b/c"); ("/a/b", "/c/d"); ("/ab/cd", "/ab/c");
     ("/../../a/b", "/../../a/b/c/d"); (".", "a/b"); (".", "..")]
  = [Ok "."; Ok "."; Ok "c"; Ok "../c";
     Ok "../../c/d"; Ok "../.."; Ok "c/d";
     Ok "c"; Ok "../../c/d"; Ok "../c";
     Ok "c/d"; Ok "a/b"; Ok ".."]
  /\ map (fun bt => is_err (Filepath.Rel bt.1 bt.2))
       [("..", "."); ("..", "a"); ("../..", ".."); ("a", "/a"); ("/a", "a")]
     = [true; true; true; true; true].
Proof. split; vm_compute; reflexivity. Qed.

Lemma Split_nonempty (s : string) (sep : ascii) : Strings.Split s sep <> [].
Proof.
  induction s as [| c s IH]; cbn; [discriminate |].
  destruct (Ascii.eqb c sep); [discriminate |].
  destruct (Strings.Split s sep); discriminate.
Qed.

Lemma Join_cons (e : string) (es : list string) (sep : string) :
  es <> [] -> Strings.Join (e :: es) sep = e +:+ sep +:+ Strings.Join es sep.
Proof. destruct es; [congruence | reflexivity]. Qed.

Lemma Join_Split (s : string) (sep : ascii) :
  Strings.Join (Strings.Split s sep) (String sep "") = s.
Proof.
  induction s as [| c s IH]; [reflexivity |].
  cbn [Strings.Split]. destruct (Ascii.eqb c sep) eqn:Hc.
  - apply Ascii.eqb_eq in Hc. subst c.
    rewrite Join_cons by apply Split_nonempty. rewrite IH. reflexivity.
  - pose proof (Split_nonempty s sep) as Hne.
    destruct (Strings.Split s sep) as [| e es]; [congruence |].
    destruct es as [| e' es].
    + cbn in IH |- *. now rewrite IH.
    + rewrite Join_cons in IH |- * by discriminate.
      rewrite <- IH. reflexivity.
Qed.

Lemma Split_noSeparator (s : string) :
  Forall noSeparator (Strings.Split s Filepath.Separator).
Proof.
  induction s as [| c s IH]; cbn [Strings.Split].
  - constructor; [exact I | constructor].
  - destruct (Ascii.eqb c Filepath.Separator) eqn:Hc.
    + constructor; [exact I | exact IH].
    + apply Ascii.eqb_neq in Hc.
      destruct (Strings.Split s Filepath.Separator) as [| e es].
      * constructor; [split; [exact Hc | exact I] | constructor].
      * inversion IH; subst. constructor; [split; assumption | assumption].
Qed.

Lemma Split_element_then (e rest : string) :
  noSeparator e ->
  Strings.Split (e +:+ "/" +:+ rest) Filepath.Separator
  = e :: Strings.Split rest Filepath.Separator.
Proof.
  induction e as [| c e IH]; intros Hno.
  - reflexivity.
  - destruct Hno as [Hc Hno].
    change (String c e +:+ "/" +:+ rest) with (String c (e +:+ "/" +:+ rest)).
    cbn [Strings.Split]. apply Ascii.eqb_neq in Hc. rewrite Hc.
    rewrite (IH Hno). reflexivity.
Qed.

Lemma Split_element (e : string) :
  noSeparator e -> Strings.Split e Filepath.Separator = [e].
Proof.
  induction e as [| c e IH]; intros Hno; [reflexivity |].
  destruct Hno as [Hc Hno]. cbn [Strings.Split].
  apply Ascii.eqb_neq in Hc. rewrite Hc, (IH Hno). reflexivity.
Qed.

Lemma Split_Join (es : list string) :
  es <> [] -> Forall noSeparator es ->
  Strings.Split (Strings.Join es "/") Filepath.Separator = es.
Proof.
  induction es as [| e es IH]; intros Hne Hall; [congruence |].
  inversion Hall as [| ? ? He Hes]; subst.
  destruct es as [| e' es].
  - cbn. apply Split_element, He.
  - rewrite Join_cons by discriminate.
    rewrite Split_element_then by exact He.
    rewrite IH by (discriminate || assumption). reflexivity.
Qed.


Lemma cleanStep_proper (acc : list string) (e : string) :
  noSeparator e -> Forall properElem acc ->
  Forall properElem (Filepath.cleanStep true acc e).
Proof.
  intros He Hacc. unfold Filepath.cleanStep.
  repeat case_decide; try assumption.
  - destruct acc as [| top acc]; [assumption |].
    case_decide; [assumption |]. now inversion Hacc.
  - constructor; [| assumption]. repeat split; assumption.
Qed.

Lemma cleanFold_proper (elems : list string) :
  forall acc, Forall noSeparator elems -> Forall properElem acc ->
              Forall properElem (fold_left (Filepath.cleanStep true) elems acc).
Proof.
  induction elems as [| e elems IH]; intros acc Hel Hacc; [exact Hacc |].
  inversion Hel; subst. cbn. apply IH; [assumption |].
  now apply cleanStep_proper.
Qed.

Lemma cleanElems_proper (elems : list string) :
  Forall noSeparator elems ->
  Forall properElem (Filepath.cleanElems true elems).
Proof.
  intros Hel. unfold Filepath.cleanElems. apply Forall_rev.
  apply cleanFold_proper; [exact Hel | constructor].
Qed.

Lemma cleanFold_of_proper (elems : list string) :
  forall acc, Forall properElem elems ->
              fold_left (Filepath.cleanStep true) elems acc = rev elems ++ acc.
Proof.
  induction elems as [| e elems IH]; intros acc Hel; [reflexivity |].
  inversion Hel as [| ? ? (H1 & H2 & H3 & _) Hrest]; subst. cbn.
  rewrite IH by assumption. unfold Filepath.cleanStep.
  rewrite !decide_False by assumption. now rewrite <- app_assoc.
Qed.

Lemma cleanElems_of_proper (elems : list string) :
  Forall properElem elems -> Filepath.cleanElems true elems = elems.
Proof.
  intros Hel. unfold Filepath.cleanElems.
  rewrite cleanFold_of_proper by exact Hel. rewrite app_nil_r. apply rev_involutive.
Qed.

Lemma IsAbs_rooted (body : string) : Filepath.IsAbs ("/" +:+ body) = true.
Proof. reflexivity. Qed.

Lemma Clean_rooted (p : string) :
  Filepath.IsAbs p = true ->
  Filepath.Clean p
  = "/" +:+ Strings.Join (Filepath.cleanElems true
                            (Strings.Split p Filepath.Separator)) "/".
Proof. intros Habs. unfold Filepath.Clean. now rewrite Habs. Qed.

(** The elements of a rooted cleaned path. *)
Lemma Clean_elems (p : string) :
  Filepath.IsAbs p = true ->
  exists es, Forall properElem es
             /\ Filepath.Clean p = "/" +:+ Strings.Join es "/".
Proof.
  intros Habs. eexists. split; [| apply Clean_rooted, Habs].
  apply cleanElems_proper, Split_noSeparator.
Qed.

Lemma Join_proper_nonempty (es : list string) :
  es <> [] -> Forall properElem es -> Strings.Join es "/" <> "".
Proof.
  intros Hne Hall. destruct es as [| e es]; [congruence |].
  inversion Hall as [| ? ? (He & _) _]; subst.
  destruct e as [| c e]; [congruence |].
  destruct es; discriminate.
Qed.

Lemma proper_noSeparator (es : list string) :
  Forall properElem es -> Forall noSeparator es.
Proof.
  intros Hall. eapply Forall_impl; [exact Hall |].
  intros e (_ & _ & _ & Hno). exact Hno.
Qed.

Lemma Split_rooted (es : list string) :
  Forall properElem es ->
  Filepath.cleanElems true
    (Strings.Split ("/" +:+ Strings.Join es "/") Filepath.Separator) = es.
Proof.
  intros Hall.
  change (Strings.Split ("/" +:+ Strings.Join es "/") Filepath.Separator)
    with ("" :: Strings.Split (Strings.Join es "/") Filepath.Separator).
  destruct es as [| e es]; [reflexivity |].
  rewrite Split_Join by (discriminate || now apply proper_noSeparator).
  change (Filepath.cleanElems true ("" :: e :: es))
    with (Filepath.cleanElems true (e :: es)).
  now apply cleanElems_of_proper.
Qed.

(** [Clean] leaves a rooted cleaned path as it is. *)
Lemma Clean_of_elems (es : list string) :
  Forall properElem es ->
  Filepath.Clean ("/" +:+ Strings.Join es "/") = "/" +:+ Strings.Join es "/".
Proof.
  intros Hall. rewrite Clean_rooted by apply IsAbs_rooted.
  now rewrite Split_rooted.
Qed.

Lemma relElems_of_elems (es : list string) :
  Forall properElem es ->
  Filepath.relElems ("/" +:+ Strings.Join es "/") = es.
Proof.
  intros Hall. unfold Filepath.relElems. rewrite IsAbs_rooted.
  change (match "/" +:+ Strings.Join es "/" with
          | String _ s => s | EmptyString => "" end)
    with (Strings.Join es "/").
  destruct es as [| e es]; [reflexivity |].
  rewrite decide_False by (apply Join_proper_nonempty; [discriminate | exact Hall]).
  apply Split_Join; [discriminate | now apply proper_noSeparator].
Qed.

Lemma dropCommon_nil (base targ rest : list string) :
  Filepath.dropCommon base targ = ([], rest) -> targ = base ++ rest.
Proof.
  revert targ. induction base as [| b base IH]; intros targ Hdrop.
  - destruct targ; cbn in Hdrop; now injection Hdrop as <-.
  - destruct targ as [| t targ]; cbn in Hdrop; [discriminate |].
    case_decide; [| discriminate]. subst t. cbn. f_equal. now apply IH.
Qed.

Lemma Join_dotdot_prefix (b : list string) (t : list string) :
  b <> [] ->
  Strings.HasPrefix (Strings.Join (map (fun _ => "..") b ++ t) "/") ".." = true.
Proof.
  intros Hne. destruct b as [| b0 b]; [congruence |]. cbn [map app].
  destruct (map (fun _ => "..") b ++ t); reflexivity.
Qed.

End PathLemmas.

Section Containment.
Context {World : Type} `{Env World}.

Lemma HasPrefix_append (a b : string) : Strings.HasPrefix (a +:+ b) a = true.
Proof.
  induction a as [| c a IH]; [reflexivity |].
  change (String c a +:+ b) with (String c (a +:+ b)). cbn [Strings.HasPrefix].
  now rewrite Ascii.eqb_refl.
Qed.

Lemma Join_app_prefix (bs t : list string) (sep : string) :
  exists more, Strings.Join (bs ++ t) sep = Strings.Join bs sep +:+ more.
Proof.
  induction bs as [| b bs IH].
  - exists (Strings.Join t sep). reflexivity.
  - destruct IH as (more & IH). destruct bs as [| b' bs].
    + destruct t as [| t0 t].
      * exists "". cbn. now rewrite append_nil_r.
      * exists (sep +:+ Strings.Join (t0 :: t) sep). reflexivity.
    + exists more. cbn [app] in IH |- *.
      rewrite (Join_cons b (b' :: bs ++ t)), (Join_cons b (b' :: bs))
        by discriminate.
      rewrite IH. now rewrite !append_assoc.
Qed.

Lemma Join_workspace_abs (ws p : string) :
  Filepath.IsAbs ws = true -> Filepath.IsAbs (Filepath.Join [ws; p]) = true.
Proof.
  intros Hws. destruct ws as [| c ws]; [discriminate |].
  unfold Filepath.IsAbs in Hws. cbn [Strings.HasPrefix] in Hws.
  destruct (Ascii.eqb c "/") eqn:Hc; [| discriminate].
  apply Ascii.eqb_eq in Hc. subst c.
  cbn [Filepath.Join]. rewrite decide_False by discriminate.
  rewrite Clean_rooted; [apply IsAbs_rooted | reflexivity].
Qed.

(** Containment. With an absolute workspace, a path that [validatePath]
    accepts is cleaned and rooted, and its elements are the elements of
    the cleaned root followed by further elements, none of them [..]: it
    is the root or lies under it. *)
Theorem validatePath_contained (ts : ToolSet) (path : string) (w : World)
    (absPath : string) :
  Filepath.IsAbs (workspace ts) = true ->
  validatePath ts path w = Ok absPath ->
  exists rootElems elems,
    Forall properElem (rootElems ++ elems)
    /\ Filepath.Clean (workspace ts) = "/" +:+ Strings.Join rootElems "/"
    /\ absPath = "/" +:+ Strings.Join (rootElems ++ elems) "/"
    /\ Strings.HasPrefix absPath (Filepath.Clean (workspace ts)) = true.
Proof.
  intros Hws. unfold validatePath.
  set (path' := if negb (Filepath.IsAbs path)
                then Filepath.Join [workspace ts; path] else path).
  assert (Habs : Filepath.IsAbs path' = true).
  { unfold path'. destruct (Filepath.IsAbs path) eqn:Hp; cbn [negb];
      [exact Hp | now apply Join_workspace_abs]. }
  unfold Filepath.Abs. rewrite Habs.
  destruct (Clean_elems path' Habs) as (es & Hes & Hclean).
  destruct (Clean_elems (workspace ts) Hws) as (bs & Hbs & Hroot).
  unfold Filepath.Rel. rewrite Hroot, Hclean, (Clean_of_elems es Hes).
  assert (Hdone : forall t, es = bs ++ t ->
            exists rootElems elems,
              Forall properElem (rootElems ++ elems)
              /\ "/" +:+ Strings.Join bs "/" = "/" +:+ Strings.Join rootElems "/"
              /\ "/" +:+ Strings.Join es "/"
                 = "/" +:+ Strings.Join (rootElems ++ elems) "/"
              /\ Strings.HasPrefix ("/" +:+ Strings.Join es "/")
                   ("/" +:+ Strings.Join bs "/") = true).
  { intros t ->. exists bs, t. split_and!; try reflexivity; [exact Hes |].
    destruct (Join_app_prefix bs t "/") as (more & ->).
    rewrite <- append_assoc. apply HasPrefix_append. }
  case_decide as Hsame.
  - cbn. intros Hok. injection Hok as <-.
    apply (Hdone []). rewrite app_nil_r.
    apply (f_equal Filepath.relElems) in Hsame.
    now rewrite (relElems_of_elems es Hes), (relElems_of_elems bs Hbs) in Hsame.
  - rewrite !IsAbs_rooted. cbn [Bool.eqb negb].
    rewrite (relElems_of_elems bs Hbs), (relElems_of_elems es Hes).
    destruct (Filepath.dropCommon bs es) as [b t] eqn:Hdrop.
    destruct b as [| b0 b].
    + destruct (Strings.HasPrefix _ ".."); [discriminate |].
      intros Hok. injection Hok as <-.
      apply (Hdone t). now apply dropCommon_nil.
    + case_decide; [discriminate |].
      rewrite Join_dotdot_prefix by discriminate. discriminate.
Qed.

End Containment.

Section Acceptance.
Context {World : Type} `{Env World}.

Lemma Split_append_sep (a b : string) :
  Strings.Split (a +:+ "/" +:+ b) Filepath.Separator
  = Strings.Split a Filepath.Separator ++ Strings.Split b Filepath.Separator.
Proof.
  induction a as [| c a IH]; [reflexivity |].
  change (String c a +:+ "/" +:+ b) with (String c (a +:+ "/" +:+ b)).
  cbn [Strings.Split]. rewrite IH.
  destruct (Ascii.eqb c Filepath.Separator); [reflexivity |].
  pose proof (Split_nonempty a Filepath.Separator) as Hne.
  destruct (Strings.Split a Filepath.Separator); [congruence | reflexivity].
Qed.

Lemma cleanElems_app_proper (front elems : list string) :
  Forall properElem elems ->
  Filepath.cleanElems true (front ++ elems)
  = Filepath.cleanElems true front ++ elems.
Proof.
  intros Hel. unfold Filepath.cleanElems.
  rewrite fold_left_app, cleanFold_of_proper by exact Hel.
  now rewrite rev_app_distr, rev_involutive.
Qed.

Lemma cleanElems_app_empty (front : list string) :
  Filepath.cleanElems true (front ++ [""]) = Filepath.cleanElems true front.
Proof. unfold Filepath.cleanElems. now rewrite fold_left_app. Qed.

Lemma IsAbs_append (ws rest : string) :
  Filepath.IsAbs ws = true -> Filepath.IsAbs (ws +:+ rest) = true.
Proof.
  destruct ws as [| c ws]; [discriminate |]. intros Hws.
  change (String c ws +:+ rest) with (String c (ws +:+ rest)).
  unfold Filepath.IsAbs in *. cbn [Strings.HasPrefix] in *.
  destruct (Ascii.eqb c "/"); [reflexivity | discriminate].
Qed.

(** The cleaned form of a workspace path followed by proper elements. *)
Lemma Clean_under_root (ws : string) (elems : list string) :
  Filepath.IsAbs ws = true -> Forall properElem elems ->
  Filepath.Clean (ws +:+ "/" +:+ Strings.Join elems "/")
  = "/" +:+ Strings.Join
              (Filepath.cleanElems true (Strings.Split ws Filepath.Separator)
               ++ elems) "/".
Proof.
  intros Hws Hel. rewrite Clean_rooted by now apply IsAbs_append.
  rewrite Split_append_sep. destruct elems as [| e elems].
  - cbn [Strings.Join Strings.Split]. now rewrite cleanElems_app_empty, app_nil_r.
  - rewrite Split_Join by (discriminate || now apply proper_noSeparator).
    now rewrite cleanElems_app_proper.
Qed.

Lemma Join_proper_relative (elems : list string) :
  Forall properElem elems -> Filepath.IsAbs (Strings.Join elems "/") = false.
Proof.
  intros Hel. destruct elems as [| e elems]; [reflexivity |].
  inversion Hel as [| ? ? (Hne & _ & _ & Hno) _]; subst.
  destruct e as [| c e]; [congruence |]. destruct Hno as [Hc _].
  apply Ascii.eqb_neq in Hc.
  assert (Hhead : forall rest, Filepath.IsAbs (String c rest) = false).
  { intros rest. unfold Filepath.IsAbs. cbn [Strings.HasPrefix].
    unfold Filepath.Separator in Hc. now rewrite Hc. }
  destruct elems; [apply Hhead |].
  rewrite Join_cons by discriminate. apply Hhead.
Qed.

Lemma dropCommon_app (bs t : list string) :
  Filepath.dropCommon bs (bs ++ t) = ([], t).
Proof.
  induction bs as [| b bs IH]; [now destruct t |].
  cbn. now rewrite decide_True by reflexivity.
Qed.

(** Whether a relative path of proper elements starts with two dots is
    decided by its first element. *)
Lemma HasPrefix_dots_head (e : string) (rest : list string) :
  properElem e ->
  Strings.HasPrefix (Strings.Join (e :: rest) "/") ".."
  = Strings.HasPrefix e "..".
Proof.
  intros (Hne & Hdot & _ & _). destruct rest as [| e' rest]; [reflexivity |].
  rewrite Join_cons by discriminate.
  destruct e as [| c [| d e]]; [congruence | |].
  - cbn [Strings.HasPrefix].
    change (String c "" +:+ "/" +:+ Strings.Join (e' :: rest) "/")
      with (String c (String "/" (Strings.Join (e' :: rest) "/"))).
    cbn [Strings.HasPrefix]. destruct (Ascii.eqb c ".") eqn:Hc; reflexivity.
  - change (String c (String d e) +:+ "/" +:+ Strings.Join (e' :: rest) "/")
      with (String c (String d (e +:+ "/" +:+ Strings.Join (e' :: rest) "/"))).
    reflexivity.
Qed.

(** What [validatePath] does with a relative path of proper elements, in
    an absolute workspace: the path resolves to the root followed by these
    elements, and it is accepted unless its first element starts with two
    dots, in which case it is rejected although it lies under the root. *)
Theorem validatePath_under_root (ts : ToolSet) (elems : list string) (w : World) :
  Filepath.IsAbs (workspace ts) = true ->
  Forall properElem elems ->
  let rootElems :=
    Filepath.cleanElems true (Strings.Split (workspace ts) Filepath.Separator) in
  let absPath := "/" +:+ Strings.Join (rootElems ++ elems) "/" in
  Filepath.Clean (workspace ts) = "/" +:+ Strings.Join rootElems "/"
  /\ validatePath ts (Strings.Join elems "/") w
     = if Strings.HasPrefix (Strings.Join elems "/") ".."
       then Err ("path outside workspace: " +:+ absPath)
       else Ok absPath.
Proof.
  intros Hws Hel. cbv zeta.
  set (bs := Filepath.cleanElems true
               (Strings.Split (workspace ts) Filepath.Separator)).
  assert (Hbs : Forall properElem bs)
    by apply cleanElems_proper, Split_noSeparator.
  assert (Hroot : Filepath.Clean (workspace ts) = "/" +:+ Strings.Join bs "/")
    by now apply Clean_rooted.
  split; [exact Hroot |].
  assert (Hall : Forall properElem (bs ++ elems)) by now apply Forall_app.
  unfold validatePath. rewrite (Join_proper_relative elems Hel). cbn [negb].
  assert (Hnonempty : workspace ts <> "") by (intros E; now rewrite E in Hws).
  cbn [Filepath.Join]. rewrite decide_False by exact Hnonempty.
  change (Strings.Join [workspace ts; Strings.Join elems "/"] "/")
    with (workspace ts +:+ "/" +:+ Strings.Join elems "/").
  rewrite (Clean_under_root _ _ Hws Hel). fold bs.
  unfold Filepath.Abs. rewrite IsAbs_rooted.
  rewrite (Clean_of_elems _ Hall).
  unfold Filepath.Rel. rewrite Hroot, (Clean_of_elems _ Hall).
  case_decide as Hsame.
  - apply (f_equal Filepath.relElems) in Hsame.
    rewrite (relElems_of_elems _ Hall), (relElems_of_elems _ Hbs) in Hsame.
    assert (elems = []) as ->.
    { apply (f_equal length) in Hsame. rewrite length_app in Hsame.
      destruct elems; [reflexivity | cbn in Hsame; lia]. }
    reflexivity.
  - rewrite !IsAbs_rooted. cbn [Bool.eqb negb].
    rewrite (relElems_of_elems _ Hbs), (relElems_of_elems _ Hall).
    rewrite dropCommon_app. reflexivity.
Qed.

End Acceptance.

Section PathFacts.
Context {World : Type} `{Env World}.

(** C1, at an input where the code departs from it. The file [..foo] in
    the workspace [/ws] resolves to [/ws/..foo], a path under the root,
    and [validatePath] rejects it as outside the workspace: its path
    relative to the root, [..foo], starts with two dots. Paths that leave
    the root are rejected as the claim says. *)
Theorem validatePath_rejects_name_with_two_dots (w : World) :
  Filepath.Join ["/ws"; "..foo"] = "/ws/..foo"
  /\ Strings.HasPrefix "/ws/..foo" "/ws/" = true
  /\ Filepath.Rel "/ws" "/ws/..foo" = Ok "..foo"
  /\ validatePath (NewToolSet "/ws") "..foo" w
     = Err "path outside workspace: /ws/..foo"
  /\ validatePath (NewToolSet "/ws") "..foo/notes.txt" w
     = Err "path outside workspace: /ws/..foo/notes.txt"
  /\ validatePath (NewToolSet "/ws") "../etc/passwd" w
     = Err "path outside workspace: /etc/passwd"
  /\ validatePath (NewToolSet "/ws") "/etc/passwd" w
     = Err "path outside workspace: /etc/passwd"
  /\ validatePath (NewToolSet "/ws") "docs/../a.txt" w = Ok "/ws/a.txt".
Proof. repeat split; vm_compute; reflexivity. Qed.

(** C9, at an input where the code departs from it. A regular file within
    the size limit that lies under the workspace root, and whose path from
    the root begins with a name that starts with two dots, such as
    [..foo], is not read: the path resolves to the file under the root,
    and [ReadFile] returns the error [path outside workspace] of
    [validatePath] in place of the content. *)
Theorem ReadFile_refuses_file_with_two_dots (ts : ToolSet)
    (elems : list string) (w : World) (info : FileInfo) (content : string) :
  let rootElems :=
    Filepath.cleanElems true (Strings.Split (workspace ts) Filepath.Separator) in
  let path := Strings.Join elems "/" in
  let absPath := "/" +:+ Strings.Join (rootElems ++ elems) "/" in
  Filepath.IsAbs (workspace ts) = true ->
  Forall properElem elems ->
  Strings.HasPrefix path ".." = true ->
  os_Stat absPath w = Ok info ->
  fi_IsDir info = false ->
  (fi_Size info <= maxFileSize ts)%Z ->
  os_ReadFile absPath w = Ok content ->
  Filepath.Clean (workspace ts) = "/" +:+ Strings.Join rootElems "/"
  /\ Filepath.Abs (os_Getwd w) (Filepath.Join [workspace ts; path]) = Ok absPath
  /\ ReadFile ts path w = Err ("path outside workspace: " +:+ absPath)
  /\ ReadFile ts path w <> Ok content.
Proof.
  cbv zeta. intros Hws Hel Hdots _ _ _ _.
  destruct (validatePath_under_root ts elems w Hws Hel) as [Hroot Hval].
  cbv zeta in Hval. rewrite Hdots in Hval.
  assert (Hread : ReadFile ts (Strings.Join elems "/") w
                  = Err ("path outside workspace: "
                         +:+ ("/" +:+ Strings.Join
                                (Filepath.cleanElems true
                                   (Strings.Split (workspace ts) Filepath.Separator)
                                 ++ elems) "/"))).
  { unfold ReadFile. now rewrite Hval. }
  split; [exact Hroot |]. split.
  - assert (Hnonempty : workspace ts <> "") by (intros E; now rewrite E in Hws).
    cbn [Filepath.Join]. rewrite decide_False by exact Hnonempty.
    change (Strings.Join [workspace ts; Strings.Join elems "/"] "/")
      with (workspace ts +:+ "/" +:+ Strings.Join elems "/").
    rewrite (Clean_under_root _ _ Hws Hel).
    unfold Filepath.Abs. rewrite IsAbs_rooted.
    rewrite Clean_of_elems; [reflexivity |].
    apply Forall_app. split; [| exact Hel].
    apply cleanElems_proper, Split_noSeparator.
  - split; [exact Hread |]. rewrite Hread. discriminate.
Qed.

End PathFacts.

Lemma ReadFile_refuses_file_with_two_dots_witness :
  os_ReadFile "/ws/..foo" Example.dottedWorld = Ok "settings"
  /\ ReadFile (NewToolSet "/ws") "..foo" Example.dottedWorld
     = Err "path outside workspace: /ws/..foo".
Proof.
  split; [reflexivity |].
  assert (Hproper : Forall properElem ["..foo"]).
  { repeat constructor; try discriminate; cbn; intuition discriminate. }
  refine (proj1 (proj2 (proj2
    (ReadFile_refuses_file_with_two_dots (NewToolSet "/ws") ["..foo"]
       Example.dottedWorld {| fi_IsDir := false; fi_Size := 8 |} "settings"
       _ Hproper _ _ _ _ _)))).
  - reflexivity.
  - reflexivity.
  - vm_compute. reflexivity.
  - reflexivity.
  - vm_compute. discriminate.
  - vm_compute. reflexivity.
Defined.

(** * Further properties *)

(** ** Paths: what the tools can reach *)

Section MorePathLemmas.

(** The model of [Dir] on the table of Go's own tests. *)
Example Dir_cases :
  map Filepath.Dir
    [""; "."; "/."; "/"; "/foo"; "x/"; "abc"; "abc/def"; "a/b/.x"; "a/b/c.";
     "a/b/c.x"; "////"; "/ws/docs/a.txt"]
  = ["."; "."; "/"; "/"; "/"; "x"; "."; "abc"; "a/b"; "a/b";
     "a/b"; "/"; "/ws/docs"].
Proof. vm_compute. reflexivity. Qed.

(** What [Clean] keeps of a path that is not rooted: no empty element. *)
Lemma cleanStep_nonempty (acc : list string) (e : string) :
  Forall (fun x => x <> "") acc ->
  Forall (fun x => x <> "") (Filepath.cleanStep false acc e).
Proof.
  intros Hacc. unfold Filepath.cleanStep.
  repeat case_decide; try assumption.
  - destruct acc as [| top acc]; [subst; repeat constructor; discriminate |].
    case_decide; [| now inversion Hacc].
    constructor; [subst; discriminate | assumption].
  - constructor; assumption.
Qed.

Lemma cleanFold_nonempty (elems : list string) :
  forall acc, Forall (fun x => x <> "") acc ->
              Forall (fun x => x <> "")
                (fold_left (Filepath.cleanStep false) elems acc).
Proof.
  induction elems as [| e elems IH]; intros acc Hacc; [exact Hacc |].
  cbn. apply IH. now apply cleanStep_nonempty.
Qed.

Lemma cleanStep_noSeparator (rooted : bool) (acc : list string) (e : string) :
  noSeparator e -> Forall noSeparator acc ->
  Forall noSeparator (Filepath.cleanStep rooted acc e).
Proof.
  intros He Hacc. unfold Filepath.cleanStep.
  repeat case_decide; try assumption.
  - destruct acc as [| top acc].
    + destruct rooted; [assumption | now constructor].
    + case_decide; [destruct rooted; [assumption | now constructor] |].
      now inversion Hacc.
  - now constructor.
Qed.

Lemma cleanFold_noSeparator (rooted : bool) (elems : list string) :
  forall acc, Forall noSeparator elems -> Forall noSeparator acc ->
              Forall noSeparator (fold_left (Filepath.cleanStep rooted) elems acc).
Proof.
  induction elems as [| e elems IH]; intros acc Hel Hacc; [exact Hacc |].
  inversion Hel; subst. cbn. apply IH; [assumption |].
  now apply cleanStep_noSeparator.
Qed.

(** [Clean] keeps a path that is not rooted so. *)
Lemma Clean_relative (p : string) :
  Filepath.IsAbs p = false -> Filepath.IsAbs (Filepath.Clean p) = false.
Proof.
  intros Hrel. unfold Filepath.Clean. rewrite Hrel.
  case_decide; [reflexivity |].
  set (es := Filepath.cleanElems false (Strings.Split p Filepath.Separator)) in *.
  assert (Hne : Forall (fun x => x <> "") es).
  { apply Forall_rev, cleanFold_nonempty. constructor. }
  assert (Hno : Forall noSeparator es).
  { apply Forall_rev, cleanFold_noSeparator;
      [apply Split_noSeparator | constructor]. }
  destruct es as [| e es]; [reflexivity |].
  inversion Hne as [| ? ? He _]; inversion Hno as [| ? ? Hsep _]; subst.
  destruct e as [| c e]; [congruence |]. destruct Hsep as [Hc _].
  apply Ascii.eqb_neq in Hc. unfold Filepath.Separator in Hc.
  assert (Hhead : forall rest, Filepath.IsAbs (String c rest) = false).
  { intros rest. unfold Filepath.IsAbs. cbn [Strings.HasPrefix]. now rewrite Hc. }
  destruct es; [apply Hhead |].
  rewrite Join_cons by discriminate. apply Hhead.
Qed.

(** A path that [Rel] places under an absolute base without a leading
    [..]: it is rooted, and its cleaned form has the elements of the
    cleaned base followed by the elements of the relative path. *)
Lemma Rel_inside (base targ rel : string) :
  Filepath.IsAbs base = true ->
  Filepath.Rel base targ = Ok rel ->
  Strings.HasPrefix rel ".." = false ->
  exists elems,
    Forall properElem elems
    /\ Filepath.IsAbs targ = true
    /\ Filepath.Clean targ
       = "/" +:+ Strings.Join
                   (Filepath.cleanElems true (Strings.Split base Filepath.Separator)
                    ++ elems) "/"
    /\ rel = (if decide (elems = []) then "." else Strings.Join elems "/").
Proof.
  intros Hbase Hrel Hdots.
  set (bs := Filepath.cleanElems true (Strings.Split base Filepath.Separator)).
  assert (Hbs : Forall properElem bs)
    by apply cleanElems_proper, Split_noSeparator.
  assert (Hroot : Filepath.Clean base = "/" +:+ Strings.Join bs "/")
    by now apply Clean_rooted.
  assert (Habs : Filepath.IsAbs targ = true).
  { destruct (Filepath.IsAbs targ) eqn:Ht; [reflexivity |].
    apply Clean_relative in Ht. unfold Filepath.Rel in Hrel.
    rewrite Hroot in Hrel. case_decide as Hsame.
    - rewrite Hsame in Ht. discriminate.
    - rewrite Ht, IsAbs_rooted in Hrel. discriminate. }
  destruct (Clean_elems targ Habs) as (es & Hes & Hclean).
  unfold Filepath.Rel in Hrel. rewrite Hroot, Hclean in Hrel.
  case_decide as Hsame.
  - injection Hrel as <-. exists []. rewrite app_nil_r.
    split_and!; [constructor | exact Habs | now rewrite Hclean, Hsame | reflexivity].
  - rewrite !IsAbs_rooted in Hrel. cbn [Bool.eqb negb] in Hrel.
    rewrite (relElems_of_elems bs Hbs), (relElems_of_elems es Hes) in Hrel.
    destruct (Filepath.dropCommon bs es) as [b t] eqn:Hdrop.
    destruct b as [| b0 b].
    + injection Hrel as <-. apply dropCommon_nil in Hdrop. subst es.
      exists t. apply Forall_app in Hes as [_ Ht].
      split_and!; [exact Ht | exact Habs | exact Hclean |].
      case_decide as Hnil; [| reflexivity].
      subst t. rewrite app_nil_r in Hsame. congruence.
    + case_decide; [discriminate |]. injection Hrel as Hrel. subst rel.
      destruct (map (fun _ => "..") b ++ t); discriminate.
Qed.

End MorePathLemmas.

Section Reach.
Context {World : Type} `{Env World}.

Lemma Clean_workspace (ts : ToolSet) :
  Filepath.IsAbs (workspace ts) = true ->
  Filepath.Clean (workspace ts) = rootedPath (workspaceElems ts).
Proof. apply Clean_rooted. Qed.

Lemma workspaceElems_proper (ts : ToolSet) : Forall properElem (workspaceElems ts).
Proof. apply cleanElems_proper, Split_noSeparator. Qed.

Lemma rootedPath_prefix (bs elems : list string) :
  Strings.HasPrefix (rootedPath (bs ++ elems)) (rootedPath bs) = true.
Proof.
  unfold rootedPath. destruct (Join_app_prefix bs elems "/") as (more & ->).
  rewrite <- append_assoc. apply HasPrefix_append.
Qed.

(** What [validatePath] accepts, in an absolute workspace: a rooted path
    made of the elements of the root and further proper elements, the
    first of which does not start with two dots. *)
Lemma validatePath_accepts (ts : ToolSet) (path : string) (w : World)
    (absPath : string) :
  Filepath.IsAbs (workspace ts) = true ->
  validatePath ts path w = Ok absPath ->
  exists elems,
    Forall properElem elems
    /\ absPath = rootedPath (workspaceElems ts ++ elems)
    /\ Strings.HasPrefix (Strings.Join elems "/") ".." = false.
Proof.
  intros Hws. unfold validatePath.
  set (path' := if negb (Filepath.IsAbs path)
                then Filepath.Join [workspace ts; path] else path).
  assert (Habs : Filepath.IsAbs path' = true).
  { unfold path'. destruct (Filepath.IsAbs path) eqn:Hp; cbn [negb];
      [exact Hp | now apply Join_workspace_abs]. }
  unfold Filepath.Abs. rewrite Habs.
  destruct (Clean_elems path' Habs) as (es & Hes & Hclean).
  destruct (Filepath.Rel (workspace ts) (Filepath.Clean path')) as [rel | err]
    eqn:Hrel; [| discriminate].
  destruct (Strings.HasPrefix rel "..") eqn:Hdots; [discriminate |].
  intros Hok. injection Hok as <-.
  destruct (Rel_inside _ _ _ Hws Hrel Hdots) as (elems & Hel & _ & Hin & Hr).
  exists elems. split_and!; [exact Hel | |].
  - unfold rootedPath, workspaceElems. rewrite <- Hin, Hclean.
    symmetry. now apply Clean_of_elems.
  - subst rel. case_decide as Hnil; [now subst elems | exact Hdots].
Qed.

(** What [validatePath] does with a rooted path made of the elements of
    the root and further proper elements. *)
Lemma validatePath_of_rooted (ts : ToolSet) (elems : list string) (w : World) :
  Filepath.IsAbs (workspace ts) = true ->
  Forall properElem elems ->
  validatePath ts (rootedPath (workspaceElems ts ++ elems)) w
  = if Strings.HasPrefix (Strings.Join elems "/") ".."
    then Err ("path outside workspace: "
              +:+ rootedPath (workspaceElems ts ++ elems))
    else Ok (rootedPath (workspaceElems ts ++ elems)).
Proof.
  intros Hws Hel.
  pose proof (workspaceElems_proper ts) as Hbs.
  pose proof (Clean_workspace ts Hws) as Hroot.
  set (bs := workspaceElems ts) in *.
  assert (Hall : Forall properElem (bs ++ elems)) by now apply Forall_app.
  unfold validatePath, rootedPath in *. rewrite IsAbs_rooted. cbn [negb].
  unfold Filepath.Abs. rewrite IsAbs_rooted.
  rewrite (Clean_of_elems _ Hall).
  unfold Filepath.Rel. rewrite Hroot, (Clean_of_elems _ Hall).
  case_decide as Hsame.
  - apply (f_equal Filepath.relElems) in Hsame.
    rewrite (relElems_of_elems _ Hall), (relElems_of_elems _ Hbs) in Hsame.
    assert (elems = []) as ->.
    { apply (f_equal length) in Hsame. rewrite length_app in Hsame.
      destruct elems; [reflexivity | cbn in Hsame; lia]. }
    reflexivity.
  - rewrite !IsAbs_rooted. cbn [Bool.eqb negb].
    rewrite (relElems_of_elems _ Hbs), (relElems_of_elems _ Hall).
    rewrite dropCommon_app. reflexivity.
Qed.

(** X1. In an absolute workspace, a path that [validatePath] accepts is
    the cleaned root followed by proper elements (no [.], no [..], no
    empty element): it is the root or lies under it, it is already clean,
    and [validatePath] accepts it again unchanged. *)
Theorem validatePath_accepts_inside_and_stable (ts : ToolSet) (path : string)
    (w : World) (absPath : string) :
  Filepath.IsAbs (workspace ts) = true ->
  validatePath ts path w = Ok absPath ->
  exists elems,
    Forall properElem elems
    /\ Filepath.Clean (workspace ts) = rootedPath (workspaceElems ts)
    /\ absPath = rootedPath (workspaceElems ts ++ elems)
    /\ Strings.HasPrefix absPath (Filepath.Clean (workspace ts)) = true
    /\ Filepath.Clean absPath = absPath
    /\ validatePath ts absPath w = Ok absPath.
Proof.
  intros Hws Hok.
  destruct (validatePath_accepts _ _ _ _ Hws Hok) as (elems & Hel & -> & Hdots).
  exists elems. rewrite (Clean_workspace ts Hws).
  split_and!; [exact Hel | reflexivity | reflexivity | apply rootedPath_prefix | |].
  - apply Clean_of_elems, Forall_app. split; [apply workspaceElems_proper | exact Hel].
  - rewrite (validatePath_of_rooted ts elems w Hws Hel). now rewrite Hdots.
Qed.

(** In an absolute workspace, a relative path of proper elements and
    its absolute spelling under the root are treated alike: both resolve to
    the root followed by these elements, and both are accepted unless the
    first element starts with two dots. *)
Lemma validatePath_relative_and_absolute_agree (ts : ToolSet)
    (elems : list string) (w : World) :
  Filepath.IsAbs (workspace ts) = true ->
  Forall properElem elems ->
  let absPath := rootedPath (workspaceElems ts ++ elems) in
  validatePath ts (Strings.Join elems "/") w = validatePath ts absPath w
  /\ validatePath ts absPath w
     = if Strings.HasPrefix (Strings.Join elems "/") ".."
       then Err ("path outside workspace: " +:+ absPath)
       else Ok absPath.
Proof.
  intros Hws Hel. cbv zeta.
  rewrite (validatePath_of_rooted ts elems w Hws Hel).
  split; [| reflexivity].
  exact (proj2 (validatePath_under_root ts elems w Hws Hel)).
Qed.

(** X2. In an absolute workspace, what [ReadFile] returns is the content
    of a file at a path under the root (the root followed by proper
    elements) that [os.Stat] reports as a regular file within the size
    limit. *)
Theorem ReadFile_reads_inside (ts : ToolSet) (path : string) (w : World)
    (content : string) :
  Filepath.IsAbs (workspace ts) = true ->
  ReadFile ts path w = Ok content ->
  exists elems info,
    let absPath := rootedPath (workspaceElems ts ++ elems) in
    Forall properElem elems
    /\ validatePath ts path w = Ok absPath
    /\ os_Stat absPath w = Ok info
    /\ fi_IsDir info = false
    /\ (fi_Size info <= maxFileSize ts)%Z
    /\ os_ReadFile absPath w = Ok content.
Proof.
  intros Hws. unfold ReadFile.
  destruct (validatePath ts path w) as [absPath | err] eqn:Hpath; [| discriminate].
  destruct (validatePath_accepts _ _ _ _ Hws Hpath) as (elems & Hel & -> & _).
  destruct (os_Stat _ w) as [info | err] eqn:Hstat; [| discriminate].
  destruct (fi_IsDir info) eqn:Hdir; [discriminate |].
  destruct (fi_Size info >? maxFileSize ts)%Z eqn:Hsize; [discriminate |].
  destruct (os_ReadFile _ w) as [c | err] eqn:Hread; [| discriminate].
  intros Hok. injection Hok as <-.
  exists elems, info. cbv zeta.
  pose proof (Zgt_cases (fi_Size info) (maxFileSize ts)) as Hle.
  rewrite Hsize in Hle.
  split_and!; try reflexivity; assumption.
Qed.

End Reach.

Lemma validatePath_accepts_inside_and_stable_witness :
  exists elems,
    validatePath (NewToolSet "/ws") "docs/../a.txt" Example.world
    = Ok (rootedPath (workspaceElems (NewToolSet "/ws") ++ elems))
    /\ validatePath (NewToolSet "/ws") "/ws/a.txt" Example.world = Ok "/ws/a.txt".
Proof.
  destruct (validatePath_accepts_inside_and_stable (NewToolSet "/ws")
              "docs/../a.txt" Example.world "/ws/a.txt" eq_refl eq_refl)
    as (elems & _ & _ & Hpath & _ & _ & Hagain).
  exists elems. split; [| exact Hagain]. rewrite <- Hpath. reflexivity.
Defined.

Lemma ReadFile_reads_inside_witness :
  exists elems info,
    os_Stat (rootedPath (workspaceElems (NewToolSet "/ws") ++ elems))
      Example.world = Ok info
    /\ fi_IsDir info = false
    /\ os_ReadFile (rootedPath (workspaceElems (NewToolSet "/ws") ++ elems))
         Example.world = Ok "hello".
Proof.
  assert (Hok : ReadFile (NewToolSet "/ws") "a.txt" Example.world = Ok "hello")
    by (vm_compute; reflexivity).
  destruct (ReadFile_reads_inside (NewToolSet "/ws") "a.txt" Example.world
              "hello" eq_refl Hok)
    as (elems & info & _ & _ & Hstat & Hdir & _ & Hread).
  exists elems, info. split_and!; assumption.
Defined.

Section WriteAndGlob.
Context {World : Type} `{Env World} `{FileOps World}.

(** [Dir] of a rooted clean path drops its last element. *)
Lemma Dir_of_rooted (es : list string) :
  Forall properElem es ->
  Filepath.Dir (rootedPath es) = rootedPath (removelast es).
Proof.
  intros Hall. destruct (decide (es = [])) as [-> | Hne]; [reflexivity |].
  destruct (exists_last Hne) as (front & l & ->).
  rewrite removelast_last. unfold Filepath.Dir, Filepath.dirPart, rootedPath.
  change (Strings.Split ("/" +:+ Strings.Join (front ++ [l]) "/") Filepath.Separator)
    with ("" :: Strings.Split (Strings.Join (front ++ [l]) "/") Filepath.Separator).
  rewrite Split_Join by (assumption || now apply proper_noSeparator).
  change ("" :: front ++ [l]) with (("" :: front) ++ [l]).
  rewrite removelast_last.
  apply Forall_app in Hall as [Hfront _].
  destruct front as [| e front]; [reflexivity |].
  change (Strings.Join ("" :: e :: front) "/" +:+ "/")
    with (("/" +:+ Strings.Join (e :: front) "/") +:+ "/" +:+ "").
  rewrite Clean_rooted by (apply IsAbs_append, IsAbs_rooted).
  rewrite Split_append_sep.
  change (Strings.Split "" Filepath.Separator) with [""].
  now rewrite cleanElems_app_empty, Split_rooted.
Qed.

(** X3. [WriteFile] in an absolute workspace. A rejected path is reported
    and nothing is touched. An accepted path is the root followed by
    proper elements; the directory handed to [os.MkdirAll] is that path
    without its last element, so it lies at or under the root whenever the
    path is not the root itself; when the directory cannot be made,
    nothing is written; otherwise [os.WriteFile] is called on the accepted
    path, with the content given. *)
Theorem WriteFile_stays_inside (ts : ToolSet) (path content : string) (w : World) :
  Filepath.IsAbs (workspace ts) = true ->
  match validatePath ts path w with
  | Err err => Files.WriteFile ts path content w = (Some err, w)
  | Ok absPath =>
      exists elems,
        Forall properElem elems
        /\ absPath = rootedPath (workspaceElems ts ++ elems)
        /\ Filepath.Dir absPath = rootedPath (removelast (workspaceElems ts ++ elems))
        /\ (elems <> [] ->
              Filepath.Dir absPath
              = rootedPath (workspaceElems ts ++ removelast elems))
        /\ Files.WriteFile ts path content w
           = match os_MkdirAll (Filepath.Dir absPath) 493 w with
             | (Some err, w1) =>
                 (Some ("failed to create directory: " +:+ err), w1)
             | (None, w1) =>
                 match os_WriteFile absPath content 384 w1 with
                 | (Some err, w2) => (Some ("failed to write file: " +:+ err), w2)
                 | (None, w2) => (None, w2)
                 end
             end
  end.
Proof.
  intros Hws. unfold Files.WriteFile.
  destruct (validatePath ts path w) as [absPath | err] eqn:Hpath; [| reflexivity].
  destruct (validatePath_accepts _ _ _ _ Hws Hpath) as (elems & Hel & -> & _).
  assert (Hall : Forall properElem (workspaceElems ts ++ elems)).
  { apply Forall_app. split; [apply workspaceElems_proper | exact Hel]. }
  exists elems. rewrite (Dir_of_rooted _ Hall).
  split_and!; [exact Hel | reflexivity | reflexivity | |].
  - intros Hne. now rewrite removelast_app.
  - unfold bind, ret.
    destruct (os_MkdirAll _ 493%Z w) as [[err |] w1]; [reflexivity |].
    destruct (os_WriteFile _ content 384%Z w1) as [[err |] w2]; reflexivity.
Qed.

(** The loop of [GlobFiles]: what it appends to the result. *)
Lemma globFilter_spec (ts : ToolSet) (matches : list string) :
  Filepath.IsAbs (workspace ts) = true ->
  forall result, exists kept,
    default [] (Files.globFilter ts matches result) = default [] result ++ kept
    /\ (Files.globFilter ts matches result = None <-> result = None /\ kept = [])
    /\ length kept <= length matches
    /\ Forall (fun r =>
         exists m elems,
           m ∈ matches
           /\ Forall properElem elems
           /\ Filepath.Clean m = rootedPath (workspaceElems ts ++ elems)
           /\ r = (if decide (elems = []) then "." else Strings.Join elems "/")
           /\ Strings.HasPrefix r ".." = false) kept.
Proof.
  intros Hws. induction matches as [| m rest IH]; intros result.
  - exists []. cbn. rewrite app_nil_r. split_and!; [reflexivity | tauto | lia | constructor].
  - cbn [Files.globFilter].
    assert (Hskip : exists kept,
              default [] (Files.globFilter ts rest result) = default [] result ++ kept
              /\ (Files.globFilter ts rest result = None <-> result = None /\ kept = [])
              /\ length kept <= length (m :: rest)
              /\ Forall (fun r =>
                   exists m0 elems,
                     m0 ∈ m :: rest
                     /\ Forall properElem elems
                     /\ Filepath.Clean m0 = rootedPath (workspaceElems ts ++ elems)
                     /\ r = (if decide (elems = []) then "." else Strings.Join elems "/")
                     /\ Strings.HasPrefix r ".." = false) kept).
    { destruct (IH result) as (kept & Hk & Hnil & Hlen & Hall).
      exists kept. split_and!; [exact Hk | exact Hnil | cbn; lia |].
      eapply Forall_impl; [exact Hall |].
      intros r (m0 & elems & Hin & Hrest). exists m0, elems.
      split; [now right | exact Hrest]. }
    destruct (Filepath.Rel (workspace ts) m) as [rel | err] eqn:Hrel; [| exact Hskip].
    destruct (Strings.HasPrefix rel "..") eqn:Hdots; [exact Hskip |].
    destruct (IH (Some (default [] result ++ [rel]))) as (kept & Hk & Hnil & Hlen & Hall).
    exists (rel :: kept). split_and!.
    + rewrite Hk. simpl. now rewrite <- app_assoc.
    + split; [intros Hn; apply Hnil in Hn as [Hn _]; discriminate |].
      intros [_ Hn]. discriminate.
    + cbn. lia.
    + constructor.
      * destruct (Rel_inside _ _ _ Hws Hrel Hdots) as (elems & Hel & _ & Hin & Hr).
        exists m, elems. split_and!; [now left | exact Hel | exact Hin | exact Hr | exact Hdots].
      * eapply Forall_impl; [exact Hall |].
        intros r (m0 & elems & Hin & Hrest). exists m0, elems.
        split; [now right | exact Hrest].
Qed.

(** X4. [GlobFiles] in an absolute workspace returns only paths relative
    to the root that name a match under the root: each is [.] or the
    joined proper elements that follow the root in the cleaned match, none
    starts with two dots, at most one is returned per match, and the
    result is nil, not an empty slice, when no match is kept. *)
Theorem GlobFiles_results_inside (ts : ToolSet) (pattern : string) (w : World)
    (files : slice string) :
  Filepath.IsAbs (workspace ts) = true ->
  Files.GlobFiles ts pattern w = Ok files ->
  exists matches,
    filepath_Glob (if negb (Filepath.IsAbs pattern)
                   then Filepath.Join [workspace ts; pattern] else pattern) w
    = Ok matches
    /\ (files = None <-> default [] files = [])
    /\ len files <= len matches
    /\ Forall (fun r =>
         exists m elems,
           m ∈ default [] matches
           /\ Forall properElem elems
           /\ Filepath.Clean m = rootedPath (workspaceElems ts ++ elems)
           /\ r = (if decide (elems = []) then "." else Strings.Join elems "/")
           /\ Strings.HasPrefix r ".." = false) (default [] files).
Proof.
  intros Hws. unfold Files.GlobFiles.
  destruct (filepath_Glob _ w) as [matches | err]; [| discriminate].
  intros Hok. injection Hok as <-. exists matches.
  destruct (globFilter_spec ts (default [] matches) Hws None)
    as (kept & Hk & Hnil & Hlen & Hall).
  simpl in Hk.
  split_and!; [reflexivity | | |].
  - rewrite Hk. split; [intros Hn; now apply Hnil in Hn | intros Hn; now apply Hnil].
  - unfold len at 1.
    destruct (Files.globFilter ts (default [] matches) None) as [l |] eqn:Hres;
      simpl in Hk.
    + subst l. destruct matches; simpl in *; lia.
    + lia.
  - rewrite Hk. exact Hall.
Qed.

End WriteAndGlob.

Lemma WriteFile_stays_inside_witness :
  (Files.WriteFile (NewToolSet "/ws") "docs/new.txt" "draft" Example.world).1 = None
  /\ Example.files
       (Files.WriteFile (NewToolSet "/ws") "docs/new.txt" "draft" Example.world).2
     !! "/ws/docs/new.txt" = Some (Example.File "draft")
  /\ Files.WriteFile (NewToolSet "/ws") "../etc/passwd" "draft" Example.world
     = (Some "path outside workspace: /etc/passwd", Example.world).
Proof.
  pose proof (WriteFile_stays_inside (NewToolSet "/ws") "docs/new.txt" "draft"
                Example.world eq_refl) as Hin.
  pose proof (WriteFile_stays_inside (NewToolSet "/ws") "../etc/passwd" "draft"
                Example.world eq_refl) as Hout.
  cbn in Hout. destruct Hin as (elems & _ & _ & _ & _ & Hin).
  rewrite Hin, Hout. split_and!; [| | reflexivity]; vm_compute; reflexivity.
Defined.

Lemma GlobFiles_results_inside_witness :
  Files.GlobFiles (NewToolSet "/ws") "*" Example.world
  = Ok (Some ["a.txt"; "docs"])
  /\ Files.GlobFiles (NewToolSet "/ws") "/et*" Example.world = Ok None
  /\ exists matches,
       filepath_Glob "/ws/*" Example.world = Ok matches
       /\ len (Some ["a.txt"; "docs"]) <= len matches.
Proof.
  assert (Hglob : Files.GlobFiles (NewToolSet "/ws") "*" Example.world
                  = Ok (Some ["a.txt"; "docs"])) by (vm_compute; reflexivity).
  split; [exact Hglob |]. split; [vm_compute; reflexivity |].
  destruct (GlobFiles_results_inside (NewToolSet "/ws") "*" Example.world
              (Some ["a.txt"; "docs"]) eq_refl Hglob)
    as (matches & Hm & _ & Hlen & _).
  exists matches. split; [exact Hm | exact Hlen].
Defined.

(** ** The tools behind the [Tool] interface *)

Section ToolInterface.
Context {World : Type} `{Env World} `{Lib}.

Lemma toolNamed_valid (ts : ToolSet) (toolName : string) :
  toolName ∈ validTools -> is_Some (toolNamed ts toolName).
Proof.
  unfold validTools, toolNamed. intros Hin.
  repeat (apply elem_of_cons in Hin as [-> | Hin]; [eexists; reflexivity |]).
  now apply elem_of_nil in Hin.
Qed.

Lemma toolNamed_invalid (ts : ToolSet) (toolName : string) :
  toolName ∉ validTools -> toolNamed ts toolName = None.
Proof.
  unfold validTools, toolNamed. intros Hout.
  repeat (case_decide; [subst; exfalso; apply Hout; set_solver |]).
  reflexivity.
Qed.

Lemma toolNamed_name (ts : ToolSet) (toolName : string) (tool : Tool World) :
  toolNamed ts toolName = Some tool -> tool_Name tool = toolName.
Proof.
  unfold toolNamed.
  repeat (case_decide; [intros Hsome; injection Hsome as <-; now subst |]).
  discriminate.
Qed.

Lemma CreateToolsFrom_step (ts : ToolSet) (n : string) (names : list string)
    (acc : list (Tool World)) :
  CreateToolsFrom ts (n :: names) acc
  = match toolNamed ts n with
    | Some tool => CreateToolsFrom ts names (acc ++ [tool])
    | None => Err ("unknown tool: " +:+ n)
    end.
Proof.
  cbn [CreateToolsFrom]. unfold toolNamed. repeat case_decide; reflexivity.
Qed.

(** The loop of [CreateTools]: one tool per name, appended in order, up
    to the first name it does not know. *)
Lemma CreateToolsFrom_spec (ts : ToolSet) (names : list string) :
  forall acc,
    CreateToolsFrom ts names acc
    = match list_find (fun n => toolNamed ts n = None) names with
      | Some (_, bad) => Err ("unknown tool: " +:+ bad)
      | None => Ok (acc ++ omap (toolNamed ts) names)
      end.
Proof.
  induction names as [| n names IH]; intros acc.
  - cbn. now rewrite app_nil_r.
  - rewrite CreateToolsFrom_step. cbn [list_find omap].
    destruct (toolNamed ts n) as [tool |] eqn:Hn.
    + rewrite decide_False by discriminate. rewrite IH.
      destruct (list_find _ names) as [[i bad] |]; cbn; [reflexivity |].
      rewrite Hn. now rewrite <- app_assoc.
    + rewrite decide_True by reflexivity. reflexivity.
Qed.

(** X5. [CreateTools] succeeds exactly on lists of known tool names. It
    then returns one tool per name, in the order of the names and under
    these names, duplicates included; otherwise it returns no tools and
    the error names the first unknown name. *)
Theorem CreateTools_one_tool_per_name (ts : ToolSet) (names : list string) :
  (Forall (fun n => n ∈ validTools) names ->
     exists tools,
       CreateTools ts names = Ok tools
       /\ map tool_Name tools = names
       /\ Forall2 (fun n tool => toolNamed ts n = Some tool) names tools)
  /\ (forall known bad rest,
        names = known ++ bad :: rest ->
        Forall (fun n => n ∈ validTools) known -> bad ∉ validTools ->
        CreateTools ts names = Err ("unknown tool: " +:+ bad)).
Proof.
  unfold CreateTools. split.
  - intros Hall. rewrite CreateToolsFrom_spec.
    destruct (list_find _ names) as [[i bad] |] eqn:Hfind.
    + apply list_find_Some in Hfind as (Hi & Hbad & _).
      apply list_elem_of_lookup_2 in Hi.
      rewrite Forall_forall in Hall. apply Hall, (toolNamed_valid ts) in Hi.
      rewrite Hbad in Hi. now destruct Hi.
    + clear Hfind. exists (omap (toolNamed ts) names).
      split; [reflexivity |].
      induction Hall as [| n names Hn Hall [IHn IHt]]; [split; [reflexivity | constructor] |].
      destruct (toolNamed_valid ts n Hn) as [tool Htool].
      cbn. rewrite Htool. cbn. split.
      * f_equal; [now apply toolNamed_name in Htool | exact IHn].
      * constructor; assumption.
  - intros known bad rest -> Hknown Hbad. rewrite CreateToolsFrom_spec.
    assert (Hfind : list_find (fun n => toolNamed ts n = None) (known ++ bad :: rest)
                    = Some (length known, bad)).
    { apply list_find_Some. split_and!.
      - now rewrite lookup_app_r, Nat.sub_diag by lia.
      - now apply toolNamed_invalid.
      - intros j n Hj Hlt. rewrite lookup_app_l in Hj by exact Hlt.
        apply list_elem_of_lookup_2 in Hj.
        rewrite Forall_forall in Hknown. apply Hknown, (toolNamed_valid ts) in Hj.
        intros Hnone. rewrite Hnone in Hj. now destruct Hj. }
    now rewrite Hfind.
Qed.

Lemma toolNamed_cases (ts : ToolSet) (toolName : string) (tool : Tool World) :
  toolNamed ts toolName = Some tool ->
  (toolName = "read" /\ tool = ReadTool ts)
  \/ (toolName = "write" /\ tool = WriteTool ts)
  \/ (toolName = "glob" /\ tool = GlobTool ts)
  \/ (toolName = "grep" /\ tool = GrepTool ts)
  \/ (toolName = "shell" /\ tool = ShellTool ts).
Proof.
  unfold toolNamed. intros Htool.
  repeat (case_decide; [injection Htool as <-; tauto |]). discriminate.
Qed.

(** X6. Every tool of tools.go tests one argument first: called without
    it, or with a value there that is not a string, the tool returns the
    error [<argument> argument required] and leaves the world as it is. The
    write tool does the same for its second argument, [content]. *)
Theorem tools_require_their_argument (ts : ToolSet) (toolName : string)
    (tool : Tool World) (args : gmap string any) (w : World) :
  toolNamed ts toolName = Some tool ->
  (assertString (args !! requiredArg toolName) = None ->
     tool_Execute tool args w
     = (Err (requiredArg toolName +:+ " argument required"), w))
  /\ (toolName = "write" -> is_Some (assertString (args !! "path")) ->
        assertString (args !! "content") = None ->
        tool_Execute tool args w = (Err "content argument required", w)).
Proof.
  intros Htool.
  destruct (toolNamed_cases _ _ _ Htool)
    as [[-> ->] | [[-> ->] | [[-> ->] | [[-> ->] | [-> ->]]]]];
    (split;
     [ intros Hmiss;
       match type of Hmiss with
       | context [requiredArg ?n] =>
           let k := eval vm_compute in (requiredArg n) in
           change (requiredArg n) with k in *
       end;
       cbn; rewrite Hmiss; reflexivity
     | intros Hw; try discriminate Hw;
       intros [p Hpath] Hmiss; cbn; rewrite Hpath, Hmiss; reflexivity ]).
Qed.

End ToolInterface.

Lemma CreateTools_one_tool_per_name_witness :
  (exists tools : list (Tool Example.World),
     CreateTools (NewToolSet "/ws") ["read"; "shell"; "read"] = Ok tools
     /\ map tool_Name tools = ["read"; "shell"; "read"])
  /\ CreateTools (World := Example.World) (NewToolSet "/ws") ["read"; "sudo"; "rm"]
     = Err "unknown tool: sudo".
Proof.
  destruct (CreateTools_one_tool_per_name (World := Example.World)
              (NewToolSet "/ws") ["read"; "shell"; "read"]) as [Hok _].
  destruct (CreateTools_one_tool_per_name (World := Example.World)
              (NewToolSet "/ws") ["read"; "sudo"; "rm"]) as [_ Hbad].
  split.
  - destruct Hok as (tools & Hcreate & Hnames & _).
    + apply (bool_decide_unpack _). vm_compute. exact I.
    + exists tools. split; assumption.
  - apply (Hbad ["read"] "sudo" ["rm"] eq_refl);
      apply (bool_decide_unpack _); vm_compute; exact I.
Defined.

Lemma tools_require_their_argument_witness :
  tool_Execute (ShellTool (World := Example.World) (NewToolSet "/ws"))
    {[ "cmd" := AnyString "ls" ]} Example.world
  = (Err "command argument required", Example.world)
  /\ tool_Execute (ReadTool (World := Example.World) (NewToolSet "/ws"))
       {[ "path" := AnyNumber "7" ]} Example.world
     = (Err "path argument required", Example.world)
  /\ tool_Execute (WriteTool (World := Example.World) (NewToolSet "/ws"))
       {[ "path" := AnyString "a.txt" ]} Example.world
     = (Err "content argument required", Example.world).
Proof.
  split_and!.
  - apply (tools_require_their_argument (NewToolSet "/ws") "shell"); reflexivity.
  - apply (tools_require_their_argument (NewToolSet "/ws") "read"); reflexivity.
  - apply (tools_require_their_argument (NewToolSet "/ws") "write");
      [reflexivity | reflexivity | now eexists | reflexivity].
Defined.

(** ** The agent and its tools *)

Section AgentTools.
Context {World : Type} `{Env World} `{Lib}.

Lemma CreateTools_inv (ts : ToolSet) (names : list string)
    (tools : list (Tool World)) :
  CreateTools ts names = Ok tools ->
  Forall2 (fun n tool => toolNamed ts n = Some tool) names tools.
Proof.
  unfold CreateTools. rewrite CreateToolsFrom_spec.
  destruct (list_find _ names) as [[i bad] |] eqn:Hfind; [discriminate |].
  intros Hok. injection Hok as <-. cbn [app].
  apply list_find_None in Hfind.
  induction Hfind as [| n names Hn Hall IH]; [constructor |].
  cbn. destruct (toolNamed ts n) as [tool |] eqn:Htool; [| congruence].
  constructor; assumption.
Qed.

Lemma CreateTools_names (ts : ToolSet) (names : list string)
    (tools : list (Tool World)) :
  CreateTools ts names = Ok tools -> map tool_Name tools = names.
Proof.
  intros Hok. apply CreateTools_inv in Hok.
  induction Hok as [| n tool names tools Hn _ IH]; [reflexivity |].
  cbn. f_equal; [now apply toolNamed_name in Hn | exact IH].
Qed.

(** What [NewEmbeddedAgent] puts into the agent. *)
Lemma NewEmbeddedAgent_inv (cfg : AgentConfig) (ts : ToolSet)
    (client : LLMClient World) (w : World) (a : EmbeddedAgent World) :
  NewEmbeddedAgent cfg ts client w = Ok a ->
  name a = cfg_Name cfg
  /\ description a = cfg_Description cfg
  /\ llm a = client
  /\ CreateTools ts (cfg_Tools cfg) = Ok (tools a)
  /\ maxTokens a = (if (cfg_MaxTokens cfg =? 0)%Z then 4096%Z
                    else cfg_MaxTokens cfg).
Proof.
  unfold NewEmbeddedAgent.
  destruct (if Strings.HasSuffix _ _ then _ else _) as [text | err];
    [| discriminate].
  destruct (CreateTools ts (cfg_Tools cfg)) as [tools |]; [| discriminate].
  intros Hok. injection Hok as <-. cbn. tauto.
Qed.

(** The dispatch of [executeTool] over tools made by [CreateTools]. *)
Lemma executeToolIn_created (ts : ToolSet) (names : list string)
    (tools : list (Tool World)) (tc : ToolCall) (w : World) :
  Forall2 (fun n tool => toolNamed ts n = Some tool) names tools ->
  executeToolIn tools tc w
  = match (if decide (tc_Name tc ∈ names)
           then toolNamed ts (tc_Name tc) else None) with
    | Some tool => tool_Execute tool (tc_Arguments tc) w
    | None => (Err ("unknown tool: " +:+ tc_Name tc), w)
    end.
Proof.
  induction 1 as [| n tool names tools Hn _ IH].
  - rewrite decide_False by apply not_elem_of_nil. reflexivity.
  - cbn [executeToolIn]. pose proof (toolNamed_name _ _ _ Hn) as Hname.
    destruct (decide (tool_Name tool = tc_Name tc)) as [Hcall | Hcall].
    + rewrite Hname in Hcall. rewrite Hcall in Hn |- *.
      rewrite decide_True by apply list_elem_of_here.
      now rewrite Hn.

    + rewrite IH. rewrite Hname in Hcall.
      destruct (decide (tc_Name tc ∈ names)) as [Hin | Hout].
      * rewrite decide_True by now apply list_elem_of_further. reflexivity.
      * rewrite decide_False; [reflexivity |].
        intros [Heq | Hin]%elem_of_cons; congruence.
Qed.

(** X7. An agent made by [NewEmbeddedAgent] can run exactly the tools that
    its configuration lists: a tool call whose name is listed runs the
    tool that [CreateTools] makes for this name, on the arguments of the
    call; any other call returns the error [unknown tool: <name>] and
    leaves the world as it is, also when the name is that of a tool which
    exists but is not listed. *)
Theorem agent_runs_only_configured_tools (cfg : AgentConfig) (ts : ToolSet)
    (client : LLMClient World) (w0 : World) (a : EmbeddedAgent World)
    (tc : ToolCall) (w : World) :
  NewEmbeddedAgent cfg ts client w0 = Ok a ->
  (tc_Name tc ∈ cfg_Tools cfg ->
     exists tool,
       toolNamed ts (tc_Name tc) = Some tool
       /\ tool_Name tool = tc_Name tc
       /\ executeTool a tc w = tool_Execute tool (tc_Arguments tc) w)
  /\ (tc_Name tc ∉ cfg_Tools cfg ->
        executeTool a tc w = (Err ("unknown tool: " +:+ tc_Name tc), w)).
Proof.
  intros Hnew. apply NewEmbeddedAgent_inv in Hnew as (_ & _ & _ & Htools & _).
  pose proof (CreateTools_inv _ _ _ Htools) as Hall.
  unfold executeTool. rewrite (executeToolIn_created ts _ _ tc w Hall).
  split; intros Hin.
  - rewrite decide_True by exact Hin.
    assert (Hsome : is_Some (toolNamed ts (tc_Name tc))).
    { apply list_elem_of_lookup in Hin as [i Hi].
      destruct (Forall2_lookup_l _ _ _ _ _ Hall Hi) as (tool & _ & Htool).
      now exists tool. }
    destruct Hsome as [tool Htool]. exists tool. rewrite Htool.
    split_and!; [reflexivity | now apply toolNamed_name in Htool | reflexivity].
  - now rewrite decide_False by exact Hin.
Qed.

(** The schema of a tool of tools.go lists the argument that the tool
    tests first among the required ones. *)
Lemma getToolParameters_required (ts : ToolSet) (toolName : string)
    (tool : Tool World) :
  toolNamed ts toolName = Some tool ->
  exists required,
    ("type", AnyString "object") ∈ getToolParameters toolName
    /\ ("required", AnyStrings (Some required)) ∈ getToolParameters toolName
    /\ requiredArg toolName ∈ required.
Proof.
  intros Htool.
  destruct (toolNamed_cases _ _ _ Htool)
    as [[-> _] | [[-> _] | [[-> _] | [[-> _] | [-> _]]]]];
    eexists;
    (split_and!;
     [ apply list_elem_of_In; left; reflexivity
     | apply list_elem_of_In; do 2 right; left; reflexivity
     | apply (bool_decide_unpack _); vm_compute; exact I ]).
Qed.

(** X8. The tool definitions that an agent made by [NewEmbeddedAgent]
    offers to the LLM are those of its configured tools, one per name and
    in the order of the configuration; each schema is an object whose
    required arguments include the argument that the tool's [Execute]
    insists on. *)
Theorem buildToolDefinitions_follow_config (cfg : AgentConfig) (ts : ToolSet)
    (client : LLMClient World) (w0 : World) (a : EmbeddedAgent World) :
  NewEmbeddedAgent cfg ts client w0 = Ok a ->
  map td_Name (buildToolDefinitions a) = cfg_Tools cfg
  /\ Forall (fun def =>
       exists required,
         ("type", AnyString "object") ∈ td_Parameters def
         /\ ("required", AnyStrings (Some required)) ∈ td_Parameters def
         /\ requiredArg (td_Name def) ∈ required) (buildToolDefinitions a).
Proof.
  intros Hnew. apply NewEmbeddedAgent_inv in Hnew as (_ & _ & _ & Htools & _).
  pose proof (CreateTools_inv _ _ _ Htools) as Hall.
  unfold buildToolDefinitions. split.
  - rewrite map_map. cbn. now apply CreateTools_names in Htools.
  - apply Forall_map. clear Htools.
    induction Hall as [| n tool names tools Hn _ IH]; constructor; [| exact IH].
    cbn. rewrite (toolNamed_name _ _ _ Hn).
    exact (getToolParameters_required ts n tool Hn).
Qed.

End AgentTools.

Lemma agent_runs_only_configured_tools_witness :
  exists a : EmbeddedAgent Example.World,
    NewEmbeddedAgent (Example.agentConfig "a") (NewToolSet "/ws")
      Example.answeringLLM Example.world = Ok a
    /\ (executeTool a {| tc_ID := "1"; tc_Name := "write"; tc_Arguments := ∅ |}
          Example.world).1 = Err "unknown tool: write"
    /\ (executeTool a {| tc_ID := "2"; tc_Name := "read";
                         tc_Arguments := {[ "path" := AnyString "a.txt" ]} |}
          Example.world).1 = Ok (AnyString "hello").
Proof.
  assert (Hok : is_ok (NewEmbeddedAgent (Example.agentConfig "a")
                         (NewToolSet "/ws") Example.answeringLLM Example.world)
                = true) by (vm_compute; reflexivity).
  destruct (NewEmbeddedAgent (Example.agentConfig "a") (NewToolSet "/ws")
              Example.answeringLLM Example.world) as [a | err] eqn:Hnew;
    [| discriminate].
  exists a. split; [reflexivity |]. split.
  - destruct (agent_runs_only_configured_tools _ _ _ _ a
                {| tc_ID := "1"; tc_Name := "write"; tc_Arguments := ∅ |}
                Example.world Hnew) as [_ Hout].
    rewrite Hout; [reflexivity |].
    apply (bool_decide_unpack _). vm_compute. exact I.
  - destruct (agent_runs_only_configured_tools _ _ _ _ a
                {| tc_ID := "2"; tc_Name := "read";
                   tc_Arguments := {[ "path" := AnyString "a.txt" ]} |}
                Example.world Hnew) as [Hin _].
    destruct Hin as (tool & Htool & _ & Hexec).
    + apply (bool_decide_unpack _). vm_compute. exact I.
    + rewrite Hexec.
      change (Some (ReadTool (NewToolSet "/ws")) = Some tool) in Htool.
      injection Htool as <-. vm_compute. reflexivity.
Defined.

Lemma buildToolDefinitions_follow_config_witness :
  exists a : EmbeddedAgent Example.World,
    NewEmbeddedAgent (Example.agentConfig "a") (NewToolSet "/ws")
      Example.answeringLLM Example.world = Ok a
    /\ map td_Name (buildToolDefinitions a) = ["read"; "shell"].
Proof.
  assert (Hok : is_ok (NewEmbeddedAgent (Example.agentConfig "a")
                         (NewToolSet "/ws") Example.answeringLLM Example.world)
                = true) by (vm_compute; reflexivity).
  destruct (NewEmbeddedAgent (Example.agentConfig "a") (NewToolSet "/ws")
              Example.answeringLLM Example.world) as [a | err] eqn:Hnew;
    [| discriminate].
  exists a. split; [reflexivity |].
  exact (proj1 (buildToolDefinitions_follow_config _ _ _ _ a Hnew)).
Defined.

(** ** The agent loop: what [Invoke] can return *)

Section InvokeShape.
Context {World : Type} `{Env World} `{Lib}.

(** What one pass of the loop returns when it returns. *)
Lemma iteration_return (a : EmbeddedAgent World) (input : string)
    (messages : list Message) (w w' : World) (r : result AgentResult) :
  iteration a input messages w = (Return r, w') ->
  (exists err, r = Err ("LLM completion failed: " +:+ err))
  \/ (exists resp,
        (Complete (llm a) messages (buildToolDefinitions a) w) = (Ok resp, w')
        /\ r = Ok {| Agent := name a; Input := input;
                     Output := resp_Content resp;
                     ar_Success := true; Error := "" |}).
Proof.
  unfold iteration, bind, ret.
  destruct (Complete (llm a) messages (buildToolDefinitions a) w)
    as [[resp | err] w1].
  - destruct ((length (resp_ToolCalls resp) =? 0)%nat || resp_Done resp).
    + intros Hret. injection Hret as <- <-. right. now exists resp.
    + destruct (executeToolCalls _ _ _ w1). discriminate.
  - intros Hret. injection Hret as <- <-. left. now exists err.
Qed.

(** The loop with [remaining] passes to go: the rounds it takes and the
    results it can return. *)
Lemma agentLoop_shape (a : EmbeddedAgent World) (input : string) :
  forall remaining messages w,
    let '(r, rounds, _) := agentLoop a input remaining messages w in
    rounds <= remaining
    /\ (0 < remaining -> 0 < rounds)
    /\ match r with
       | Ok res =>
           Agent res = name a /\ Input res = input
           /\ ((ar_Success res = true /\ Error res = "")
               \/ (res = maxIterationsResult a input /\ rounds = remaining))
       | Err e => exists err, e = "LLM completion failed: " +:+ err
       end.
Proof.
  induction remaining as [| remaining IH]; intros messages w.
  - cbn. split_and!; [lia | lia | reflexivity | reflexivity | now right].
  - cbn [agentLoop]. unfold bind.
    destruct (iteration a input messages w) as [[r | messages'] w1] eqn:Hstep.
    + cbn. split_and!; [lia | lia |].
      destruct (iteration_return _ _ _ _ _ _ Hstep)
        as [(err & ->) | (resp & _ & ->)]; [now exists err |].
      cbn. split_and!; [reflexivity | reflexivity | now left].
    + specialize (IH messages' w1).
      destruct (agentLoop a input remaining messages' w1) as [[r rounds] w2].
      cbn. destruct IH as (Hle & _ & Hres). split_and!; [lia | lia |].
      destruct r as [res | e]; [| exact Hres].
      destruct Hres as (Hagent & Hinput & [Hok | [Hmax ->]]).
      * split_and!; [assumption | assumption | now left].
      * split_and!; [assumption | assumption | now right].
Qed.

(** What [Invoke] returns, whatever the client does. *)
Lemma Invoke_cases (a : EmbeddedAgent World) (input : string) (w : World) :
  match (Invoke a input w).1 with
  | Ok res => Agent res = name a /\ Input res = input
  | Err e => exists err, e = "LLM completion failed: " +:+ err
  end.
Proof.
  unfold Invoke, bind, ret, InvokeRounds.
  pose proof (agentLoop_shape a input maxIterations (initialMessages a input) w)
    as Hshape.
  destruct (agentLoop a input maxIterations (initialMessages a input) w)
    as [[r rounds] w'].
  destruct Hshape as (_ & _ & Hres). cbn.
  destruct r as [res | e]; [| exact Hres]. now destruct Hres as (? & ? & _).
Qed.

(** X9. Whatever the LLM client does, [Invoke] requests at least one and
    at most ten completions: a counter kept beside the client, which every
    completion moves up by one, stands between one and ten higher when
    [Invoke] returns, and [Invoke] returns the same with and without the
    counter. A result it returns carries the agent's name and the input; it
    is either successful with an empty error, or it is the result of the
    exhausted loop (Success false, error [agent loop exceeded maximum
    iterations]), which takes all ten completions. An error it returns is
    a failed completion. *)
Theorem Invoke_result_shape (a : EmbeddedAgent World) (input : string)
    (w : World) (k : nat) :
  let '(r, (w', k')) := Invoke (counted a) input (w, k) in
  Invoke a input w = (r, w')
  /\ k + 1 <= k' <= k + 10
  /\ match r with
     | Ok res =>
         Agent res = name a /\ Input res = input
         /\ ((ar_Success res = true /\ Error res = "")
             \/ (res = {| Agent := name a; Input := input;
                          Output := "Max iterations reached";
                          ar_Success := false;
                          Error := "agent loop exceeded maximum iterations" |}
                 /\ k' = k + 10))
     | Err e => exists err, e = "LLM completion failed: " +:+ err
     end.
Proof.
  rewrite Invoke_counted.
  unfold Invoke, bind, ret, InvokeRounds.
  pose proof (agentLoop_shape a input maxIterations (initialMessages a input) w)
    as Hshape.
  destruct (agentLoop a input maxIterations (initialMessages a input) w)
    as [[r rounds] w'].
  destruct Hshape as (Hle & Hpos & Hres).
  split; [reflexivity |]. unfold maxIterations in *.
  split; [lia |].
  destruct r as [res | e]; [| exact Hres].
  destruct Hres as (Hagent & Hinput & [Hok | [Hmax ->]]).
  - split_and!; [assumption | assumption | now left].
  - split_and!; [assumption | assumption | right; split; [exact Hmax | reflexivity]].
Qed.

(** X10. A completion that is marked done, or that carries no tool calls,
    ends [Invoke] at once: the result is successful with the content of
    the response as output, no further completion is requested, and no
    tool runs, even if the response marked done carries tool calls. *)
Theorem Invoke_returns_when_done (a : EmbeddedAgent World) (input : string)
    (w w1 : World) (resp : CompletionResponse) :
  Complete (llm a) (initialMessages a input) (buildToolDefinitions a) w
  = (Ok resp, w1) ->
  resp_ToolCalls resp = [] \/ resp_Done resp = true ->
  InvokeRounds a input w
  = ((Ok {| Agent := name a; Input := input; Output := resp_Content resp;
            ar_Success := true; Error := "" |}, 1), w1)
  /\ Invoke a input w
     = (Ok {| Agent := name a; Input := input; Output := resp_Content resp;
              ar_Success := true; Error := "" |}, w1).
Proof.
  intros Hcomplete Hdone.
  assert (Hrounds : InvokeRounds a input w
                    = ((Ok {| Agent := name a; Input := input;
                              Output := resp_Content resp;
                              ar_Success := true; Error := "" |}, 1), w1)).
  { unfold InvokeRounds. change maxIterations with (S 9).
    cbn [agentLoop]. unfold bind, iteration, bind. rewrite Hcomplete.
    assert (Hcond : (length (resp_ToolCalls resp) =? 0)%nat || resp_Done resp = true).
    { destruct Hdone as [-> | ->]; [reflexivity | apply orb_true_r]. }
    rewrite Hcond. reflexivity. }
  split; [exact Hrounds |]. unfold Invoke, bind. now rewrite Hrounds.
Qed.

End InvokeShape.

Lemma Invoke_returns_when_done_witness :
  Invoke (Example.agentWith "a" Example.answeringLLM) "hi" Example.world
  = (Ok {| Agent := "a"; Input := "hi"; Output := "the answer is 42";
           ar_Success := true; Error := "" |},
     Example.served Example.world)
  /\ InvokeRounds (Example.agentWith "a" Example.hastyLLM) "hi" Example.world
     = ((Ok {| Agent := "a"; Input := "hi"; Output := "nothing to do";
               ar_Success := true; Error := "" |}, 1),
        Example.served Example.world).
Proof.
  split.
  - refine (proj2 (Invoke_returns_when_done
                     (Example.agentWith "a" Example.answeringLLM) "hi"
                     Example.world (Example.served Example.world)
                     {| resp_Content := "the answer is 42"; resp_ToolCalls := [];
                        resp_Done := true |} eq_refl _)).
    now left.
  - refine (proj1 (Invoke_returns_when_done
                     (Example.agentWith "a" Example.hastyLLM) "hi"
                     Example.world (Example.served Example.world)
                     {| resp_Content := "nothing to do";
                        resp_ToolCalls :=
                          [ {| tc_ID := "call-0"; tc_Name := "read";
                               tc_Arguments := {[ "path" := AnyString "a.txt" ]} |} ];
                        resp_Done := true |} eq_refl _)).
    now right.
Defined.

(** ** The configuration *)

Section ConfigFacts.
Context {World : Type} `{Env World} `{Lib}.

(** What the loop of [Validate] has checked when it finds no error. *)
Lemma validateAgents_ok (agents : list AgentConfig) :
  forall i seen,
    validateAgents i seen agents = None ->
    NoDup (map cfg_Name agents)
    /\ Forall (fun a => cfg_Name a ∉ seen) agents
    /\ Forall (fun a => cfg_Name a <> "" /\ cfg_Instructions a <> ""
                        /\ Forall (fun t => t ∈ validTools) (cfg_Tools a)) agents.
Proof.
  induction agents as [| a agents IH]; intros i seen Hok.
  - split_and!; constructor.
  - cbn [validateAgents] in Hok.
    repeat (case_decide; [discriminate |]).
    destruct (list_find _ (cfg_Tools a)) as [[? ?] |] eqn:Hfind; [discriminate |].
    apply list_find_None in Hfind.
    destruct (IH _ _ Hok) as (Hnodup & Hseen & Hall).
    assert (Hfresh : cfg_Name a ∉ map cfg_Name agents).
    { intros (b & Hb & Hin)%list_elem_of_fmap.
      rewrite Forall_forall in Hseen. apply Hseen in Hin.
      apply Hin, elem_of_union_l, elem_of_singleton. now symmetry. }
    split_and!.
    + cbn. constructor; assumption.
    + constructor; [assumption |].
      eapply Forall_impl; [exact Hseen |]. cbn.
      intros b Hb Hin. now apply Hb, elem_of_union_r.
    + constructor; [| exact Hall]. split_and!; [assumption | assumption |].
      eapply Forall_impl; [exact Hfind |]. cbn. intros t Ht.
      destruct (decide (t ∈ validTools)); [assumption | contradiction].
Qed.

Lemma validateAgents_seen (agents : list AgentConfig) :
  forall i j seen,
    validateAgents i seen agents = None -> validateAgents j seen agents = None.
Proof.
  induction agents as [| a agents IH]; intros i j seen Hok; [reflexivity |].
  cbn [validateAgents] in Hok |- *.
  repeat (case_decide; [discriminate |]).
  destruct (list_find _ (cfg_Tools a)) as [[? ?] |]; [discriminate |].
  now apply (IH (S i)).
Qed.

(** What [Validate] has established when it returns no error. *)
Lemma Validate_inv (c c' : Config) (w : World) :
  Validate c w = Ok c' ->
  Mode c = "local"
  /\ Filepath.Abs (os_Getwd w) (if decide (Workspace c = "") then "." else Workspace c)
     = Ok (Workspace c')
  /\ (exists info, os_Stat (Workspace c') w = Ok info /\ fi_IsDir info = true)
  /\ validateAgents 0 ∅ (Agents c) = None
  /\ (mcp_Enabled (MCP c) = true ->
        mcp_Transport (MCP c) = "stdio" \/ mcp_Transport (MCP c) = "http")
  /\ c' = {| Mode := Mode c; Workspace := Workspace c'; Agents := Agents c;
             MCP := {| mcp_Enabled := mcp_Enabled (MCP c);
                       mcp_Transport := mcp_Transport (MCP c);
                       mcp_Port := if mcp_Enabled (MCP c)
                                      && bool_decide (mcp_Transport (MCP c) = "http")
                                      && (mcp_Port (MCP c) =? 0)%Z
                                   then 8080%Z else mcp_Port (MCP c);
                       mcp_ServerName := mcp_ServerName (MCP c);
                       mcp_ServerVersion := mcp_ServerVersion (MCP c) |} |}.
Proof.
  unfold Validate.
  destruct (bool_decide (Mode c = "local")) eqn:Hmode; [| discriminate].
  apply bool_decide_eq_true in Hmode. cbn [negb].
  destruct (Filepath.Abs _ _) as [abs | err] eqn:Habs; [| discriminate].
  destruct (os_Stat abs w) as [info | err] eqn:Hstat; [| discriminate].
  destruct (fi_IsDir info) eqn:Hdir; [| discriminate]. cbn [negb].
  destruct (validateAgents 0 ∅ (Agents c)) eqn:Hagents; [discriminate |].
  destruct (mcp_Enabled (MCP c) && _ && _) eqn:Htransport; [discriminate |].
  intros Hok. injection Hok as <-. cbn.
  split_and!; try reflexivity; try assumption.
  - now exists info.
  - intros Hen. rewrite Hen in Htransport. cbn in Htransport.
    destruct (bool_decide (mcp_Transport (MCP c) = "stdio")) eqn:Hs.
    + left. now apply bool_decide_eq_true in Hs.
    + right. cbn in Htransport. apply negb_false_iff in Htransport.
      now apply bool_decide_eq_true in Htransport.
Qed.

(** X11. A configuration that [Validate] accepts, as [Validate] leaves it:
    the mode is [local]; the workspace is the absolute form of the
    configured one ([.] for the empty one) and [os.Stat] reports it as a
    directory; the agents are unchanged, their names are non-empty and
    pairwise different, each has instructions, and each tool name is one
    of read, write, glob, grep, shell; with MCP enabled the transport is
    [stdio] or [http], and an [http] port is not 0. *)
Theorem Validate_postconditions (c c' : Config) (w : World) :
  Validate c w = Ok c' ->
  Mode c' = "local"
  /\ Filepath.Abs (os_Getwd w) (if decide (Workspace c = "") then "." else Workspace c)
     = Ok (Workspace c')
  /\ (exists info, os_Stat (Workspace c') w = Ok info /\ fi_IsDir info = true)
  /\ Agents c' = Agents c
  /\ NoDup (map cfg_Name (Agents c'))
  /\ Forall (fun a => cfg_Name a <> "" /\ cfg_Instructions a <> ""
                      /\ Forall (fun t => t ∈ validTools) (cfg_Tools a)) (Agents c')
  /\ (mcp_Enabled (MCP c') = true ->
        (mcp_Transport (MCP c') = "stdio" \/ mcp_Transport (MCP c') = "http")
        /\ (mcp_Transport (MCP c') = "http" -> mcp_Port (MCP c') <> 0%Z))
  /\ (mcp_Port (MCP c') <> mcp_Port (MCP c) -> mcp_Port (MCP c') = 8080%Z).
Proof.
  intros Hok.
  destruct (Validate_inv _ _ _ Hok) as (Hmode & Habs & Hstat & Hagents & Hmcp & Hc').
  destruct (validateAgents_ok _ _ _ Hagents) as (Hnodup & _ & Hall).
  rewrite Hc'. cbn.
  split_and!; try assumption; try reflexivity.
  - intros Hen. split; [now apply Hmcp |]. intros Hhttp.
    rewrite Hen, Hhttp. cbn.
    destruct (mcp_Port (MCP c) =? 0)%Z eqn:Hport; [discriminate |].
    now apply Z.eqb_neq in Hport.
  - destruct (_ && _ && _); [reflexivity | congruence].
Qed.

Lemma Abs_clean (getwd : result string) (p abs : string) :
  (forall wd, getwd = Ok wd -> Filepath.IsAbs wd = true) ->
  Filepath.Abs getwd p = Ok abs ->
  Filepath.IsAbs abs = true /\ Filepath.Clean abs = abs.
Proof.
  intros Hwd. unfold Filepath.Abs.
  assert (Hclean : forall q, Filepath.IsAbs q = true ->
            Filepath.IsAbs (Filepath.Clean q) = true
            /\ Filepath.Clean (Filepath.Clean q) = Filepath.Clean q).
  { intros q Hq. destruct (Clean_elems q Hq) as (es & Hes & ->).
    split; [apply IsAbs_rooted | now apply Clean_of_elems]. }
  destruct (Filepath.IsAbs p) eqn:Hp.
  - intros Hok. injection Hok as <-. now apply Hclean.
  - destruct getwd as [wd | err]; [| discriminate].
    intros Hok. injection Hok as <-.
    specialize (Hwd wd eq_refl).
    assert (Hne : wd <> "") by (intros ->; discriminate).
    cbn [Filepath.Join]. rewrite decide_False by exact Hne.
    apply Hclean.
    change (Strings.Join [wd; p] "/") with (wd +:+ "/" +:+ p).
    now apply IsAbs_append.
Qed.

(** X12. Validating twice is validating once: when the working directory
    of the process is an absolute path, a configuration that [Validate]
    has accepted and rewritten is accepted again in the same world and
    left exactly as it is. *)
Theorem Validate_idempotent (c c' : Config) (w : World) :
  (forall wd, os_Getwd w = Ok wd -> Filepath.IsAbs wd = true) ->
  Validate c w = Ok c' ->
  Validate c' w = Ok c'.
Proof.
  intros Hwd Hok.
  destruct (Validate_inv _ _ _ Hok) as (Hmode & Habs & (info & Hstat & Hdir)
                                         & Hagents & Hmcp & Hc').
  destruct (Abs_clean _ _ _ Hwd Habs) as [Hrooted Hclean].
  remember (Workspace c') as ws' eqn:Hws. clear Hws Hok Habs. subst c'.
  assert (Hne : ws' <> "") by (intros ->; discriminate).
  assert (Hcheck : mcp_Enabled (MCP c)
                   && negb (bool_decide (mcp_Transport (MCP c) = "stdio"))
                   && negb (bool_decide (mcp_Transport (MCP c) = "http")) = false).
  { destruct (mcp_Enabled (MCP c)); [| reflexivity].
    destruct (Hmcp eq_refl) as [-> | ->]; reflexivity. }
  unfold Validate.
  cbn [Mode Workspace Agents MCP mcp_Enabled mcp_Transport mcp_Port
       mcp_ServerName mcp_ServerVersion].
  rewrite Hmode, bool_decide_true by reflexivity. cbn [negb].
  rewrite decide_False by exact Hne.
  unfold Filepath.Abs. rewrite Hrooted, Hclean, Hstat, Hdir. cbn [negb].
  rewrite Hagents, Hcheck. do 3 f_equal.
  destruct (mcp_Enabled (MCP c)); [| reflexivity].
  destruct (bool_decide (mcp_Transport (MCP c) = "http")); [| reflexivity].
  cbn [andb]. destruct (mcp_Port (MCP c) =? 0)%Z eqn:Hport; [reflexivity |].
  now rewrite Hport.
Qed.

(** X13. [GetAgentConfig] and [ListAgentNames]. A lookup returns a
    configured agent of the given name, the first one of that name, and
    fails with [agent not found: <name>] exactly when the name is not
    among [ListAgentNames]; in a configuration that [Validate] has
    accepted, where names are unique, every configured agent is found
    under its own name. *)
Theorem GetAgentConfig_finds_configured (c : Config) :
  (forall agentName a,
     GetAgentConfig c agentName = Ok a ->
     cfg_Name a = agentName
     /\ exists i, Agents c !! i = Some a
                  /\ forall j b, Agents c !! j = Some b -> j < i ->
                                 cfg_Name b <> agentName)
  /\ (forall agentName,
        agentName ∉ ListAgentNames c <->
        GetAgentConfig c agentName = Err ("agent not found: " +:+ agentName))
  /\ (forall c0 w a,
        Validate c0 w = Ok c -> a ∈ Agents c ->
        GetAgentConfig c (cfg_Name a) = Ok a).
Proof.
  unfold GetAgentConfig, ListAgentNames. split_and!.
  - intros agentName a.
    destruct (list_find _ (Agents c)) as [[i b] |] eqn:Hfind; [| discriminate].
    intros Hok. injection Hok as <-.
    apply list_find_Some in Hfind as (Hi & Hname & Hfirst).
    split; [exact Hname |]. exists i. split; [exact Hi |].
    intros j b' Hj Hlt. now apply (Hfirst j).
  - intros agentName.
    destruct (list_find _ (Agents c)) as [[i b] |] eqn:Hfind.
    + apply list_find_Some in Hfind as (Hi & Hname & _).
      split; [| discriminate]. intros Hout. exfalso. apply Hout.
      apply list_elem_of_fmap. exists b. split; [now symmetry |].
      now apply list_elem_of_lookup_2 in Hi.
    + apply list_find_None in Hfind. split; [reflexivity |]. intros _.
      intros (b & Hb & Hin)%list_elem_of_fmap.
      rewrite Forall_forall in Hfind. now apply (Hfind b Hin).
  - intros c0 w a Hok Hin.
    destruct (Validate_inv _ _ _ Hok) as (_ & _ & _ & Hagents & _ & Hc).
    destruct (validateAgents_ok _ _ _ Hagents) as (Hnodup & _ & _).
    assert (Heq : Agents c = Agents c0) by (rewrite Hc; reflexivity).
    rewrite <- Heq in Hnodup.
    destruct (list_find _ (Agents c)) as [[i b] |] eqn:Hfind.
    + apply list_find_Some in Hfind as (Hi & Hname & _).
      apply list_elem_of_lookup in Hin as [j Hj].
      assert (i = j) as ->.
      { eapply NoDup_lookup; [exact Hnodup | |];
          rewrite list_lookup_fmap; [rewrite Hi | rewrite Hj]; cbn;
          [reflexivity | now rewrite Hname]. }
      congruence.
    + apply list_find_None in Hfind. rewrite Forall_forall in Hfind.
      now destruct (Hfind a Hin).
Qed.

End ConfigFacts.

Lemma Validate_postconditions_witness :
  exists c',
    Validate (Example.configOf ["a"; "b"]) Example.world = Ok c'
    /\ Workspace c' = "/ws"
    /\ NoDup (map cfg_Name (Agents c'))
    /\ is_err (Validate (Example.configOf ["a"; "a"]) Example.world) = true.
Proof.
  assert (Hok : is_ok (Validate (Example.configOf ["a"; "b"]) Example.world) = true)
    by (vm_compute; reflexivity).
  destruct (Validate (Example.configOf ["a"; "b"]) Example.world)
    as [c' | err] eqn:Hval; [| discriminate].
  exists c'. split; [reflexivity |].
  destruct (Validate_postconditions _ _ _ Hval)
    as (_ & Habs & _ & _ & Hnodup & _).
  split_and!; [| exact Hnodup | vm_compute; reflexivity].
  change (Ok "/ws" = Ok (Workspace c')) in Habs. congruence.
Defined.

Lemma Validate_idempotent_witness :
  exists c',
    Validate (Example.configOf ["a"; "b"]) Example.world = Ok c'
    /\ Validate c' Example.world = Ok c'.
Proof.
  assert (Hok : is_ok (Validate (Example.configOf ["a"; "b"]) Example.world) = true)
    by (vm_compute; reflexivity).
  destruct (Validate (Example.configOf ["a"; "b"]) Example.world)
    as [c' | err] eqn:Hval; [| discriminate].
  exists c'. split; [reflexivity |].
  apply (Validate_idempotent (Example.configOf ["a"; "b"])); [| exact Hval].
  intros wd Hwd. injection Hwd as <-. reflexivity.
Defined.

Lemma GetAgentConfig_finds_configured_witness :
  (exists c',
     Validate (Example.configOf ["a"; "b"]) Example.world = Ok c'
     /\ GetAgentConfig c' "b" = Ok (Example.agentConfig "b"))
  /\ GetAgentConfig (Example.configOf ["a"; "b"]) "c" = Err "agent not found: c".
Proof.
  split.
  - assert (Hok : is_ok (Validate (Example.configOf ["a"; "b"]) Example.world)
                  = true) by (vm_compute; reflexivity).
    destruct (Validate (Example.configOf ["a"; "b"]) Example.world)
      as [c' | err] eqn:Hval; [| discriminate].
    exists c'. split; [reflexivity |].
    destruct (GetAgentConfig_finds_configured c') as (_ & _ & Hfound).
    apply (Hfound (Example.configOf ["a"; "b"]) Example.world
             (Example.agentConfig "b") Hval).
    apply Validate_inv in Hval as (_ & _ & _ & _ & _ & ->).
    cbn. apply list_elem_of_further, list_elem_of_here.
  - destruct (GetAgentConfig_finds_configured (Example.configOf ["a"; "b"]))
      as (_ & Hmissing & _).
    apply (Hmissing "c"). apply (bool_decide_unpack _). vm_compute. exact I.
Defined.

(** ** The runner: registration and lookup *)

Section Registration.
Context {World : Type} `{Env World} `{Lib}.

(** The loop of [NewRunner] over configurations with pairwise different
    names. *)
Lemma registerAgents_spec (ts : ToolSet) (client : LLMClient World) (w : World)
    (cfgs : list AgentConfig) :
  forall m m',
    registerAgents cfgs ts client m w = Ok m' ->
    NoDup (map cfg_Name cfgs) ->
    (forall c, c ∈ cfgs ->
       exists a, NewEmbeddedAgent c ts client w = Ok a
                 /\ m' !! cfg_Name c = Some a)
    /\ (forall k, k ∉ map cfg_Name cfgs -> m' !! k = m !! k).
Proof.
  induction cfgs as [| c cfgs IH]; intros m m' Hreg Hnodup.
  - injection Hreg as <-. split; [intros c Hc; now apply elem_of_nil in Hc | reflexivity].
  - cbn [registerAgents] in Hreg.
    destruct (NewEmbeddedAgent c ts client w) as [a | err] eqn:Hnew; [| discriminate].
    cbn in Hnodup. apply NoDup_cons in Hnodup as [Hfresh Hnodup].
    destruct (IH _ _ Hreg Hnodup) as [Hin Hout]. split.
    + intros c' [-> | Hc']%elem_of_cons; [| now apply Hin].
      exists a. split; [exact Hnew |].
      rewrite (Hout _ Hfresh). apply lookup_insert_eq.
    + intros k Hk. cbn in Hk. apply not_elem_of_cons in Hk as [Hne Hk].
      rewrite (Hout _ Hk). now apply lookup_insert_ne.
Qed.

(** What [NewRunner] has done when it returns a runner. *)
Lemma NewRunner_inv (cfg : Config) (client : LLMClient World) (w : World)
    (r : Runner World) :
  NewRunner cfg client w = Ok r ->
  Validate cfg w = Ok (config r)
  /\ toolSet r = NewToolSet (Workspace (config r))
  /\ runner_llm r = client
  /\ registerAgents (Agents cfg) (toolSet r) client ∅ w = Ok (agents r)
  /\ NoDup (map cfg_Name (Agents cfg)).
Proof.
  unfold NewRunner.
  destruct (Validate cfg w) as [cfg' | err] eqn:Hval; [| discriminate].
  destruct (registerAgents _ _ _ _ w) as [m | err] eqn:Hreg; [| discriminate].
  intros Hok. injection Hok as <-. cbn.
  destruct (Validate_inv _ _ _ Hval) as (_ & _ & _ & Hagents & _ & Hcfg').
  assert (Heq : Agents cfg' = Agents cfg) by (rewrite Hcfg'; reflexivity).
  rewrite Heq in Hreg.
  split_and!; try reflexivity; try assumption.
  now destruct (validateAgents_ok _ _ _ Hagents).
Qed.

Lemma NewRunner_agents (cfg : Config) (client : LLMClient World) (w : World)
    (r : Runner World) :
  NewRunner cfg client w = Ok r ->
  (forall c, c ∈ Agents cfg ->
     exists a, NewEmbeddedAgent c (toolSet r) client w = Ok a
               /\ agents r !! cfg_Name c = Some a)
  /\ (forall k, k ∉ ListAgentNames cfg -> agents r !! k = None).
Proof.
  intros Hnew.
  destruct (NewRunner_inv _ _ _ _ Hnew) as (_ & _ & _ & Hreg & Hnodup).
  destruct (registerAgents_spec _ _ _ _ _ _ Hreg Hnodup) as [Hin Hout].
  split; [exact Hin |]. intros k Hk. rewrite (Hout k Hk). apply lookup_empty.
Qed.

(** X14. The runner that [NewRunner] returns holds exactly the configured
    agents: every configured agent is found by [GetAgent] under its name,
    as the agent that [NewEmbeddedAgent] makes of its configuration with
    the runner's tool set and client, and [GetAgentInfo] returns its name
    and description; a name that is not configured is not found, and
    [GetAgentInfo] then fails with [agent not found: <name>]. *)
Theorem NewRunner_registers_configured_agents (cfg : Config)
    (client : LLMClient World) (w : World) (r : Runner World) :
  NewRunner cfg client w = Ok r ->
  (forall c, c ∈ Agents cfg ->
     exists a,
       GetAgent r (cfg_Name c) = Some a
       /\ NewEmbeddedAgent c (NewToolSet (Workspace (config r))) client w = Ok a
       /\ GetAgentInfo r (cfg_Name c)
          = Ok {| info_Name := cfg_Name c;
                  info_Description := cfg_Description c |})
  /\ (forall k, k ∉ ListAgentNames cfg ->
        GetAgent r k = None
        /\ GetAgentInfo r k = Err ("agent not found: " +:+ k)).
Proof.
  intros Hnew. destruct (NewRunner_agents _ _ _ _ Hnew) as [Hin Hout].
  destruct (NewRunner_inv _ _ _ _ Hnew) as (_ & Hts & _).
  unfold GetAgent, GetAgentInfo. split.
  - intros c Hc. destruct (Hin c Hc) as (a & Hmade & Hlook).
    exists a. rewrite Hlook, <- Hts. split_and!; [reflexivity | exact Hmade |].
    apply NewEmbeddedAgent_inv in Hmade as (-> & -> & _). reflexivity.
  - intros k Hk. now rewrite (Hout k Hk).
Qed.

Lemma registered_names (cfg : Config) (client : LLMClient World) (w : World)
    (r : Runner World) :
  NewRunner cfg client w = Ok r ->
  map fst (map_to_list (agents r)) ≡ₚ ListAgentNames cfg.
Proof.
  intros Hnew. destruct (NewRunner_agents _ _ _ _ Hnew) as [Hin Hout].
  destruct (NewRunner_inv _ _ _ _ Hnew) as (_ & _ & _ & _ & Hnodup).
  apply NoDup_Permutation; [apply NoDup_fst_map_to_list | exact Hnodup |].
  intros k. split.
  - intros ([k' a] & -> & Hka)%list_elem_of_fmap. cbn.
    apply elem_of_map_to_list in Hka.
    destruct (decide (k' ∈ ListAgentNames cfg)) as [Hk | Hk]; [exact Hk |].
    rewrite (Hout _ Hk) in Hka. discriminate.
  - intros (c & -> & Hc)%list_elem_of_fmap.
    destruct (Hin c Hc) as (a & _ & Hlook).
    apply list_elem_of_fmap. exists (cfg_Name c, a). split; [reflexivity |].
    now apply elem_of_map_to_list.
Qed.

(** X15. The listings of a runner made by [NewRunner]: in whatever order
    the map is ranged over, [ListAgents] returns the configured agent
    names, each once, and [ListAgentInfo] returns the name and description
    of every configured agent, each once. *)
Theorem listings_follow_config (cfg : Config) (client : LLMClient World)
    (w0 : World) (r : Runner World) (w : World) :
  NewRunner cfg client w0 = Ok r ->
  (ListAgents r w).1 ≡ₚ ListAgentNames cfg
  /\ NoDup (ListAgents r w).1
  /\ (ListAgentInfo r w).1 ≡ₚ map infoOf (Agents cfg).
Proof.
  intros Hnew. pose proof (registered_names _ _ _ _ Hnew) as Hkeys.
  destruct (NewRunner_agents _ _ _ _ Hnew) as [Hin _].
  destruct (NewRunner_inv _ _ _ _ Hnew) as (_ & _ & _ & _ & Hnodup).
  assert (Hnames : (map_order (map fst (map_to_list (agents r))) w).1
                   ≡ₚ ListAgentNames cfg).
  { etrans; [apply map_order_perm | exact Hkeys]. }
  unfold ListAgents, ListAgentInfo, bind, ret. split_and!.
  - exact Hnames.
  - now rewrite Hnames.
  - destruct (map_order (map fst (map_to_list (agents r))) w) as [names w'].
    cbn in Hnames |- *. rewrite Hnames. unfold ListAgentNames.
    clear Hnames Hkeys Hnodup.
    induction (Agents cfg) as [| c cfgs IH]; [reflexivity |].
    cbn. destruct (Hin c) as (a & Hmade & ->); [apply list_elem_of_here |].
    apply NewEmbeddedAgent_inv in Hmade as (-> & -> & _).
    unfold infoOf at 1. f_equiv. apply IH.
    intros c' Hc'. apply Hin. now apply list_elem_of_further.
Qed.

(** X16. [Runner.Invoke] on a runner made by [NewRunner]. For a name that
    is not configured it returns [agent not found: <name>] and requests
    nothing from the LLM. A result it returns is for a configured agent
    and carries the name asked for and the input given. Its errors are
    these two: the unknown agent, and a failed completion wrapped as
    [agent invocation failed: LLM completion failed: ...]. *)
Theorem Runner_Invoke_outcome (cfg : Config) (client : LLMClient World)
    (w0 : World) (r : Runner World) (agentName input : string) (w : World) :
  NewRunner cfg client w0 = Ok r ->
  (agentName ∉ ListAgentNames cfg ->
     Runner_Invoke r agentName input w
     = (Err ("agent not found: " +:+ agentName), w))
  /\ (forall res w', Runner_Invoke r agentName input w = (Ok res, w') ->
        agentName ∈ ListAgentNames cfg
        /\ Agent res = agentName /\ Input res = input)
  /\ (forall e w', Runner_Invoke r agentName input w = (Err e, w') ->
        (e = "agent not found: " +:+ agentName /\ w' = w
         /\ agentName ∉ ListAgentNames cfg)
        \/ exists err,
             e = "agent invocation failed: LLM completion failed: " +:+ err).
Proof.
  intros Hnew. destruct (NewRunner_agents _ _ _ _ Hnew) as [Hin Hout].
  pose proof (NewRunner_wf _ _ _ _ Hnew) as Hwf.
  unfold Runner_Invoke. split_and!.
  - intros Hk. now rewrite (Hout _ Hk).
  - intros res w'. destruct (agents r !! agentName) as [a |] eqn:Hlook;
      [| discriminate].
    pose proof (Invoke_cases a input w) as Hres. unfold bind, ret.
    destruct (Invoke a input w) as [[res0 | e] w1]; [| discriminate].
    intros Hok. injection Hok as <- <-. cbn in Hres.
    destruct Hres as (Hagent & Hinput).
    split_and!; [| now rewrite Hagent, (Hwf _ _ Hlook) | exact Hinput].
    destruct (decide (agentName ∈ ListAgentNames cfg)) as [Hk | Hk]; [exact Hk |].
    rewrite (Hout _ Hk) in Hlook. discriminate.
  - intros e w'. destruct (agents r !! agentName) as [a |] eqn:Hlook.
    + pose proof (Invoke_cases a input w) as Hres. unfold bind, ret.
      destruct (Invoke a input w) as [[res0 | e0] w1]; [discriminate |].
      intros Hok. injection Hok as <- <-. right. cbn in Hres.
      destruct Hres as (err & ->). exists err. reflexivity.
    + intros Hok. injection Hok as <- <-. left.
      split_and!; [reflexivity | reflexivity |].
      intros (c & -> & Hc)%list_elem_of_fmap.
      destruct (Hin c Hc) as (a & _ & Hsome). congruence.
Qed.

End Registration.

Section RunnerFailures.
Context {World : Type} `{Env World} `{Lib}.

Lemma CreateTools_valid (ts : ToolSet) (names : list string) :
  Forall (fun n => n ∈ validTools) names ->
  exists tools : list (Tool World), CreateTools ts names = Ok tools.
Proof.
  intros Hall. unfold CreateTools. rewrite CreateToolsFrom_spec.
  destruct (list_find _ names) as [[i bad] |] eqn:Hfind; [| now eexists].
  apply list_find_Some in Hfind as (Hi & Hbad & _).
  apply list_elem_of_lookup_2 in Hi.
  rewrite Forall_forall in Hall. apply Hall, (toolNamed_valid ts) in Hi.
  rewrite Hbad in Hi. now destruct Hi.
Qed.

(** With valid tool names, [NewEmbeddedAgent] fails only when the
    instructions name a markdown file that cannot be read at either
    place. *)
Lemma NewEmbeddedAgent_error (c : AgentConfig) (ts : ToolSet)
    (client : LLMClient World) (w : World) (e : error) :
  Forall (fun n => n ∈ validTools) (cfg_Tools c) ->
  NewEmbeddedAgent c ts client w = Err e ->
  Strings.HasSuffix (cfg_Instructions c) ".md" = true
  /\ is_err (os_ReadFile (cfg_Instructions c) w) = true
  /\ exists err,
       os_ReadFile (Filepath.Join [workspace ts; cfg_Instructions c]) w = Err err
       /\ e = "failed to load instructions: " +:+ err.
Proof.
  intros Htools. unfold NewEmbeddedAgent.
  destruct (CreateTools_valid ts _ Htools) as [tools ->].
  destruct (Strings.HasSuffix (cfg_Instructions c) ".md"); [| discriminate].
  destruct (os_ReadFile (cfg_Instructions c) w) as [text | err1]; [discriminate |].
  destruct (os_ReadFile (Filepath.Join _) w) as [text | err2]; [discriminate |].
  intros Herr. injection Herr as <-.
  split_and!; [reflexivity | reflexivity |]. now exists err2.
Qed.

Lemma registerAgents_error (ts : ToolSet) (client : LLMClient World) (w : World)
    (cfgs : list AgentConfig) :
  Forall (fun c => Forall (fun n => n ∈ validTools) (cfg_Tools c)) cfgs ->
  forall m e,
    registerAgents cfgs ts client m w = Err e ->
    exists c err,
      c ∈ cfgs
      /\ NewEmbeddedAgent c ts client w = Err err
      /\ e = "failed to create agent " +:+ cfg_Name c +:+ ": " +:+ err.
Proof.
  induction 1 as [| c cfgs Hc _ IH]; intros m e Hreg; [discriminate |].
  cbn [registerAgents] in Hreg.
  destruct (NewEmbeddedAgent c ts client w) as [a | err] eqn:Hnew.
  - destruct (IH _ _ Hreg) as (c' & err & Hin & Hnew' & ->).
    exists c', err. split_and!; [now apply list_elem_of_further | exact Hnew' | reflexivity].
  - injection Hreg as <-. exists c, err.
    split_and!; [apply list_elem_of_here | exact Hnew | reflexivity].
Qed.

(** X17. [NewRunner] fails for two reasons only: the configuration does
    not validate, with the error [invalid config: ...], or an agent's
    instructions name a markdown file that can be read neither at the
    path given nor under the workspace, with the error [failed to create
    agent <name>: failed to load instructions: ...]. Tool names cannot
    make it fail, since [Validate] has checked them; so a configuration
    that validates and whose instructions are all inline yields a
    runner. *)
Theorem NewRunner_fails_only_for (cfg : Config) (client : LLMClient World)
    (w : World) :
  (forall e, NewRunner cfg client w = Err e ->
     (exists err, Validate cfg w = Err err /\ e = "invalid config: " +:+ err)
     \/ (exists cfg' c err,
           Validate cfg w = Ok cfg'
           /\ c ∈ Agents cfg
           /\ Strings.HasSuffix (cfg_Instructions c) ".md" = true
           /\ is_err (os_ReadFile (cfg_Instructions c) w) = true
           /\ os_ReadFile (Filepath.Join [Workspace cfg'; cfg_Instructions c]) w
              = Err err
           /\ e = "failed to create agent " +:+ cfg_Name c
                  +:+ ": failed to load instructions: " +:+ err))
  /\ (forall cfg', Validate cfg w = Ok cfg' ->
        Forall (fun c => Strings.HasSuffix (cfg_Instructions c) ".md" = false)
          (Agents cfg) ->
        exists r, NewRunner cfg client w = Ok r /\ config r = cfg').
Proof.
  assert (Hfail : forall e, NewRunner cfg client w = Err e ->
            (exists err, Validate cfg w = Err err /\ e = "invalid config: " +:+ err)
            \/ (exists cfg' c err,
                  Validate cfg w = Ok cfg'
                  /\ c ∈ Agents cfg
                  /\ Strings.HasSuffix (cfg_Instructions c) ".md" = true
                  /\ is_err (os_ReadFile (cfg_Instructions c) w) = true
                  /\ os_ReadFile (Filepath.Join [Workspace cfg'; cfg_Instructions c]) w
                     = Err err
                  /\ e = "failed to create agent " +:+ cfg_Name c
                         +:+ ": failed to load instructions: " +:+ err)).
  { intros e. unfold NewRunner.
    destruct (Validate cfg w) as [cfg' | err] eqn:Hval.
    - destruct (Validate_inv _ _ _ Hval) as (_ & _ & _ & Hagents & _ & Hcfg').
      destruct (validateAgents_ok _ _ _ Hagents) as (_ & _ & Hall).
      assert (Heq : Agents cfg' = Agents cfg) by (rewrite Hcfg'; reflexivity).
      rewrite Heq.
      destruct (registerAgents _ _ _ _ w) as [m | err] eqn:Hreg; [discriminate |].
      intros Herr. injection Herr as <-. right.
      assert (Htools : Forall (fun c => Forall (fun n => n ∈ validTools) (cfg_Tools c))
                         (Agents cfg)).
      { eapply Forall_impl; [exact Hall |]. now intros c (_ & _ & Hc). }
      destruct (registerAgents_error _ _ _ _ Htools _ _ Hreg) as (c & e0 & Hin & Hnew & ->).
      rewrite Forall_forall in Htools.
      destruct (NewEmbeddedAgent_error _ _ _ _ _ (Htools c Hin) Hnew)
        as (Hmd & Hfirst & err & Hsecond & ->).
      exists cfg', c, err. split_and!; try reflexivity; assumption.
    - intros Herr. injection Herr as <-. left. now exists err. }
  split; [exact Hfail |].
  intros cfg' Hval Hinline.
  destruct (NewRunner cfg client w) as [r | e] eqn:Hnew.
  - exists r. split; [reflexivity |].
    destruct (NewRunner_inv _ _ _ _ Hnew) as (Hval' & _). congruence.
  - exfalso. destruct (Hfail e eq_refl) as [(err & Hbad & _) | Hmd]; [congruence |].
    destruct Hmd as (cfg'' & c & err & _ & Hin & Hmd & _).
    rewrite Forall_forall in Hinline. rewrite (Hinline c Hin) in Hmd. discriminate.
Qed.

End RunnerFailures.

Lemma NewRunner_fails_only_for_witness :
  (exists r, NewRunner (Example.configOf ["a"; "b"]) Example.loopingLLM
               Example.world = Ok r
             /\ Workspace (config r) = "/ws")
  /\ (exists err, NewRunner (Example.configOf ["a"; "a"]) Example.loopingLLM
                    Example.world = Err ("invalid config: " +:+ err)).
Proof.
  split.
  - destruct (NewRunner_fails_only_for (Example.configOf ["a"; "b"])
                Example.loopingLLM Example.world) as [_ Hok].
    assert (Hval : is_ok (Validate (Example.configOf ["a"; "b"]) Example.world)
                   = true) by (vm_compute; reflexivity).
    destruct (Validate (Example.configOf ["a"; "b"]) Example.world)
      as [cfg' | err] eqn:Hcfg; [| discriminate].
    destruct (Hok cfg' eq_refl) as (r & Hnew & Hconfig).
    + repeat constructor.
    + exists r. split; [exact Hnew |]. rewrite Hconfig.
      apply Validate_inv in Hcfg as (_ & Habs & _).
      change (Ok "/ws" = Ok (Workspace cfg')) in Habs. congruence.
  - destruct (NewRunner_fails_only_for (Example.configOf ["a"; "a"])
                Example.loopingLLM Example.world) as [Hfail _].
    assert (Hbad : is_err (NewRunner (Example.configOf ["a"; "a"])
                             Example.loopingLLM Example.world) = true)
      by (vm_compute; reflexivity).
    destruct (NewRunner (Example.configOf ["a"; "a"]) Example.loopingLLM
                Example.world) as [r | e]; [discriminate |].
    destruct (Hfail e eq_refl) as [(err & _ & ->) | (cfg' & c & err & Hval & _)].
    + now exists err.
    + vm_compute in Hval. discriminate.
Defined.

Lemma builtRunner_new :
  NewRunner (Example.configOf ["a"; "b"]) Example.loopingLLM Example.world
  = Ok Example.builtRunner.
Proof.
  assert (Hok : is_ok (NewRunner (Example.configOf ["a"; "b"])
                         Example.loopingLLM Example.world) = true)
    by (vm_compute; reflexivity).
  unfold Example.builtRunner.
  destruct (NewRunner _ _ _) as [r | err]; [reflexivity | discriminate Hok].
Qed.

Lemma NewRunner_registers_configured_agents_witness :
  (exists a, GetAgent Example.builtRunner "a" = Some a
             /\ GetAgentInfo Example.builtRunner "a"
                = Ok {| info_Name := "a"; info_Description := "an agent" |})
  /\ GetAgentInfo Example.builtRunner "zed" = Err "agent not found: zed".
Proof.
  destruct (NewRunner_registers_configured_agents _ _ _ _ builtRunner_new)
    as [Hin Hout].
  split.
  - destruct (Hin (Example.agentConfig "a")) as (a & Hget & _ & Hinfo).
    + cbn. apply list_elem_of_here.
    + exists a. split; [exact Hget | exact Hinfo].
  - apply (Hout "zed"). apply (bool_decide_unpack _). vm_compute. exact I.
Defined.

Lemma listings_follow_config_witness :
  (ListAgents Example.builtRunner Example.world).1 ≡ₚ ["a"; "b"]
  /\ (ListAgentInfo Example.builtRunner Example.world).1
     ≡ₚ [ {| info_Name := "a"; info_Description := "an agent" |};
          {| info_Name := "b"; info_Description := "an agent" |} ].
Proof.
  destruct (listings_follow_config _ _ _ _ Example.world builtRunner_new)
    as (Hnames & _ & Hinfos).
  split; [exact Hnames | exact Hinfos].
Defined.

Lemma Runner_Invoke_outcome_witness :
  Runner_Invoke Example.builtRunner "nobody" "hi" Example.world
  = (Err "agent not found: nobody", Example.world)
  /\ exists res w',
       Runner_Invoke Example.builtRunner "a" "hi" Example.world = (Ok res, w')
       /\ Agent res = "a" /\ Input res = "hi".
Proof.
  split.
  - apply (Runner_Invoke_outcome _ _ _ _ "nobody" "hi" Example.world
             builtRunner_new).
    apply (bool_decide_unpack _). vm_compute. exact I.
  - assert (Hok : is_ok (Runner_Invoke Example.builtRunner "a" "hi"
                           Example.world).1 = true) by (vm_compute; reflexivity).
    destruct (Runner_Invoke Example.builtRunner "a" "hi" Example.world)
      as [[res | e] w'] eqn:Hrun; [| discriminate].
    exists res, w'. split; [reflexivity |].
    destruct (Runner_Invoke_outcome _ _ _ _ "a" "hi" Example.world
                builtRunner_new) as (_ & Hres & _).
    destruct (Hres res w' Hrun) as (_ & Hagent & Hinput).
    split; [exact Hagent | exact Hinput].
Defined.

(** ** The runner: batches and orchestrated tasks *)

Section Batches.
Context {World : Type} `{Env World} `{Lib}.

(** What a pass of the sequential loop records, in a runner whose agents
    are registered under their own names. *)
Lemma sequentialLoop_results (r : Runner World) (tasks : list AgentTask)
    (i : nat) (ctx : string) (w : World) :
  wfRunner r ->
  let steps := (sequentialLoop r i tasks ctx w).1 in
  length steps = length tasks
  /\ forall k sk, steps !! k = Some sk ->
       tasks !! k = Some (step_task sk)
       /\ Agent (step_result sk) = task_Agent (step_task sk)
       /\ (Input (step_result sk) = step_input sk
           \/ Input (step_result sk) = task_Input (step_task sk))
       /\ (agents r !! task_Agent (step_task sk) = None ->
             step_result sk
             = failedResult (step_task sk)
                 ("agent not found: " +:+ task_Agent (step_task sk))).
Proof.
  intros Hwf. cbv zeta.
  destruct (sequentialLoop_steps r tasks i ctx w) as [Hlen Hsteps].
  split; [exact Hlen |]. intros k sk Hk.
  destruct (Hsteps k sk Hk) as (Htask & _ & _ & _ & wk & Hres).
  split; [exact Htask |]. rewrite Hres. unfold Runner_Invoke.
  destruct (agents r !! task_Agent (step_task sk)) as [a |] eqn:Hlook.
  - pose proof (Invoke_cases a (step_input sk) wk) as Hcases.
    unfold bind, ret.
    destruct (Invoke a (step_input sk) wk) as [[res | e] w1]; cbn in Hcases |- *.
    + destruct Hcases as [Hagent Hinput].
      split_and!; [now rewrite Hagent, (Hwf _ _ Hlook) | now left | discriminate].
    + split_and!; [reflexivity | now right | discriminate].
  - cbn. split_and!; [reflexivity | now right | reflexivity].
Qed.

(** X18. [InvokeSequential] on a runner made by [NewRunner] never returns
    an error and never stops early: it returns one result per task, in
    the order of the tasks, and result [i] carries the agent name of task
    [i]; its input is the input of the task, alone or under a context
    block; a task for an agent that is not configured leaves the failed
    result with the error [agent not found: <name>] in its place. *)
Theorem InvokeSequential_keeps_task_order (cfg : Config)
    (client : LLMClient World) (w0 : World) (r : Runner World)
    (tasks : list AgentTask) (w : World) :
  NewRunner cfg client w0 = Ok r ->
  let results := (InvokeSequential r tasks w).1.1 in
  (InvokeSequential r tasks w).1.2 = None
  /\ len results = length tasks
  /\ forall i t, tasks !! i = Some t ->
       exists res,
         default [] results !! i = Some (Some res)
         /\ Agent res = task_Agent t
         /\ (Input res = task_Input t
             \/ exists ctx, Input res = withContext ctx (task_Input t))
         /\ (task_Agent t ∉ ListAgentNames cfg ->
               res = failedResult t ("agent not found: " +:+ task_Agent t)).
Proof.
  intros Hnew. cbv zeta.
  pose proof (NewRunner_wf _ _ _ _ Hnew) as Hwf.
  destruct (NewRunner_agents _ _ _ _ Hnew) as [_ Hout].
  unfold InvokeSequential, sequentialSteps.
  destruct tasks as [| t0 tasks]; [split_and!; [reflexivity | reflexivity |];
                                    intros i t Hi; discriminate |].
  change (length (t0 :: tasks) =? 0)%nat with false. cbv iota.
  unfold bind, ret.
  pose proof (sequentialLoop_results r (t0 :: tasks) 0 "" w Hwf) as Hres.
  pose proof (sequentialLoop_steps r (t0 :: tasks) 0 "" w) as Hsteps.
  destruct (sequentialLoop r 0 (t0 :: tasks) "" w) as [steps w'].
  cbn [fst snd] in *. destruct Hres as [Hlen Hres]. destruct Hsteps as [_ Hsteps].
  split_and!; [reflexivity | cbn [len]; now rewrite length_map |].
  intros i t Hi.
  destruct (lookup_lt_is_Some_2 steps i) as [si Hsi].
  { rewrite Hlen. now apply lookup_lt_Some in Hi. }
  destruct (Hres i si Hsi) as (Htask & Hagent & Hinput & Hmissing).
  destruct (Hsteps i si Hsi) as (_ & _ & Hin & _).
  assert (step_task si = t) as Ht by congruence.
  exists (step_result si). cbn [default from_option id].
  change (map (fun s => Some (step_result s)) steps)
    with ((fun s => Some (step_result s)) <$> steps).
  rewrite list_lookup_fmap, Hsi. rewrite Ht in *.
  split_and!; [reflexivity | exact Hagent | | ].
  - destruct Hinput as [Hinput | Hinput]; [| now left].
    rewrite Hinput, Hin. unfold sequentialInput.
    destruct (_ && _); [right; now eexists | now left].
  - intros Hk. apply Hmissing. now apply Hout.
Qed.

Lemma contextOf_failed (steps : list SeqStep) :
  Forall (fun s => ar_Success (step_result s) = false) steps ->
  contextOf steps = "".
Proof.
  induction 1 as [| s steps Hs _ IH]; [reflexivity |].
  cbn. now rewrite Hs, IH.
Qed.

(** X19. In [InvokeSequential], a task before which no task has succeeded
    is invoked on its own input, without a context block; in particular
    the first task is. *)
Theorem sequential_input_without_context (r : Runner World)
    (tasks : list AgentTask) (w : World) (j : nat) (sj : SeqStep) :
  let steps := (sequentialSteps r tasks w).1 in
  steps !! j = Some sj ->
  (forall i si, i < j -> steps !! i = Some si ->
                ar_Success (step_result si) = false) ->
  step_before sj = "" /\ step_input sj = task_Input (step_task sj).
Proof.
  cbv zeta. unfold sequentialSteps. intros Hj Hfailed.
  destruct (sequentialLoop_steps r tasks 0 "" w) as [_ Hsteps].
  destruct (Hsteps j sj Hj) as (_ & Hbefore & Hinput & _).
  assert (Hnone : step_before sj = "").
  { rewrite Hbefore. cbn. apply contextOf_failed.
    apply Forall_lookup. intros i si Hi.
    apply lookup_take_Some in Hi as [Hi Hlt]. now apply (Hfailed i). }
  split; [exact Hnone |]. now rewrite Hinput, Hnone.
Qed.

End Batches.

Lemma InvokeSequential_keeps_task_order_witness :
  let tasks := [ {| task_Agent := "b"; task_Input := "review" |};
                 {| task_Agent := "nobody"; task_Input := "review" |} ] in
  (InvokeSequential Example.builtRunner tasks Example.world).1.2 = None
  /\ len (InvokeSequential Example.builtRunner tasks Example.world).1.1 = 2
  /\ exists res,
       default [] (InvokeSequential Example.builtRunner tasks Example.world).1.1 !! 1
       = Some (Some res)
       /\ res = {| Agent := "nobody"; Input := "review"; Output := "";
                   ar_Success := false; Error := "agent not found: nobody" |}.
Proof.
  cbv zeta.
  destruct (InvokeSequential_keeps_task_order _ _ _ _
              [ {| task_Agent := "b"; task_Input := "review" |};
                {| task_Agent := "nobody"; task_Input := "review" |} ]
              Example.world builtRunner_new) as (Herr & Hlen & Hslots).
  split; [exact Herr |]. split; [exact Hlen |].
  destruct (Hslots 1 {| task_Agent := "nobody"; task_Input := "review" |} eq_refl)
    as (res & Hres & _ & _ & Hmissing).
  exists res. split; [exact Hres |]. apply Hmissing.
  apply (bool_decide_unpack _). vm_compute. exact I.
Defined.

Lemma sequential_input_without_context_witness :
  let r := Example.runnerOf [("a", Example.loopingLLM)] in
  let tasks := [ {| task_Agent := "a"; task_Input := "survey the code" |};
                 {| task_Agent := "a"; task_Input := "write the report" |} ] in
  exists s0 s1,
    (sequentialSteps r tasks Example.world).1 = [s0; s1]
    /\ ar_Success (step_result s0) = false
    /\ step_input s1 = "write the report".
Proof.
  cbv zeta.
  set (r := Example.runnerOf [("a", Example.loopingLLM)]).
  set (tasks := [ {| task_Agent := "a"; task_Input := "survey the code" |};
                  {| task_Agent := "a"; task_Input := "write the report" |} ]).
  assert (Hsteps : exists s0 s1,
            (sequentialSteps r tasks Example.world).1 = [s0; s1]
            /\ ar_Success (step_result s0) = false
            /\ task_Input (step_task s1) = "write the report").
  { vm_compute. eexists _, _. split_and!; reflexivity. }
  destruct Hsteps as (s0 & s1 & Hst & Hfail & Htask).
  exists s0, s1. split; [exact Hst |]. split; [exact Hfail |].
  destruct (sequential_input_without_context r tasks Example.world 1 s1)
    as [_ Hin].
  - now rewrite Hst.
  - intros i si Hlt Hi. rewrite Hst in Hi.
    destruct i as [| i]; [| lia]. injection Hi as <-. exact Hfail.
  - now rewrite Hin.
Defined.

(** ** Orchestrated tasks and their summary *)

Section StringLengths.

Lemma length_append (a b : string) :
  String.length (a +:+ b) = String.length a + String.length b.
Proof.
  induction a as [| c a IH]; [reflexivity |].
  change (String c a +:+ b) with (String c (a +:+ b)). cbn. now rewrite IH.
Qed.

Lemma length_substring (n : nat) (s : string) :
  n <= String.length s -> String.length (String.substring 0 n s) = n.
Proof.
  revert s. induction n as [| n IH]; intros s Hle.
  - now destruct s.
  - destruct s as [| c s]; [cbn in Hle; lia |].
    cbn in Hle |- *. rewrite IH by lia. reflexivity.
Qed.

Lemma HasPrefix_substring (n : nat) (s : string) :
  Strings.HasPrefix s (String.substring 0 n s) = true.
Proof.
  revert s. induction n as [| n IH]; intros s.
  - now destruct s.
  - destruct s as [| c s]; [reflexivity |].
    cbn. now rewrite Ascii.eqb_refl.
Qed.

(** X20. [truncate] with a limit that is not negative returns the string
    itself when it has at most [maxLen] bytes, and otherwise its first
    [maxLen] bytes followed by three dots; so the result has at most
    [maxLen + 3] bytes, and it can be up to two bytes longer than the
    string it was cut from. With a negative limit the slice expression
    panics. *)
Theorem truncate_bounds (s : string) (maxLen : Z) :
  ((maxLen < 0)%Z -> truncate s maxLen = None)
  /\ ((Z.of_nat (String.length s) <= maxLen)%Z -> truncate s maxLen = Some s)
  /\ ((0 <= maxLen < Z.of_nat (String.length s))%Z ->
        exists head,
          truncate s maxLen = Some (head +:+ "...")
          /\ Z.of_nat (String.length head) = maxLen
          /\ Strings.HasPrefix s head = true)
  /\ (forall t, truncate s maxLen = Some t ->
        (Z.of_nat (String.length t) <= maxLen + 3)%Z
        /\ String.length t <= String.length s + 2).
Proof.
  unfold truncate. split_and!.
  - intros Hneg. rewrite (proj2 (Z.leb_gt _ _)) by lia.
    now rewrite (proj2 (Z.ltb_lt _ _)) by lia.
  - intros Hle. now rewrite (proj2 (Z.leb_le _ _)) by lia.
  - intros [Hpos Hlt]. rewrite (proj2 (Z.leb_gt _ _)) by lia.
    rewrite (proj2 (Z.ltb_ge _ _)) by lia.
    exists (String.substring 0 (Z.to_nat maxLen) s).
    split_and!; [reflexivity | | apply HasPrefix_substring].
    rewrite length_substring by lia. lia.
  - intros t. destruct (Z.leb_spec (Z.of_nat (String.length s)) maxLen) as [Hle | Hgt].
    + intros Hok. injection Hok as <-. lia.
    + destruct (Z.ltb_spec maxLen 0) as [Hneg | Hpos]; [discriminate |].
      intros Hok. injection Hok as <-.
      rewrite length_append, length_substring by lia. cbn. lia.
Qed.

End StringLengths.

Lemma truncate_bounds_witness :
  (exists head, truncate "hello, world" 5 = Some (head +:+ "...")
                /\ Z.of_nat (String.length head) = 5%Z)
  /\ truncate "hello" 5 = Some "hello"
  /\ truncate "hello" (-1) = None.
Proof.
  split_and!.
  - destruct (truncate_bounds "hello, world" 5) as (_ & _ & Hcut & _).
    destruct Hcut as (head & Hhead & Hlen & _); [cbn; lia |].
    exists head. split; [exact Hhead | exact Hlen].
  - apply (truncate_bounds "hello" 5). cbn. lia.
  - apply (truncate_bounds "hello" (-1)). lia.
Defined.

Section OrchestratedFacts.
Context {World : Type} `{Env World} `{Lib}.

Lemma all_filled (l : list (ptr AgentResult)) :
  Forall is_Some l -> Some <$> omap id l = l.
Proof.
  induction 1 as [| x l [res ->] _ IH]; [reflexivity |].
  cbn. now rewrite IH.
Qed.

(** The results of a batch, in a runner whose agents are registered under
    their own names: no error, nil for no tasks, and otherwise one result
    per task, under the agent name of the task. *)
Lemma InvokeParallel_results (r : Runner World) (tasks : list AgentTask) (w : World) :
  wfRunner r ->
  (InvokeParallel r tasks w).1.2 = None
  /\ exists results,
       (InvokeParallel r tasks w).1.1
       = (if decide (tasks = []) then None else Some (Some <$> results))
       /\ Forall2 (fun t res => Agent res = task_Agent t) tasks results.
Proof.
  intros Hwf. unfold InvokeParallel.
  destruct tasks as [| t0 tasks].
  { split; [reflexivity |]. exists []. split; [reflexivity | constructor]. }
  change (length (t0 :: tasks) =? 0)%nat with false. cbv iota.
  unfold bind, ret.
  pose proof (parallelState_filled r (t0 :: tasks) w Hwf) as Hfilled.
  destruct (parallelState r (t0 :: tasks) w) as [st w'].
  cbn [fst snd] in *. destruct Hfilled as (Hlen & _ & Hslots).
  split; [reflexivity |]. exists (omap id (par_results st)).
  rewrite decide_False by discriminate.
  assert (Hall : Forall is_Some (par_results st)).
  { apply Forall_lookup. intros i x Hi.
    destruct (lookup_lt_is_Some_2 (t0 :: tasks) i) as [t Ht].
    { rewrite <- Hlen. now apply lookup_lt_Some in Hi. }
    destruct (Hslots i t Ht) as (res & Hres & _). rewrite Hres in Hi.
    injection Hi as <-. now exists res. }
  rewrite (all_filled _ Hall). split; [reflexivity |].
  apply Forall2_same_length_lookup. split.
  - rewrite <- Hlen, <- (all_filled _ Hall) at 1. now rewrite length_fmap.
  - intros i t res Ht Hres.
    destruct (Hslots i t Ht) as (res' & Hres' & Hagent & _).
    rewrite <- (all_filled _ Hall), list_lookup_fmap, Hres in Hres'.
    injection Hres' as <-. exact Hagent.
Qed.

Lemma InvokeSequential_results (r : Runner World) (tasks : list AgentTask) (w : World) :
  wfRunner r ->
  (InvokeSequential r tasks w).1.2 = None
  /\ exists results,
       (InvokeSequential r tasks w).1.1
       = (if decide (tasks = []) then None else Some (Some <$> results))
       /\ Forall2 (fun t res => Agent res = task_Agent t) tasks results.
Proof.
  intros Hwf. unfold InvokeSequential, sequentialSteps.
  destruct tasks as [| t0 tasks].
  { split; [reflexivity |]. exists []. split; [reflexivity | constructor]. }
  change (length (t0 :: tasks) =? 0)%nat with false. cbv iota.
  unfold bind, ret.
  pose proof (sequentialLoop_results r (t0 :: tasks) 0 "" w Hwf) as Hres.
  destruct (sequentialLoop r 0 (t0 :: tasks) "" w) as [steps w'].
  cbn [fst snd] in *. destruct Hres as [Hlen Hres].
  split; [reflexivity |]. exists (step_result <$> steps).
  rewrite decide_False by discriminate. split.
  - f_equal. rewrite <- list_fmap_compose. reflexivity.
  - apply Forall2_same_length_lookup. split.
    + now rewrite length_fmap.
    + intros i t res Ht Hi. rewrite list_lookup_fmap in Hi.
      destruct (steps !! i) as [si |] eqn:Hsi; [| discriminate].
      injection Hi as <-. destruct (Hres i si Hsi) as (Htask & Hagent & _).
      congruence.
Qed.

(** What [ExecuteOrchestrated] returns for the two modes it knows. *)
Lemma ExecuteOrchestrated_results (r : Runner World) (task : OrchestratedTask)
    (w : World) :
  wfRunner r ->
  ot_Mode task = "parallel" \/ ot_Mode task = "sequential" ->
  exists results,
    (ExecuteOrchestrated r task w).1
    = Ok {| or_Task := ot_Name task; or_Mode := ot_Mode task;
            or_Results := if decide (ot_Agents task = []) then None
                          else Some (Some <$> results) |}
    /\ map Agent results = ot_Agents task.
Proof.
  intros Hwf Hmode. unfold ExecuteOrchestrated.
  set (tasks := map _ (ot_Agents task)).
  assert (Hnil : forall A (x y : A),
            (if decide (tasks = []) then x else y)
            = (if decide (ot_Agents task = []) then x else y)).
  { intros A x y. unfold tasks. destruct (ot_Agents task); reflexivity. }
  assert (Hnames : forall results,
            Forall2 (fun t res => Agent res = task_Agent t) tasks results ->
            map Agent results = ot_Agents task).
  { unfold tasks. generalize (ot_Agents task). intros names results.
    revert results. induction names as [| n names IH]; intros results Hall;
      inversion Hall as [| t res ts rs Hhead Htail]; subst; [reflexivity |].
    cbn. f_equal; [exact Hhead | now apply IH]. }
  destruct Hmode as [Hmode | Hmode].
  - rewrite decide_True by exact Hmode. unfold bind, ret.
    destruct (InvokeParallel_results r tasks w Hwf) as (Herr & results & Hres & Hall).
    destruct (InvokeParallel r tasks w) as [[res err] w']. cbn in Herr, Hres |- *.
    subst err res. exists results. rewrite Hnil. split; [reflexivity | now apply Hnames].
  - rewrite decide_False by (rewrite Hmode; discriminate).
    rewrite decide_True by exact Hmode. unfold bind, ret.
    destruct (InvokeSequential_results r tasks w Hwf) as (Herr & results & Hres & Hall).
    destruct (InvokeSequential r tasks w) as [[res err] w']. cbn in Herr, Hres |- *.
    subst err res. exists results. rewrite Hnil. split; [reflexivity | now apply Hnames].
Qed.

(** X21. [ExecuteOrchestrated] on a runner made by [NewRunner] fails for
    one reason only: a mode other than [parallel] and [sequential] gives
    the error [unknown mode: <mode>], and then no agent is invoked. In the
    two modes it returns the name and mode of the task with one result
    per listed agent, in the order of the list and under the names of the
    list, an agent that is not configured included; with no agents listed
    the results are nil. *)
Theorem ExecuteOrchestrated_outcome (cfg : Config) (client : LLMClient World)
    (w0 : World) (r : Runner World) (task : OrchestratedTask) (w : World) :
  NewRunner cfg client w0 = Ok r ->
  (ot_Mode task <> "parallel" -> ot_Mode task <> "sequential" ->
     ExecuteOrchestrated r task w = (Err ("unknown mode: " +:+ ot_Mode task), w))
  /\ (ot_Mode task = "parallel" \/ ot_Mode task = "sequential" ->
        exists results,
          (ExecuteOrchestrated r task w).1
          = Ok {| or_Task := ot_Name task; or_Mode := ot_Mode task;
                  or_Results := if decide (ot_Agents task = []) then None
                                else Some (map Some results) |}
          /\ map Agent results = ot_Agents task).
Proof.
  intros Hnew. pose proof (NewRunner_wf _ _ _ _ Hnew) as Hwf. split.
  - intros Hp Hs. unfold ExecuteOrchestrated.
    now rewrite !decide_False by assumption.
  - intros Hmode. exact (ExecuteOrchestrated_results r task w Hwf Hmode).
Qed.

Lemma truncate_200 (output : string) :
  truncate output 200 = Some (shortened output).
Proof.
  unfold truncate, shortened.
  destruct (Z.of_nat (String.length output) <=? 200)%Z; reflexivity.
Qed.

Lemma allSuccessful_filled (results : list AgentResult) :
  allSuccessful (Some <$> results) = Some (forallb ar_Success results).
Proof.
  induction results as [| res results IH]; [reflexivity |].
  cbn. destruct (ar_Success res); [exact IH | reflexivity].
Qed.

Lemma summaryLines_filled (results : list AgentResult) :
  forall summary,
    summaryLines (Some <$> results) summary
    = Some (summary +:+ concatStrings (map summaryLine results)).
Proof.
  induction results as [| res results IH]; intros summary.
  - cbn. now rewrite append_nil_r.
  - cbn [fmap list_fmap summaryLines]. rewrite truncate_200. cbn [mbind option_bind].
    rewrite IH. f_equal. cbn [map concatStrings foldr].
    rewrite append_assoc. f_equal. f_equal. unfold summaryLine.
    destruct (ar_Success res); reflexivity.
Qed.

(** X22. On what [ExecuteOrchestrated] returns from a runner made by
    [NewRunner], [AllSuccessful] and [Summary] never meet a nil result:
    [AllSuccessful] is true exactly when every result is successful, so
    it is true when no agent was listed, and [Summary] is one line
    [[agent] STATUS: output] per listed agent, in the order of the list,
    with the output cut after 200 bytes. *)
Theorem orchestrated_result_is_summarised (cfg : Config)
    (client : LLMClient World) (w0 : World) (r : Runner World)
    (task : OrchestratedTask) (w : World) (res : OrchestratedResult) :
  NewRunner cfg client w0 = Ok r ->
  (ExecuteOrchestrated r task w).1 = Ok res ->
  exists results,
    default [] (or_Results res) = map Some results
    /\ map Agent results = ot_Agents task
    /\ AllSuccessful res = Some (forallb ar_Success results)
    /\ Summary res = Some (concatStrings (map summaryLine results))
    /\ (ot_Agents task = [] ->
          AllSuccessful res = Some true /\ Summary res = Some "").
Proof.
  intros Hnew Hok. pose proof (NewRunner_wf _ _ _ _ Hnew) as Hwf.
  assert (Hmode : ot_Mode task = "parallel" \/ ot_Mode task = "sequential").
  { unfold ExecuteOrchestrated in Hok.
    destruct (decide (ot_Mode task = "parallel")); [now left |].
    destruct (decide (ot_Mode task = "sequential")); [now right |].
    discriminate. }
  destruct (ExecuteOrchestrated_results r task w Hwf Hmode)
    as (results & Hres & Hnames).
  rewrite Hres in Hok. injection Hok as <-.
  exists results. unfold AllSuccessful, Summary. cbn [or_Results].
  assert (Hlist : default [] (if decide (ot_Agents task = []) then None
                              else Some (Some <$> results))
                  = Some <$> results).
  { case_decide as Hnil; [| reflexivity].
    rewrite Hnil in Hnames. now destruct results. }
  rewrite Hlist, allSuccessful_filled, summaryLines_filled.
  split_and!; try reflexivity; [exact Hnames |].
  intros Hnil. rewrite Hnil in Hnames. destruct results; [| discriminate].
  split; reflexivity.
Qed.

End OrchestratedFacts.

Lemma ExecuteOrchestrated_outcome_witness :
  ExecuteOrchestrated Example.builtRunner
    {| ot_Name := "review"; ot_Agents := ["a"; "b"]; ot_Input := "review the code";
       ot_Mode := "round-robin" |} Example.world
  = (Err "unknown mode: round-robin", Example.world)
  /\ exists results,
       (ExecuteOrchestrated Example.builtRunner
          {| ot_Name := "review"; ot_Agents := ["b"; "nobody"];
             ot_Input := "review the code"; ot_Mode := "parallel" |}
          Example.world).1
       = Ok {| or_Task := "review"; or_Mode := "parallel";
               or_Results := Some (map Some results) |}
       /\ map Agent results = ["b"; "nobody"].
Proof.
  split.
  - apply (ExecuteOrchestrated_outcome _ _ _ _
             {| ot_Name := "review"; ot_Agents := ["a"; "b"];
                ot_Input := "review the code"; ot_Mode := "round-robin" |}
             Example.world builtRunner_new); discriminate.
  - destruct (ExecuteOrchestrated_outcome _ _ _ _
                {| ot_Name := "review"; ot_Agents := ["b"; "nobody"];
                   ot_Input := "review the code"; ot_Mode := "parallel" |}
                Example.world builtRunner_new) as [_ Hknown].
    destruct Hknown as (results & Hres & Hnames); [now left |].
    exists results. split; [exact Hres | exact Hnames].
Defined.

Lemma orchestrated_result_is_summarised_witness :
  exists res results,
    (ExecuteOrchestrated Example.builtRunner
       {| ot_Name := "review"; ot_Agents := ["b"; "nobody"];
          ot_Input := "review the code"; ot_Mode := "sequential" |}
       Example.world).1 = Ok res
    /\ map Agent results = ["b"; "nobody"]
    /\ AllSuccessful res = Some (forallb ar_Success results)
    /\ Summary res = Some (concatStrings (map summaryLine results)).
Proof.
  set (task := {| ot_Name := "review"; ot_Agents := ["b"; "nobody"];
                  ot_Input := "review the code"; ot_Mode := "sequential" |}).
  assert (Hok : is_ok (ExecuteOrchestrated Example.builtRunner task
                         Example.world).1 = true) by (vm_compute; reflexivity).
  destruct (ExecuteOrchestrated Example.builtRunner task Example.world).1
    as [res | err] eqn:Hrun; [| discriminate].
  destruct (orchestrated_result_is_summarised _ _ _ _ task Example.world res
              builtRunner_new Hrun) as (results & _ & Hnames & Hall & Hsum & _).
  exists res, results. split_and!; [reflexivity | exact Hnames | exact Hall | exact Hsum].
Defined.

(** ** The MCP server: requests and responses *)

Section Dispatch.
Context {World : Type} `{Env World} `{Lib} `{Codec}.

Lemma okResponse_wellFormed (id : option string) (result : ResultValue) :
  wellFormed (okResponse id result).
Proof.
  split; [reflexivity |]. cbn. split; [reflexivity | intros _; now eexists].
Qed.

Lemma errorResponse_wellFormed (id : option string) (code : Z)
    (message : string) (data : option error) :
  wellFormed (errorResponse id code message data).
Proof.
  split; [reflexivity |]. cbn. split; [intros [? ?]; discriminate | discriminate].
Qed.

(** A tool handler's result, wrapped into the response. *)
Lemma respond_shape (call : M World CallToolResult) (id : option string) (w : World) :
  (call' <- call ;; ret (okResponse id (ResCallTool call'))) w
  = (okResponse id (ResCallTool (call w).1), (call w).2).
Proof. unfold bind, ret. now destruct (call w). Qed.

(** The names that tools/list advertises. *)
Lemma toolCatalog_names (agentNames : list string) :
  map ti_Name (toolCatalog agentNames)
  = ["invoke_agent"; "invoke_parallel"; "list_agents"; "read_file";
     "glob_files"; "grep_files"; "run_command"].
Proof. reflexivity. Qed.

(** X23. [handleToolsCall] answers with a JSON-RPC error in two cases
    only: parameters that do not unmarshal give [-32602 Invalid params]
    with the decoder's error as data, and a tool name that tools/list
    does not advertise gives [-32601 Unknown tool]; in both cases nothing
    is invoked. For each of the seven advertised names the response is a
    result holding a tool result, whatever the tool does: a failure of the
    tool is reported inside the result. *)
Theorem handleToolsCall_outcome (s : Server World) (req : Request) (w : World) :
  (forall err, json_UnmarshalParams (req_Params req) = Err err ->
     handleToolsCall s req w
     = ({| rsp_JSONRPC := "2.0"; rsp_ID := req_ID req; rsp_Result := None;
           rsp_Error := Some {| er_Code := -32602; er_Message := "Invalid params";
                                er_Data := Some err |} |}, w))
  /\ (forall params, json_UnmarshalParams (req_Params req) = Ok params ->
        (params_Name params ∉ map ti_Name (toolCatalog []) ->
           handleToolsCall s req w
           = ({| rsp_JSONRPC := "2.0"; rsp_ID := req_ID req; rsp_Result := None;
                 rsp_Error := Some {| er_Code := -32601;
                                      er_Message := "Unknown tool";
                                      er_Data := None |} |}, w))
        /\ (params_Name params ∈ map ti_Name (toolCatalog []) ->
              exists result,
                (handleToolsCall s req w).1
                = {| rsp_JSONRPC := "2.0"; rsp_ID := req_ID req;
                     rsp_Result := Some (ResCallTool result);
                     rsp_Error := None |})).
Proof.
  unfold handleToolsCall. split.
  - intros err ->. reflexivity.
  - intros params ->. cbv zeta. rewrite toolCatalog_names. split.
    + intros Hout.
      repeat (case_decide;
              [exfalso; apply Hout;
               match goal with
               | Hn : params_Name params = _ |- _ => rewrite Hn
               end;
               apply (bool_decide_unpack _); vm_compute; exact I |]).
      reflexivity.
    + intros Hin.
      repeat (case_decide; [rewrite respond_shape; now eexists |]).
      exfalso.
      repeat (apply elem_of_cons in Hin as [Hin | Hin]; [congruence |]).
      now apply elem_of_nil in Hin.
Qed.

Lemma handleToolsCall_shape (s : Server World) (req : Request) (w : World) :
  rsp_ID (handleToolsCall s req w).1 = req_ID req
  /\ wellFormed (handleToolsCall s req w).1.
Proof.
  unfold handleToolsCall.
  destruct (json_UnmarshalParams (req_Params req)) as [params | err];
    [| split; [reflexivity | apply errorResponse_wellFormed]].
  cbv zeta.
  repeat (case_decide;
          [rewrite respond_shape; split; [reflexivity | apply okResponse_wellFormed] |]).
  split; [reflexivity | apply errorResponse_wellFormed].
Qed.

(** What [handleRequest] does with any request. *)
Lemma handleRequest_shape (s : Server World) (req : Request) (w : World) :
  let out := (handleRequest s req w).1 in
  (out.2 = None <-> req_Method req = "initialized")
  /\ (forall rsp, out.2 = Some rsp ->
        rsp_ID rsp = req_ID req /\ wellFormed rsp)
  /\ runner out.1 = runner s
  /\ serverInfo out.1 = serverInfo s
  /\ initialized out.1
     = initialized s || bool_decide (req_Method req = "initialize").
Proof.
  cbv zeta. unfold handleRequest. cbv zeta.
  assert (Hsome : forall (rsp : Response) (s' : Server World) (w' : World),
            rsp_ID rsp = req_ID req -> wellFormed rsp ->
            req_Method req <> "initialized" ->
            ((s', Some rsp, w').1.2 = None <-> req_Method req = "initialized")
            /\ (forall rsp', (s', Some rsp, w').1.2 = Some rsp' ->
                  rsp_ID rsp' = req_ID req /\ wellFormed rsp')).
  { intros rsp s' w' Hid Hwf Hne. cbn. split; [split; [discriminate | contradiction] |].
    intros rsp' Heq. injection Heq as <-. now split. }
  destruct (decide (req_Method req = "initialize")) as [Hm | Hinit].
  { rewrite Hm, bool_decide_true, orb_true_r by reflexivity. cbn.
    split_and!; try reflexivity; [split; discriminate |].
    intros rsp Heq. injection Heq as <-.
    split; [reflexivity | apply okResponse_wellFormed]. }
  rewrite (bool_decide_false _ Hinit), orb_false_r.
  destruct (decide (req_Method req = "initialized")) as [Hm | Hnote].
  { cbn. split_and!; try reflexivity; [tauto | discriminate]. }
  assert (Hdone : forall (rsp : Response) (w' : World),
            rsp_ID rsp = req_ID req -> wellFormed rsp ->
            ((s, Some rsp, w').1.2 = None <-> req_Method req = "initialized")
            /\ (forall rsp', (s, Some rsp, w').1.2 = Some rsp' ->
                  rsp_ID rsp' = req_ID req /\ wellFormed rsp')
            /\ runner (s, Some rsp, w').1.1 = runner s
            /\ serverInfo (s, Some rsp, w').1.1 = serverInfo s
            /\ initialized (s, Some rsp, w').1.1 = initialized s).
  { intros rsp w' Hid Hwf.
    destruct (Hsome rsp s w' Hid Hwf Hnote) as [Hnone Hrsp].
    split_and!; try reflexivity; assumption. }
  case_decide.
  { unfold handleToolsList, bind, ret.
    destruct (ListAgents (runner s) w) as [names w'].
    apply Hdone; [reflexivity | apply okResponse_wellFormed]. }
  case_decide.
  { unfold bind, ret.
    pose proof (handleToolsCall_shape s req w) as [Hid Hwf].
    destruct (handleToolsCall s req w) as [rsp w']. now apply Hdone. }
  repeat (case_decide;
          [apply Hdone;
           [reflexivity | apply okResponse_wellFormed || apply errorResponse_wellFormed] |]).
  apply Hdone; [reflexivity | apply errorResponse_wellFormed].
Qed.

(** X24. Every request but the [initialized] notification gets exactly one
    response, under the id of the request and with version [2.0], which
    holds either a result or an error, never both and never neither; the
    notification gets none. Handling a request never changes the runner
    or the server information, and the only change to the server is that
    [initialize] sets its flag. *)
Theorem handleRequest_answers_under_request_id (s : Server World)
    (req : Request) (w : World) :
  let '(s', resp, _) := handleRequest s req w in
  (resp = None <-> req_Method req = "initialized")
  /\ (forall rsp, resp = Some rsp ->
        rsp_JSONRPC rsp = "2.0"
        /\ rsp_ID rsp = req_ID req
        /\ (is_Some (rsp_Result rsp) <-> rsp_Error rsp = None))
  /\ runner s' = runner s
  /\ serverInfo s' = serverInfo s
  /\ initialized s'
     = initialized s || bool_decide (req_Method req = "initialize").
Proof.
  pose proof (handleRequest_shape s req w) as Hshape. cbv zeta in Hshape.
  destruct (handleRequest s req w) as [[s' resp] w']. cbn in Hshape.
  destruct Hshape as (Hnone & Hrsp & Hrunner & Hinfo & Hflag).
  split_and!; try assumption.
  intros rsp Heq. destruct (Hrsp rsp Heq) as (Hid & Hversion & Hone).
  split_and!; assumption.
Qed.

(** X25. The server answers the same whether or not it has been
    initialized: two servers over the same runner and server information
    give the same response to any request and leave the same world. *)
Theorem handleRequest_ignores_initialized (s1 s2 : Server World)
    (req : Request) (w : World) :
  runner s1 = runner s2 -> serverInfo s1 = serverInfo s2 ->
  (handleRequest s1 req w).1.2 = (handleRequest s2 req w).1.2
  /\ (handleRequest s1 req w).2 = (handleRequest s2 req w).2.
Proof.
  destruct s1 as [r1 i1 b1], s2 as [r2 i2 b2]. cbn. intros -> ->.
  set (s1 := {| runner := r2; serverInfo := i2; initialized := b1 |}).
  set (s2 := {| runner := r2; serverInfo := i2; initialized := b2 |}).
  assert (Hlist : handleToolsList s1 req w = handleToolsList s2 req w)
    by reflexivity.
  assert (Hcall : handleToolsCall s1 req w = handleToolsCall s2 req w)
    by reflexivity.
  unfold handleRequest. cbv zeta.
  repeat (case_decide; [split; reflexivity |]).
  case_decide.
  { unfold bind, ret. rewrite Hlist.
    destruct (handleToolsList s2 req w). split; reflexivity. }
  case_decide.
  { unfold bind, ret. rewrite Hcall.
    destruct (handleToolsCall s2 req w). split; reflexivity. }
  repeat (case_decide; [split; reflexivity |]). split; reflexivity.
Qed.

End Dispatch.

Lemma handleToolsCall_outcome_witness :
  let s := NewServer Example.builtRunner "agentkit-local" "1.0.0" in
  let call params := {| req_JSONRPC := "2.0"; req_ID := Some "7";
                        req_Method := "tools/call"; req_Params := params |} in
  (@handleToolsCall _ _ _ Example.callCodec s (call None) Example.world).1
  = {| rsp_JSONRPC := "2.0"; rsp_ID := Some "7"; rsp_Result := None;
       rsp_Error := Some {| er_Code := -32602; er_Message := "Invalid params";
                            er_Data := Some "unexpected end of JSON input" |} |}
  /\ (@handleToolsCall _ _ _ Example.callCodec s
        (call (Some Example.flyParams)) Example.world).1
     = {| rsp_JSONRPC := "2.0"; rsp_ID := Some "7"; rsp_Result := None;
          rsp_Error := Some {| er_Code := -32601; er_Message := "Unknown tool";
                               er_Data := None |} |}
  /\ exists result,
       (@handleToolsCall _ _ _ Example.callCodec s
          (call (Some Example.readFileParams)) Example.world).1
       = {| rsp_JSONRPC := "2.0"; rsp_ID := Some "7";
            rsp_Result := Some (ResCallTool result); rsp_Error := None |}.
Proof.
  cbv zeta.
  set (s := NewServer Example.builtRunner "agentkit-local" "1.0.0").
  set (call := fun params => {| req_JSONRPC := "2.0"; req_ID := Some "7";
                                req_Method := "tools/call"; req_Params := params |}).
  split_and!.
  - destruct (@handleToolsCall_outcome _ _ _ Example.callCodec s (call None)
                Example.world) as [Hbad _].
    now rewrite (Hbad "unexpected end of JSON input" eq_refl).
  - destruct (@handleToolsCall_outcome _ _ _ Example.callCodec s
                (call (Some Example.flyParams)) Example.world) as [_ Hok].
    destruct (Hok {| params_Name := "fly"; params_Arguments := ∅ |} eq_refl)
      as [Hunknown _].
    rewrite Hunknown; [reflexivity |].
    apply (bool_decide_unpack _). vm_compute. exact I.
  - destruct (@handleToolsCall_outcome _ _ _ Example.callCodec s
                (call (Some Example.readFileParams)) Example.world) as [_ Hok].
    destruct (Hok {| params_Name := "read_file";
                     params_Arguments := {[ "path" := AnyString "a.txt" ]} |}
                eq_refl) as [_ Hknown].
    apply Hknown. apply (bool_decide_unpack _). vm_compute. exact I.
Defined.

Lemma handleRequest_answers_under_request_id_witness :
  let s := NewServer Example.builtRunner "agentkit-local" "1.0.0" in
  (exists rsp,
     (handleRequest s {| req_JSONRPC := "2.0"; req_ID := Some "1";
                         req_Method := "tools/list"; req_Params := None |}
        Example.world).1.2 = Some rsp
     /\ rsp_ID rsp = Some "1")
  /\ (handleRequest s {| req_JSONRPC := "2.0"; req_ID := None;
                         req_Method := "initialized"; req_Params := None |}
        Example.world).1.2 = None.
Proof.
  cbv zeta. split.
  - pose proof (handleRequest_answers_under_request_id
                  (NewServer Example.builtRunner "agentkit-local" "1.0.0")
                  {| req_JSONRPC := "2.0"; req_ID := Some "1";
                     req_Method := "tools/list"; req_Params := None |}
                  Example.world) as Hans.
    destruct (handleRequest _ _ Example.world) as [[s' resp] w'].
    destruct Hans as (Hnone & Hrsp & _). cbn.
    destruct resp as [rsp |]; [| discriminate (proj1 Hnone eq_refl)].
    exists rsp. split; [reflexivity | now apply Hrsp].
  - pose proof (handleRequest_answers_under_request_id
                  (NewServer Example.builtRunner "agentkit-local" "1.0.0")
                  {| req_JSONRPC := "2.0"; req_ID := None;
                     req_Method := "initialized"; req_Params := None |}
                  Example.world) as Hans.
    destruct (handleRequest _ _ Example.world) as [[s' resp] w'].
    destruct Hans as (Hnone & _). cbn. now apply Hnone.
Defined.

Lemma handleRequest_ignores_initialized_witness :
  let s := NewServer Example.builtRunner "agentkit-local" "1.0.0" in
  let req := {| req_JSONRPC := "2.0"; req_ID := Some "1";
                req_Method := "tools/list"; req_Params := None |} in
  initialized s = false
  /\ initialized (handleInitialize s req).1 = true
  /\ (handleRequest s req Example.world).1.2
     = (handleRequest (handleInitialize s req).1 req Example.world).1.2.
Proof.
  cbv zeta. split; [reflexivity |]. split; [reflexivity |].
  apply handleRequest_ignores_initialized; reflexivity.
Defined.

(** ** The MCP server: tool handlers *)

Section Handlers.
Context {World : Type} `{Env World} `{Lib} `{Codec}.

Lemma stringArg_missing (args : gmap string any) (key : string) :
  assertString (args !! key) = None -> stringArg args key = "".
Proof. unfold stringArg. now intros ->. Qed.

(** X26. The tool handlers of the MCP server test their required
    arguments before anything else. An argument that is missing, is not a
    string, or is the empty string counts as not given; the handler then
    returns an error result naming the arguments, and nothing is invoked,
    read or run. *)
Theorem tool_handlers_require_arguments (s : Server World)
    (args : gmap string any) (w : World) :
  let failure message :=
    ({| ctr_Content := [ {| cb_Type := "text"; cb_Text := "Error: " +:+ message;
                            cb_Data := ""; cb_MimeType := "" |} ];
        ctr_IsError := true |}, w) in
  (forall key, assertString (args !! key) = None -> stringArg args key = "")
  /\ (stringArg args "agent" = "" \/ stringArg args "input" = "" ->
        callInvokeAgent s args w = failure "agent and input are required")
  /\ (stringArg args "agents" = "" \/ stringArg args "input" = "" ->
        callInvokeParallel s args w = failure "agents and input are required")
  /\ (stringArg args "path" = "" ->
        callReadFile s args w = failure "path is required")
  /\ (stringArg args "pattern" = "" ->
        callGlobFiles s args w = failure "pattern is required"
        /\ callGrepFiles s args w = failure "pattern is required")
  /\ (stringArg args "command" = "" ->
        callRunCommand s args w = failure "command is required").
Proof.
  cbv zeta. split_and!.
  - apply stringArg_missing.
  - unfold callInvokeAgent. intros [-> | ->]; [reflexivity |].
    now rewrite orb_true_r.
  - unfold callInvokeParallel. intros [-> | ->]; [reflexivity |].
    now rewrite orb_true_r.
  - unfold callReadFile. now intros ->.
  - unfold callGlobFiles, callGrepFiles. now intros ->.
  - unfold callRunCommand. now intros ->.
Qed.

Lemma ReadFile_ok_inside (ts : ToolSet) (path : string) (w : World)
    (content : string) :
  Filepath.IsAbs (workspace ts) = true ->
  ReadFile ts path w = Ok content ->
  exists elems,
    Forall properElem elems
    /\ os_ReadFile (rootedPath (workspaceElems ts ++ elems)) w = Ok content.
Proof.
  intros Hws. unfold ReadFile.
  destruct (validatePath ts path w) as [absPath | err] eqn:Hpath; [| discriminate].
  destruct (validatePath_accepts _ _ _ _ Hws Hpath) as (elems & Hel & -> & _).
  destruct (os_Stat _ w) as [info | err]; [| discriminate].
  destruct (fi_IsDir info); [discriminate |].
  destruct (fi_Size info >? maxFileSize ts)%Z; [discriminate |].
  destruct (os_ReadFile _ w) as [c | err] eqn:Hread; [| discriminate].
  intros Hok. injection Hok as <-. now exists elems.
Qed.

Lemma NewRunner_workspace_absolute (cfg : Config) (client : LLMClient World)
    (w0 : World) (r : Runner World) :
  NewRunner cfg client w0 = Ok r ->
  (forall wd, os_Getwd w0 = Ok wd -> Filepath.IsAbs wd = true) ->
  Filepath.IsAbs (workspace (toolSet r)) = true
  /\ workspace (toolSet r) = Workspace (config r)
  /\ Filepath.Clean (Workspace (config r)) = Workspace (config r).
Proof.
  intros Hnew Hwd.
  destruct (NewRunner_inv _ _ _ _ Hnew) as (Hval & -> & _).
  destruct (Validate_inv _ _ _ Hval) as (_ & Habs & _).
  destruct (Abs_clean _ _ _ Hwd Habs) as [Hrooted Hclean].
  cbn. split_and!; [exact Hrooted | reflexivity | exact Hclean].
Qed.

(** X27. What the [read_file] handler can disclose. For a server over a
    runner made by [NewRunner] in a process whose working directory is an
    absolute path, the workspace of the tools is absolute and clean, the
    handler leaves the world as it is, and a result of it that is not an
    error holds the content of a file under the workspace root: the root
    followed by proper elements. *)
Theorem read_file_discloses_only_workspace_files (cfg : Config)
    (client : LLMClient World) (w0 : World) (s : Server World)
    (args : gmap string any) (w : World) :
  NewRunner cfg client w0 = Ok (runner s) ->
  (forall wd, os_Getwd w0 = Ok wd -> Filepath.IsAbs wd = true) ->
  let ts := toolSet (runner s) in
  Filepath.IsAbs (workspace ts) = true
  /\ Filepath.Clean (workspace ts) = workspace ts
  /\ (callReadFile s args w).2 = w
  /\ (ctr_IsError (callReadFile s args w).1 = false ->
        exists elems content,
          Forall properElem elems
          /\ os_ReadFile (rootedPath (workspaceElems ts ++ elems)) w = Ok content
          /\ ctr_Content (callReadFile s args w).1
             = [ {| cb_Type := "text"; cb_Text := content;
                    cb_Data := ""; cb_MimeType := "" |} ]).
Proof.
  intros Hnew Hwd. cbv zeta.
  destruct (NewRunner_workspace_absolute _ _ _ _ Hnew Hwd) as (Hws & Heq & Hclean).
  rewrite Heq at 2 3. split_and!; [exact Hws | exact Hclean | |].
  - unfold callReadFile. now destruct (bool_decide _).
  - unfold callReadFile. destruct (bool_decide _); [discriminate |]. cbn.
    destruct (ReadFile _ _ w) as [content | err] eqn:Hread; [| discriminate].
    intros _. destruct (ReadFile_ok_inside _ _ _ _ Hws Hread) as (elems & Hel & Hfile).
    now exists elems, content.
Qed.

Lemma formatResults_filled (results : list AgentResult) :
  forall output hasError,
    formatResults (Some <$> results) output hasError
    = (output +:+ concatStrings (map resultSection results),
       hasError || negb (forallb ar_Success results)).
Proof.
  induction results as [| res results IH]; intros output hasError.
  - cbn. now rewrite append_nil_r, orb_false_r.
  - cbn [fmap list_fmap formatResults]. rewrite IH.
    cbn [map concatStrings foldr forallb]. f_equal.
    + now rewrite append_assoc.
    + destruct hasError, (ar_Success res), (forallb ar_Success results); reflexivity.
Qed.

(** X28. [invoke_parallel] over a runner made by [NewRunner], with both
    arguments given: the agents string is cut at the commas and each piece
    is trimmed; the text of the result consists of one section
    [## name [SUCCESS|FAILED]] with the output per piece, in the order of
    the pieces and under the trimmed names, and the result is marked as an
    error exactly when some agent's result is not successful. *)
Theorem invoke_parallel_reports_each_agent (cfg : Config)
    (client : LLMClient World) (w0 : World) (s : Server World)
    (args : gmap string any) (w : World) :
  NewRunner cfg client w0 = Ok (runner s) ->
  stringArg args "agents" <> "" -> stringArg args "input" <> "" ->
  exists results,
    (callInvokeParallel s args w).1
    = {| ctr_Content :=
           [ {| cb_Type := "text";
                cb_Text := concatStrings (map resultSection results);
                cb_Data := ""; cb_MimeType := "" |} ];
         ctr_IsError := negb (forallb ar_Success results) |}
    /\ map Agent results
       = map strings_TrimSpace (Strings.Split (stringArg args "agents") ","%char).
Proof.
  intros Hnew Hagents Hinput. pose proof (NewRunner_wf _ _ _ _ Hnew) as Hwf.
  unfold callInvokeParallel.
  rewrite (bool_decide_false _ Hagents), (bool_decide_false _ Hinput). cbn [orb].
  set (names := Strings.Split (stringArg args "agents") ","%char).
  set (tasks := map _ names).
  assert (Hne : tasks <> []).
  { unfold tasks.
    pose proof (Split_nonempty (stringArg args "agents") ","%char) as Hsplit.
    fold names in Hsplit. now destruct names. }
  destruct (InvokeParallel_results (runner s) tasks w Hwf)
    as (Herr & results & Hres & Hall).
  unfold bind, ret.
  destruct (InvokeParallel (runner s) tasks w) as [[res err] w']. cbn in Herr, Hres.
  subst err res. rewrite decide_False by exact Hne.
  cbn [default from_option id]. rewrite formatResults_filled. cbn.
  exists results. split; [reflexivity |].
  unfold tasks in Hall. clear Hne. revert results Hall.
  generalize names. intros l. induction l as [| n l IH]; intros results Hall;
    inversion Hall as [| t res ts rs Hhead Htail]; subst; [reflexivity |].
  cbn. f_equal; [exact Hhead | now apply IH].
Qed.

(** X29. [run_command] with a command runs [sh -c <command>] with the
    workspace as working directory, once. When the process cannot be
    started the result is the error [command execution failed: ...];
    otherwise the text is the captured standard output, followed when the
    standard error is not empty by [STDERR:] and the standard error (on a
    line of its own if there was output), and the result is marked as an
    error exactly when the exit code is not 0. *)
Theorem run_command_reports_exit_status (s : Server World)
    (args : gmap string any) (w : World) :
  stringArg args "command" <> "" ->
  let out := exec_Run {| cmd_Path := "sh";
                         cmd_Args := ["-c"; stringArg args "command"];
                         cmd_Dir := workspace (toolSet (runner s)) |} w in
  let text :=
    if decide (run_stderr out.1 = "") then run_stdout out.1
    else if decide (run_stdout out.1 = "")
         then "STDERR:" +:+ LF +:+ run_stderr out.1
         else run_stdout out.1 +:+ LF +:+ "STDERR:" +:+ LF +:+ run_stderr out.1 in
  let shown isError :=
    {| ctr_Content := [ {| cb_Type := "text"; cb_Text := text;
                           cb_Data := ""; cb_MimeType := "" |} ];
       ctr_IsError := isError |} in
  (callRunCommand s args w).2 = out.2
  /\ (callRunCommand s args w).1
     = match run_err out.1 with
       | RunNil => shown false
       | RunExitError code => shown (negb (code =? 0)%Z)
       | RunFailed err =>
           {| ctr_Content :=
                [ {| cb_Type := "text";
                     cb_Text := "Error: command execution failed: " +:+ err;
                     cb_Data := ""; cb_MimeType := "" |} ];
              ctr_IsError := true |}
       end.
Proof.
  intros Hcommand. cbv zeta. unfold callRunCommand.
  rewrite (bool_decide_false _ Hcommand).
  unfold RunShell, RunCommand, commandIn, bind, ret.
  destruct (exec_Run _ w) as [out w']. cbn [fst snd].
  destruct (run_err out) as [| code | err]; cbn; (split; [reflexivity |]);
    try reflexivity;
    destruct (decide (run_stderr out = "")); try reflexivity;
    destruct (decide (run_stdout out = "")) as [-> |]; try reflexivity;
    now rewrite append_assoc.
Qed.

End Handlers.

Lemma tool_handlers_require_arguments_witness :
  let s := NewServer Example.builtRunner "agentkit-local" "1.0.0" in
  callReadFile s {[ "file" := AnyString "a.txt" ]} Example.world
  = (errorResult "path is required", Example.world)
  /\ callInvokeAgent s {[ "agent" := AnyString "a" ]} Example.world
     = (errorResult "agent and input are required", Example.world).
Proof.
  cbv zeta. split.
  - destruct (tool_handlers_require_arguments
                (NewServer Example.builtRunner "agentkit-local" "1.0.0")
                {[ "file" := AnyString "a.txt" ]} Example.world)
      as (Hmissing & _ & _ & Hread & _).
    exact (Hread (Hmissing "path" eq_refl)).
  - destruct (tool_handlers_require_arguments
                (NewServer Example.builtRunner "agentkit-local" "1.0.0")
                {[ "agent" := AnyString "a" ]} Example.world)
      as (Hmissing & Hagent & _).
    exact (Hagent (or_intror (Hmissing "input" eq_refl))).
Defined.

Lemma read_file_discloses_only_workspace_files_witness :
  let s := NewServer Example.builtRunner "agentkit-local" "1.0.0" in
  exists elems,
    os_ReadFile (rootedPath (workspaceElems (toolSet (runner s)) ++ elems))
      Example.world = Ok "hello"
    /\ ctr_Content (callReadFile s {[ "path" := AnyString "a.txt" ]}
                      Example.world).1
       = [NewTextContent "hello"].
Proof.
  cbv zeta.
  set (s := NewServer Example.builtRunner "agentkit-local" "1.0.0").
  set (args := {[ "path" := AnyString "a.txt" ]} : gmap string any).
  assert (Hwd : forall wd, os_Getwd Example.world = Ok wd ->
                           Filepath.IsAbs wd = true).
  { intros wd Hwd. injection Hwd as <-. reflexivity. }
  assert (Hok : ctr_IsError (callReadFile s args Example.world).1 = false)
    by (vm_compute; reflexivity).
  assert (Htext : ctr_Content (callReadFile s args Example.world).1
                  = [NewTextContent "hello"]) by (vm_compute; reflexivity).
  destruct (read_file_discloses_only_workspace_files
              (Example.configOf ["a"; "b"]) Example.loopingLLM Example.world
              s args Example.world builtRunner_new Hwd)
    as (_ & _ & _ & Hfile).
  destruct (Hfile Hok) as (elems & content & _ & Hread & Hcontent).
  exists elems. split; [| exact Htext].
  rewrite Htext in Hcontent. injection Hcontent as <-. exact Hread.
Defined.

Lemma invoke_parallel_reports_each_agent_witness :
  let s := NewServer Example.builtRunner "agentkit-local" "1.0.0" in
  let args := {[ "agents" := AnyString "b,nobody"; "input" := AnyString "hi" ]} in
  exists results,
    map Agent results = ["b"; "nobody"]
    /\ ctr_IsError (callInvokeParallel s args Example.world).1
       = negb (forallb ar_Success results).
Proof.
  cbv zeta.
  set (s := NewServer Example.builtRunner "agentkit-local" "1.0.0").
  set (args := {[ "agents" := AnyString "b,nobody"; "input" := AnyString "hi" ]}
               : gmap string any).
  destruct (invoke_parallel_reports_each_agent
              (Example.configOf ["a"; "b"]) Example.loopingLLM Example.world
              s args Example.world builtRunner_new)
    as (results & Hres & Hnames).
  - vm_compute. discriminate.
  - vm_compute. discriminate.
  - exists results. split; [exact Hnames | now rewrite Hres].
Defined.

Lemma run_command_reports_exit_status_witness :
  let s := NewServer Example.builtRunner "agentkit-local" "1.0.0" in
  (callRunCommand s {[ "command" := AnyString "exit 3" ]} Example.world).1
  = {| ctr_Content := [NewTextContent ""]; ctr_IsError := true |}
  /\ (callRunCommand s {[ "command" := AnyString "echo hi" ]} Example.world).1
     = {| ctr_Content := [NewTextContent ("hi" +:+ LF)]; ctr_IsError := false |}.
Proof.
  cbv zeta. split.
  - destruct (run_command_reports_exit_status
                (NewServer Example.builtRunner "agentkit-local" "1.0.0")
                {[ "command" := AnyString "exit 3" ]} Example.world) as [_ Hres].
    + vm_compute. discriminate.
    + rewrite Hres. vm_compute. reflexivity.
  - destruct (run_command_reports_exit_status
                (NewServer Example.builtRunner "agentkit-local" "1.0.0")
                {[ "command" := AnyString "echo hi" ]} Example.world) as [_ Hres].
    + vm_compute. discriminate.
    + rewrite Hres. vm_compute. reflexivity.
Defined.

(** ** The MCP server: the read loop as a whole *)

Section ReadLoop.
Context {World : Type} `{Env World} `{Lib} `{Codec}.

Lemma serveLoop_request (s : Server World) (line : string) (rest : list string)
    (scanErr : option error) (out : list Response) (req : Request) (w : World) :
  (ctx_Err w).1 = None -> line <> "" -> json_UnmarshalRequest line = Ok req ->
  serveLoop s (line :: rest) scanErr out w
  = (let '(s', resp, w') := handleRequest s req (ctx_Err w).2 in
     match resp with
     | Some rsp => serveLoop s' rest scanErr (out ++ [rsp]) w'
     | None => serveLoop s' rest scanErr out w'
     end).
Proof.
  intros Hlive Hline Hreq. cbn [serveLoop]. unfold bind at 1.
  destruct (ctx_Err w) as [cancelled w1]. cbn in Hlive |- *. subst cancelled.
  rewrite decide_False by exact Hline. rewrite Hreq. unfold bind.
  destruct (handleRequest s req w1) as [[s' resp] w2]. cbn.
  now destruct resp.
Qed.

Lemma omap_replyTo (line : string) (rest : list string) :
  omap replyTo (line :: rest)
  = match replyTo line with
    | Some id => id :: omap replyTo rest
    | None => omap replyTo rest
    end.
Proof. reflexivity. Qed.

(** The read loop while the request context is never done: what it adds
    to the responses written so far. *)
Lemma serveLoop_replies (lines : list string) (scanErr : option error) :
  (forall w, (ctx_Err w).1 = None) ->
  forall (s : Server World) (out : list Response) (w : World),
    let served := (serveLoop s lines scanErr out w).1 in
    exists new,
      served_out served = out ++ new
      /\ map rsp_ID new = omap replyTo lines
      /\ Forall wellFormed new
      /\ served_err served = scanErr
      /\ runner (served_server served) = runner s
      /\ serverInfo (served_server served) = serverInfo s.
Proof.
  intros Hctx. induction lines as [| line rest IH]; intros s out w; cbv zeta.
  - exists []. cbn. rewrite app_nil_r. split_and!; try reflexivity. constructor.
  - rewrite omap_replyTo. unfold replyTo at 1.
    destruct (decide (line = "")) as [-> | Hline].
    { rewrite serveLoop_empty_line by apply Hctx. apply IH. }
    destruct (json_UnmarshalRequest line) as [req | err] eqn:Hreq.
    + rewrite (serveLoop_request s line rest scanErr out req w (Hctx w) Hline Hreq).
      pose proof (handleRequest_shape s req (ctx_Err w).2) as Hshape.
      cbv zeta in Hshape.
      destruct (handleRequest s req (ctx_Err w).2) as [[s' resp] w2].
      cbn in Hshape. destruct Hshape as (Hnone & Hrsp & Hrunner & Hinfo & _).
      destruct resp as [rsp |].
      * destruct (IH s' (out ++ [rsp]) w2)
          as (new & Hout & Hids & Hwf & Herr & Hr & Hi).
        destruct (Hrsp rsp eq_refl) as [Hid Hwell].
        exists (rsp :: new). rewrite Hout, <- app_assoc.
        rewrite decide_False.
        2:{ intros Hm. apply Hnone in Hm. discriminate. }
        split_and!; [reflexivity | cbn; now rewrite Hid, Hids | now constructor
                    | exact Herr | congruence | congruence].
      * destruct (IH s' out w2) as (new & Hout & Hids & Hwf & Herr & Hr & Hi).
        exists new. rewrite decide_True by now apply Hnone.
        split_and!; [exact Hout | exact Hids | exact Hwf | exact Herr
                    | congruence | congruence].
    + rewrite (serveLoop_malformed s line rest scanErr out err w (Hctx w) Hline Hreq).
      destruct (IH s (out ++ [parseErrorResponse err]) (ctx_Err w).2)
        as (new & Hout & Hids & Hwf & Herr & Hr & Hi).
      exists (parseErrorResponse err :: new).
      rewrite Hout, <- app_assoc.
      split_and!; [reflexivity | cbn; now rewrite Hids | | exact Herr | exact Hr | exact Hi].
      constructor; [apply (errorResponse_wellFormed None) | exact Hwf].
Qed.

(** X30. The read loop answers in the order of the input. While the
    request context is not done, [serve] writes one response per line
    that is neither empty nor the [initialized] notification, in the order
    of the lines and each under the id of its request (the nil id for a
    line that does not unmarshal); every response holds either a result
    or an error; the loop ends with the input and returns the scanner's
    error; and the runner of the server is the same at the end. When the
    context is found done at a line, the loop returns the context's error
    at once: the line is dropped and the responses so far are all there
    are. *)
Theorem serve_answers_in_order (s : Server World) :
  ((forall w, (ctx_Err w).1 = None) ->
     forall input w,
       let served := (serve s input w).1 in
       map rsp_ID (served_out served) = omap replyTo (scan_lines input)
       /\ Forall (fun rsp => rsp_JSONRPC rsp = "2.0"
                             /\ (is_Some (rsp_Result rsp) <-> rsp_Error rsp = None))
            (served_out served)
       /\ served_err served = scan_Err input
       /\ runner (served_server served) = runner s)
  /\ (forall line rest scanErr out w err,
        (ctx_Err w).1 = Some err ->
        serveLoop s (line :: rest) scanErr out w
        = ({| served_server := s; served_out := out; served_err := Some err |},
           (ctx_Err w).2)).
Proof.
  split.
  - intros Hctx input w. cbv zeta. unfold serve.
    destruct (serveLoop_replies (scan_lines input) (scan_Err input) Hctx s [] w)
      as (new & Hout & Hids & Hwf & Herr & Hrunner & _).
    rewrite Hout. cbn [app].
    split_and!; [exact Hids | exact Hwf | exact Herr | exact Hrunner].
  - intros line rest scanErr out w err Hdone.
    cbn [serveLoop]. unfold bind, ret.
    destruct (ctx_Err w) as [cancelled w1]. cbn in Hdone. now subst cancelled.
Qed.

End ReadLoop.

Lemma serve_answers_in_order_witness :
  let s := NewServer Example.builtRunner "agentkit-local" "1.0.0" in
  let input := {| scan_lines := ["{oops"; ""; Example.initializedLine;
                                 Example.toolsListLine];
                  scan_Err := None |} in
  map rsp_ID (served_out (serve s input Example.world).1) = [None; Some "1"]
  /\ served_err (serve s input Example.world).1 = None
  /\ (@serve _ Example.doneEnv _ _ s input Example.world).1
     = {| served_server := s; served_out := [];
          served_err := Some "context canceled" |}.
Proof.
  cbv zeta. split_and!.
  - destruct (serve_answers_in_order
                (NewServer Example.builtRunner "agentkit-local" "1.0.0"))
      as [Hlive _].
    assert (Hctx : forall w : Example.World, (ctx_Err w).1 = None)
      by (intros w; reflexivity).
    destruct (Hlive Hctx
                {| scan_lines := ["{oops"; ""; Example.initializedLine;
                                  Example.toolsListLine];
                   scan_Err := None |} Example.world) as (Hids & _).
    rewrite Hids. vm_compute. reflexivity.
  - destruct (serve_answers_in_order
                (NewServer Example.builtRunner "agentkit-local" "1.0.0"))
      as [Hlive _].
    assert (Hctx : forall w : Example.World, (ctx_Err w).1 = None)
      by (intros w; reflexivity).
    exact (proj1 (proj2 (proj2 (Hlive Hctx
                {| scan_lines := ["{oops"; ""; Example.initializedLine;
                                  Example.toolsListLine];
                   scan_Err := None |} Example.world)))).
  - destruct (@serve_answers_in_order _ Example.doneEnv _ _
                (NewServer Example.builtRunner "agentkit-local" "1.0.0"))
      as [_ Hdone].
    unfold serve. cbn [scan_lines scan_Err].
    now rewrite (Hdone "{oops" _ None [] Example.world "context canceled" eq_refl).
Defined.
